(** * Kana Dojo: adaptive quiz core

    A shallow embedding of the quiz logic of the two kana games,
    [PickGame] (character pick) and [WordBuildingGame] (word building),
    together with the three collaborators they call: the adaptive
    selector, the progressive-difficulty hook and the smart reverse-mode
    hook; and of the list logic of [KanaCards], [QuickSelectModal] and
    [SubcategoryPageClient].

    Strings are the opaque quiz tokens (kana glyphs, romanizations).  A
    JavaScript value of type [string | undefined] is an [option string],
    [None] being [undefined].  A JavaScript object used as a dictionary is
    an association list in property order.  Randomness is a sequence of
    uniform draws that the handlers consume from left to right. *)

From Stdlib Require Import ZArith QArith Qround Qminmax Lia Lqa.
From stdpp Require Import gmap strings list.

Open Scope string_scope.
Open Scope list_scope.
Open Scope Z_scope.

(** ** Errors, the mutable world, and the handler monad *)

Inductive ErrorKind : Type :=
| InvalidArgument.

Inductive Result (A : Type) : Type :=
| Ok (a : A)
| Err (e : ErrorKind).
Arguments Ok {A} a.
Arguments Err {A} e.

(** Modelled from the spec: [CharacterWeight], one entry of the weight
    table of the adaptive selector, which is not among the sources. *)
Record CharacterWeight : Type := mkCharacterWeight {
  weight : Q;
  seen : bool
}.

(** What the module-level singletons own: the pending random draws of the
    engines, and the weight table of the global adaptive selector. *)
Record World : Type := mkWorld {
  rng : list Q;
  weights : gmap string CharacterWeight
}.

(** A computation over a mutable state [S] may read it, write it, and
    throw. A throw keeps the writes made before it, as in JavaScript. *)
Definition M (S A : Type) : Type := S -> Result A * S.

#[global] Instance M_ret (S : Type) : MRet (M S) := fun A a s => (Ok a, s).

#[global] Instance M_bind (S : Type) : MBind (M S) := fun A B f m s =>
  match m s with
  | (Ok a, s') => f a s'
  | (Err e, s') => (Err e, s')
  end.

Definition throw {S A : Type} (e : ErrorKind) : M S A := fun s => (Err e, s).

Definition gets {S A : Type} (f : S -> A) : M S A := fun s => (Ok (f s), s).

Definition modify {S : Type} (f : S -> S) : M S unit := fun s => (Ok tt, f s).

(** Runs a computation on a part of the state. *)
Definition zoom {S T A : Type} (view : T -> S) (update : S -> T -> T)
  (m : M S A) : M T A := fun t =>
  let (r, s') := m (view t) in (r, update s' t).

Definition getWeights : M World (gmap string CharacterWeight) :=
  gets weights.

Definition setWeights (t : gmap string CharacterWeight) : M World unit :=
  modify (fun w => mkWorld (rng w) t).

(** ** The random engine *)

Module Random.

(** The engines ([random-js] and the selector's own source of randomness)
    are libraries outside the repository. An engine is represented by the
    sequence of uniform draws it is going to hand out, which makes every
    run of a handler a function of that sequence. *)

(** The fractional part: whatever rational the sequence holds, the draw
    handed out lies in [0, 1). *)
Definition unit_part (d : Q) : Q := (d - inject_Z (Qfloor d))%Q.

(** One uniform draw in [0, 1); an exhausted sequence keeps giving 0. *)
Definition draw : M World Q := fun w =>
  match rng w with
  | [] => (Ok 0%Q, w)
  | d :: ds => (Ok (unit_part d), mkWorld ds (weights w))
  end.

(** [random.real(0, 1)] *)
Definition real01 : M World Q := draw.

(** [random.bool()] *)
Definition bool : M World bool :=
  d ← draw; mret (if Qlt_le_dec d (1 # 2) then false else true).

(** [random.integer(lo, hi)], both ends included. *)
Definition integer (lo hi : Z) : M World Z :=
  d ← draw; mret (lo + Qfloor (d * inject_Z (hi - lo + 1)))%Z.

End Random.

(** ** JavaScript arrays and objects *)

Module Js.

(** A dictionary object with string keys, in property order. The keys of
    the games are kana and romanizations, never canonical array indices,
    so property order is insertion order. *)
Abbreviation Obj V := (list (string * V)).

(** [obj[k]] *)
Fixpoint get {V : Type} (o : Obj V) (k : string) : option V :=
  match o with
  | [] => None
  | (k', v) :: o' => if String.eqb k' k then Some v else get o' k
  end.

(** [obj[k] = v]: an existing property keeps its place. *)
Fixpoint set {V : Type} (o : Obj V) (k : string) (v : V) : Obj V :=
  match o with
  | [] => [(k, v)]
  | (k', v') :: o' =>
      if String.eqb k' k then (k', v) :: o' else (k', v') :: set o' k v
  end.

(** [Object.fromEntries(entries)] *)
Definition fromEntries {V : Type} (entries : list (string * V)) : Obj V :=
  fold_left (fun o kv => set o (fst kv) (snd kv)) entries [].

(** [const { [k]: _, ...rest } = obj] *)
Definition omit {V : Type} (o : Obj V) (k : string) : Obj V :=
  filter (fun kv => negb (String.eqb (fst kv) k) = true) o.

(** [Object.values(obj)] *)
Definition values {V : Type} (o : Obj V) : list V := snd <$> o.

(** [Object.entries(obj)] *)
Definition entries {V : Type} (o : Obj V) : list (string * V) := o.

(** A property key made from a value: [undefined] becomes the string
    ["undefined"]. *)
Definition toKey (v : option string) : string :=
  match v with
  | Some s => s
  | None => "undefined"
  end.

(** [obj[k]] where the stored values may themselves be [undefined]. *)
Definition getStr (o : Obj (option string)) (k : string) : option string :=
  match get o k with
  | Some v => v
  | None => None
  end.

(** [arr.map((x, i) => f(x, i))] *)
Fixpoint mapi_from {A B : Type} (i : nat) (f : A -> nat -> B) (l : list A)
  : list B :=
  match l with
  | [] => []
  | x :: l' => f x i :: mapi_from (S i) f l'
  end.

Definition mapi {A B : Type} (f : A -> nat -> B) (l : list A) : list B :=
  mapi_from 0 f l.

(** [arr.every((x, i) => p(x, i))] *)
Definition every {A : Type} (p : A -> nat -> bool) (l : list A) : bool :=
  forallb (fun b : bool => b) (mapi p l).

(** [arr.includes(x)] on strings. *)
Definition includes (l : list string) (x : string) : bool :=
  existsb (String.eqb x) l.

(** [arr.includes(x)] where the array may hold [undefined]. *)
Definition includesStr (l : list (option string)) (x : string) : bool :=
  existsb (fun y => match y with
                    | Some s => String.eqb x s
                    | None => false
                    end) l.

(** [arr.slice(0, n)]: a negative [n] counts from the end. *)
Definition slice0 {A : Type} (n : Z) (l : list A) : list A :=
  if (0 <=? n)%Z then take (Z.to_nat n) l
  else take (length l - Z.to_nat (- n))%nat l.

(** [a === b] on [string | undefined]. *)
Definition strictEq (a b : option string) : bool :=
  match a, b with
  | Some x, Some y => String.eqb x y
  | None, None => true
  | _, _ => false
  end.

(** One insertion step of the sort below: the comparator
    [() => random.real(0, 1) - 0.5] ignores its arguments, so each
    comparison is decided by one draw. *)
Fixpoint insertRandom {A : Type} (x : A) (sorted : list A)
  : M World (list A) :=
  match sorted with
  | [] => mret [x]
  | y :: rest =>
      d ← Random.real01;
      if Qlt_le_dec (d - (1 # 2)) 0 then mret (x :: y :: rest)
      else (r ← insertRandom x rest; mret (y :: r))
  end.

(** [arr.sort(() => random.real(0, 1) - 0.5)]. Which permutation comes
    out is up to the engine's algorithm and the draws; an insertion sort
    stands for the engine. Only that the result is a permutation is used
    below. *)
Fixpoint sortRandom {A : Type} (l : list A) : M World (list A) :=
  match l with
  | [] => mret []
  | x :: rest => s ← sortRandom rest; insertRandom x s
  end.

End Js.

(** ** useProgressiveDifficulty *)

Module ProgressiveDifficulty.

(** Modelled from the spec: the configuration of the missing hook
    [useProgressiveDifficulty], as passed at its call site in [PickGame]. *)
Record Config : Type := mkConfig {
  minOptions : Z;
  maxOptions : Z;
  streakPerLevel : Z;
  wrongsToDecrease : Z
}.

(** Modelled from the spec: [DifficultyState] of the missing hook. *)
Record DifficultyState : Type := mkState {
  optionCount : Z;
  correctStreak : Z;
  wrongCount : Z
}.

(** Modelled from the spec: the hook [useProgressiveDifficulty] lives in
    [shared/hooks/useProgressiveDifficulty], which is not among the
    sources; only its call site in [PickGame] is. Initial state:
    [optionCount = minOptions], both counters 0. *)
Definition initial (c : Config) : DifficultyState :=
  mkState (minOptions c) 0 0.

(** Modelled from the spec: [recordCorrect] of the missing hook.
    Increments [correctStreak] and resets [wrongCount]; when the streak
    reaches a multiple of [streakPerLevel], [optionCount] goes up by one,
    capped at [maxOptions]; the streak keeps accumulating. *)
Definition recordCorrect (c : Config) (s : DifficultyState)
  : DifficultyState :=
  let streak := correctStreak s + 1 in
  let levelUp := (streak mod streakPerLevel c =? 0) in
  mkState
    (if levelUp then Z.min (optionCount s + 1) (maxOptions c)
     else optionCount s)
    streak
    0.

(** Modelled from the spec: [recordWrong] of the missing hook.
    Increments [wrongCount] and resets [correctStreak]; when the count
    reaches [wrongsToDecrease], [optionCount] goes down by one, floored
    at [minOptions], and [wrongCount] restarts from 0. *)
Definition recordWrong (c : Config) (s : DifficultyState)
  : DifficultyState :=
  let wrongs := wrongCount s + 1 in
  if wrongsToDecrease c <=? wrongs
  then mkState (Z.max (optionCount s - 1) (minOptions c)) 0 0
  else mkState (optionCount s) 0 wrongs.

(** The two calls a game makes on the hook. *)
Inductive Call : Type :=
| CallCorrect
| CallWrong.

(** One call. *)
Definition step (c : Config) (s : DifficultyState) (k : Call)
  : DifficultyState :=
  match k with
  | CallCorrect => recordCorrect c s
  | CallWrong => recordWrong c s
  end.

(** The state after a sequence of calls. *)
Definition run (c : Config) (calls : list Call) (s : DifficultyState)
  : DifficultyState :=
  fold_left (step c) calls s.

(** The states seen after each call of a sequence, in order. *)
Fixpoint trace (c : Config) (calls : list Call) (s : DifficultyState)
  : list DifficultyState :=
  match calls with
  | [] => []
  | k :: rest => step c s k :: trace c rest (step c s k)
  end.

(** The invariant of the spec: [minOptions <= optionCount <= maxOptions]. *)
Definition inBounds (c : Config) (s : DifficultyState) : Prop :=
  minOptions c <= optionCount s <= maxOptions c.

End ProgressiveDifficulty.

(** ** useSmartReverseMode *)

Module SmartReverseMode.

(** Modelled from the spec: [ReverseModeState] of the missing hook
    [useSmartReverseMode]. *)
Record ReverseModeState : Type := mkState {
  isReverse : bool;
  consecutiveCorrect : Z
}.

(** Modelled from the spec: the flip policy of the missing hook. From the
    streak just reached, the current orientation and one uniform draw,
    the next orientation; the spec leaves it open (probabilistic or
    threshold based). *)
Definition Policy : Type := Z -> bool -> Q -> bool.

(** Modelled from the spec: session defaults of the missing hook
    [useSmartReverseMode]: forward orientation, no streak. *)
Definition initial : ReverseModeState := mkState false 0.

(** Modelled from the spec: [decideNextMode] of the missing hook
    [useSmartReverseMode] (in [shared/hooks/useSmartReverseMode]).
    Increments [consecutiveCorrect] and lets the policy choose the next
    orientation. *)
Definition decideNextMode (policy : Policy) (s : ReverseModeState)
  : M World ReverseModeState :=
  d ← Random.draw;
  let streak := consecutiveCorrect s + 1 in
  mret (mkState (policy streak (isReverse s) d) streak).

(** Modelled from the spec: [recordWrongAnswer] of the missing hook
    [useSmartReverseMode]. Resets [consecutiveCorrect] and leaves
    [isReverse] as it is. *)
Definition recordWrongAnswer (s : ReverseModeState) : ReverseModeState :=
  mkState (isReverse s) 0.

End SmartReverseMode.

(** ** The adaptive selector *)

Module AdaptiveSelection.

(** Modelled from the spec: the tunable constants of the weight update of
    the missing selector (floor, ceiling, decay and growth factors). *)
Record Tuning : Type := mkTuning {
  floor : Q;
  ceiling : Q;
  decay : Q;
  growth : Q
}.

(** Modelled from the spec: what it asks of the constants of the missing
    selector. A positive floor below the default weight 1, a ceiling
    above it, a decay factor in (0, 1) and a growth factor above 1. *)
Definition wellTuned (t : Tuning) : Prop :=
  (0 < floor t)%Q /\ (floor t <= 1)%Q /\ (1 <= ceiling t)%Q /\
  (0 < decay t)%Q /\ (decay t < 1)%Q /\ (1 < growth t)%Q.

(** Modelled from the spec: an entry is created lazily with weight 1.0
    and [seen = false] (the selector lives in
    [shared/lib/adaptiveSelection], which is not among the sources). *)
Definition defaultEntry : CharacterWeight := mkCharacterWeight 1 false.

(** Modelled from the spec: the entry of a character in the table of the
    missing selector, the default one if it was never referred to. *)
Definition entryOf (t : gmap string CharacterWeight) (c : string)
  : CharacterWeight :=
  default defaultEntry (t !! c).

(** Modelled from the spec: the current weight of a character. *)
Definition weightOf (t : gmap string CharacterWeight) (c : string) : Q :=
  weight (entryOf t c).

(** Modelled from the spec: the candidates of a draw. The excluded
    character is removed, unless nothing else is left. *)
Definition candidates (pool : list string) (exclude : option string)
  : list string :=
  match exclude with
  | None => pool
  | Some x =>
      match filter (fun c => c <> x) pool with
      | [] => pool
      | c :: rest => c :: rest
      end
  end.

(** Modelled from the spec: the cumulative-weight walk of the missing
    selector. It returns the first candidate whose running total
    exceeds the target; the last one if rounding leaves none. *)
Fixpoint walk (t : gmap string CharacterWeight) (target : Q)
  (last : string) (cs : list string) : string :=
  match cs with
  | [] => last
  | c :: rest =>
      if Qlt_le_dec target (weightOf t c) then c
      else walk t (target - weightOf t c)%Q c rest
  end.

(** Modelled from the spec: the sum of the weights of the candidates. *)
Definition totalWeight (t : gmap string CharacterWeight)
  (cs : list string) : Q :=
  foldr (fun c acc => (weightOf t c + acc)%Q) 0%Q cs.

(** Modelled from the spec: [selectWeightedCharacter(pool, exclude?)] of
    the missing selector. An empty pool is an [InvalidArgument]; else a
    uniform draw scaled by the total weight picks one candidate. The
    weight table is read, not written. *)
Definition selectWeightedCharacter (pool : list string)
  (exclude : option string) : M World string :=
  match candidates pool exclude with
  | [] => throw InvalidArgument
  | c :: rest =>
      t ← getWeights;
      u ← Random.draw;
      mret (walk t (u * totalWeight t (c :: rest))%Q c (c :: rest))
  end.

(** Modelled from the spec: [markCharacterSeen] of the missing selector.
    Sets [seen]; the weight is kept. *)
Definition markCharacterSeen (c : string) : M World unit :=
  t ← getWeights;
  setWeights (<[c := mkCharacterWeight (weightOf t c) true]> t).

(** Modelled from the spec: the weight after one answer, for the missing
    selector. Times [decay] but not below the floor when correct, times
    [growth] but not above the ceiling when wrong. *)
Definition nextWeight (tu : Tuning) (w : Q) (wasCorrect : bool) : Q :=
  if wasCorrect then Qmax (floor tu) (w * decay tu)
  else Qmin (ceiling tu) (w * growth tu).

(** Modelled from the spec: [updateCharacterWeight(character,
    wasCorrect)] of the missing selector. *)
Definition updateCharacterWeight (tu : Tuning) (c : string)
  (wasCorrect : bool) : M World unit :=
  t ← getWeights;
  setWeights
    (<[c := mkCharacterWeight (nextWeight tu (weightOf t c) wasCorrect)
                              (seen (entryOf t c))]> t).

End AdaptiveSelection.

(** ** What a quiz session is given *)

(** The flattened kana and romanization lists of the selected groups
    ([kanaGroupIndices.map(i => kana[i].kana).flat()] and the same for
    [romanji]; the table [kana] is not among the sources and is taken as
    given), and the constants of the two hooks. *)
Record Env : Type := mkEnv {
  selectedKana : list string;
  selectedRomaji : list string;
  tuning : AdaptiveSelection.Tuning;
  policy : SmartReverseMode.Policy
}.

(** ** PickGame *)

Module PickGame.

(** The configuration passed to [useProgressiveDifficulty]. *)
Definition difficultyConfig : ProgressiveDifficulty.Config :=
  ProgressiveDifficulty.mkConfig 3 6 5 2.

(** React state, hook state and the stores the component writes. *)
Record State : Type := mkState {
  world : World;
  correctKanaChar : string;
  correctRomajiCharReverse : string;
  wrongSelectedAnswers : list string;
  score : Z;
  reverseMode : SmartReverseMode.ReverseModeState;
  difficulty : ProgressiveDifficulty.DifficultyState
}.

Definition setWorld (w : World) (s : State) : State :=
  mkState w (correctKanaChar s) (correctRomajiCharReverse s)
    (wrongSelectedAnswers s) (score s) (reverseMode s) (difficulty s).

Definition setCorrectKanaChar (c : string) (s : State) : State :=
  mkState (world s) c (correctRomajiCharReverse s)
    (wrongSelectedAnswers s) (score s) (reverseMode s) (difficulty s).

Definition setCorrectRomajiCharReverse (c : string) (s : State) : State :=
  mkState (world s) (correctKanaChar s) c
    (wrongSelectedAnswers s) (score s) (reverseMode s) (difficulty s).

Definition setWrongSelectedAnswers (l : list string) (s : State) : State :=
  mkState (world s) (correctKanaChar s) (correctRomajiCharReverse s)
    l (score s) (reverseMode s) (difficulty s).

Definition setScore (n : Z) (s : State) : State :=
  mkState (world s) (correctKanaChar s) (correctRomajiCharReverse s)
    (wrongSelectedAnswers s) n (reverseMode s) (difficulty s).

Definition setReverseMode (r : SmartReverseMode.ReverseModeState)
  (s : State) : State :=
  mkState (world s) (correctKanaChar s) (correctRomajiCharReverse s)
    (wrongSelectedAnswers s) (score s) r (difficulty s).

Definition setDifficulty (d : ProgressiveDifficulty.DifficultyState)
  (s : State) : State :=
  mkState (world s) (correctKanaChar s) (correctRomajiCharReverse s)
    (wrongSelectedAnswers s) (score s) (reverseMode s) d.

Definition inWorld {A : Type} (m : M World A) : M State A :=
  zoom world setWorld m.

(** [selectedPairs]: kana to romanization. *)
Definition selectedPairs (env : Env) : Js.Obj (option string) :=
  Js.fromEntries
    (Js.mapi (fun key i => (key, selectedRomaji env !! i))
             (selectedKana env)).

(** [selectedPairs1]: romanization to kana, later entries winning. *)
Definition selectedPairs1 (env : Env) : Js.Obj (option string) :=
  Js.fromEntries
    (Js.mapi (fun key i => (key, selectedKana env !! i))
             (selectedRomaji env)).

(** [selectedPairs2]: the same entries taken in reverse. *)
Definition selectedPairs2 (env : Env) : Js.Obj (option string) :=
  Js.fromEntries
    (reverse (Js.mapi (fun key i => (key, selectedKana env !! i))
                      (selectedRomaji env))).

Definition swapEntry (kv : string * option string) : string * string :=
  (Js.toKey (snd kv), fst kv).

Definition reversedPairs1 (env : Env) : Js.Obj string :=
  Js.fromEntries (swapEntry <$> Js.entries (selectedPairs1 env)).

Definition reversedPairs2 (env : Env) : Js.Obj string :=
  Js.fromEntries (swapEntry <$> Js.entries (selectedPairs2 env)).

(** [displayChar]: the character shown as the question. *)
Definition displayChar (isReverse : bool) (kanaChar romajiChar : string)
  : string :=
  if isReverse then romajiChar else kanaChar.

(** The characters asked, and the characters answered with, for an
    orientation. *)
Definition questions (env : Env) (isReverse : bool) : list string :=
  if isReverse then selectedRomaji env else selectedKana env.

Definition answers (env : Env) (isReverse : bool) : list string :=
  if isReverse then selectedKana env else selectedRomaji env.

(** The answer slots of the pool in pool order: slot [j] holds
    [answers[j]], which is [undefined] past the end of the answers. *)
Definition answerValues (env : Env) (isReverse : bool)
  : list (option string) :=
  Js.values (Js.mapi (fun key j => (key, answers env isReverse !! j))
                     (questions env isReverse)).

(** The dictionaries a render may consult for an orientation. *)
Definition tableFor (env : Env) (isReverse : bool)
  (table : Js.Obj (option string)) : Prop :=
  if isReverse
  then table = selectedPairs1 env \/ table = selectedPairs2 env
  else table = selectedPairs env.

(** The initializer of [correctKanaChar]. *)
Definition initialKanaChar (env : Env) : M World string :=
  match selectedKana env with
  | [] => mret (M := M World) ""
  | _ :: _ =>
      selected ← AdaptiveSelection.selectWeightedCharacter
                   (selectedKana env) None;
      AdaptiveSelection.markCharacterSeen selected;;
      mret selected
  end.

(** The initializer of [correctRomajiCharReverse]. *)
Definition initialRomajiChar (env : Env) : M World string :=
  match selectedRomaji env with
  | [] => mret (M := M World) ""
  | _ :: _ =>
      selected ← AdaptiveSelection.selectWeightedCharacter
                   (selectedRomaji env) None;
      AdaptiveSelection.markCharacterSeen selected;;
      mret selected
  end.

(** [correctRomajiChar = selectedPairs[correctKanaChar]] *)
Definition correctRomajiChar (env : Env) (kanaChar : string)
  : option string :=
  Js.getStr (selectedPairs env) kanaChar.

(** [correctKanaCharReverse], drawn anew at every render. *)
Definition correctKanaCharReverse (env : Env) (romajiChar : string)
  : M World (option string) :=
  b ← Random.bool;
  mret (if b : bool then Js.getStr (selectedPairs1 env) romajiChar
        else Js.getStr (selectedPairs2 env) romajiChar).

(** [getIncorrectOptions(count)] for the orientation and the correct
    characters of the current render. *)
Definition getIncorrectOptions (env : Env) (isReverse : bool)
  (kanaChar romajiChar : string) (count : Z)
  : M World (list (option string)) :=
  let incorrectCount := count - 1 in
  if negb isReverse then
    let incorrectPairs := Js.omit (selectedPairs env) kanaChar in
    shuffled ← Js.sortRandom (Js.values incorrectPairs);
    mret (Js.slice0 incorrectCount shuffled)
  else
    b ← Random.bool;
    let incorrectPairs :=
      Js.omit (if b : bool then selectedPairs1 env else selectedPairs2 env)
              romajiChar in
    shuffled ← Js.sortRandom (Js.values incorrectPairs);
    mret (Js.slice0 incorrectCount shuffled).

(** The value given to [setShuffledVariants], by the state initializer
    and by the effect that follows a change of the correct character or
    of the option count: the options presented in the round. *)
Definition shuffledVariants (env : Env) (isReverse : bool)
  (kanaChar romajiChar : string) (optionCount : Z)
  : M World (list (option string)) :=
  kanaCharReverse ← correctKanaCharReverse env romajiChar;
  incorrectOptions ←
    getIncorrectOptions env isReverse kanaChar romajiChar optionCount;
  if isReverse
  then Js.sortRandom (kanaCharReverse :: incorrectOptions)
  else Js.sortRandom (correctRomajiChar env kanaChar :: incorrectOptions).

(** The options presented for a state of the game. *)
Definition presentedOptions (env : Env) (s : State)
  : M World (list (option string)) :=
  shuffledVariants env
    (SmartReverseMode.isReverse (reverseMode s))
    (correctKanaChar s) (correctRomajiCharReverse s)
    (ProgressiveDifficulty.optionCount (difficulty s)).

(** [handleCorrectAnswer(correctChar)]; [r] holds the values the
    callback closed over at render. Sounds, statistics and the stopwatch
    are outside the model. *)
Definition handleCorrectAnswer (env : Env) (r : State)
  (correctChar : string) : M State unit :=
  modify (setScore (score r + 1));;
  modify (setWrongSelectedAnswers []);;
  inWorld (AdaptiveSelection.updateCharacterWeight (tuning env)
             correctChar true);;
  mode ← gets reverseMode;
  mode' ← inWorld (SmartReverseMode.decideNextMode (policy env) mode);
  modify (setReverseMode mode');;
  modify (fun s => setDifficulty
    (ProgressiveDifficulty.recordCorrect difficultyConfig (difficulty s))
    s).

(** [handleWrongAnswer(selectedChar)] *)
Definition handleWrongAnswer (env : Env) (r : State)
  (selectedChar : string) : M State unit :=
  modify (setWrongSelectedAnswers
            (wrongSelectedAnswers r ++ [selectedChar]));;
  let currentChar :=
    if SmartReverseMode.isReverse (reverseMode r)
    then correctRomajiCharReverse r
    else correctKanaChar r in
  (if score r - 1 <? 0
   then modify (setScore 0)
   else modify (setScore (score r - 1)));;
  inWorld (AdaptiveSelection.updateCharacterWeight (tuning env)
             currentChar false);;
  modify (fun s => setReverseMode
    (SmartReverseMode.recordWrongAnswer (reverseMode s)) s);;
  modify (fun s => setDifficulty
    (ProgressiveDifficulty.recordWrong difficultyConfig (difficulty s))
    s).

(** Is the clicked option the right one? *)
Definition isRightOption (env : Env) (r : State) (selectedChar : string)
  : bool :=
  if negb (SmartReverseMode.isReverse (reverseMode r))
  then Js.strictEq (Some selectedChar)
         (correctRomajiChar env (correctKanaChar r))
  else
    Js.strictEq (Js.get (reversedPairs1 env) selectedChar)
                (Some (correctRomajiCharReverse r))
    || Js.strictEq (Js.get (reversedPairs2 env) selectedChar)
                   (Some (correctRomajiCharReverse r)).

(** [handleOptionClick(selectedChar)] *)
Definition handleOptionClick (env : Env) (selectedChar : string)
  : M State unit :=
  r ← gets (fun s => s);
  if negb (SmartReverseMode.isReverse (reverseMode r)) then
    if isRightOption env r selectedChar then
      handleCorrectAnswer env r (correctKanaChar r);;
      newKana ← inWorld (AdaptiveSelection.selectWeightedCharacter
                           (selectedKana env) (Some (correctKanaChar r)));
      inWorld (AdaptiveSelection.markCharacterSeen newKana);;
      modify (setCorrectKanaChar newKana)
    else handleWrongAnswer env r selectedChar
  else
    if isRightOption env r selectedChar then
      handleCorrectAnswer env r (correctRomajiCharReverse r);;
      newRomaji ← inWorld (AdaptiveSelection.selectWeightedCharacter
                             (selectedRomaji env)
                             (Some (correctRomajiCharReverse r)));
      inWorld (AdaptiveSelection.markCharacterSeen newRomaji);;
      modify (setCorrectRomajiCharReverse newRomaji)
    else handleWrongAnswer env r selectedChar.

(** The state left by a sequence of clicks. A click whose handler throws
    keeps the writes made before the throw. *)
Definition clicks (env : Env) (cs : list string) (s : State) : State :=
  fold_left (fun s c => snd (handleOptionClick env c s)) cs s.

End PickGame.

(** ** WordBuildingGame *)

Module WordBuildingGame.

(** The props that matter to the logic. [externalIsReverse = None] is a
    prop left [undefined]; [wordLength] is a count of characters, 3 when
    the prop is left out. *)
Record Props : Type := mkProps {
  externalIsReverse : option bool;
  wordLength : nat
}.

Inductive BottomBarState : Type :=
| check
| correct
| wrong.

Record WordData : Type := mkWordData {
  wordChars : list string;
  answerChars : list (option string);
  allTiles : list (option string)
}.

Record State : Type := mkState {
  world : World;
  wordData : WordData;
  placedTiles : list string;
  isChecking : bool;
  bottomBarState : BottomBarState;
  score : Z;
  reverseMode : SmartReverseMode.ReverseModeState
}.

Definition setWorld (w : World) (s : State) : State :=
  mkState w (wordData s) (placedTiles s) (isChecking s)
    (bottomBarState s) (score s) (reverseMode s).

Definition setWordData (d : WordData) (s : State) : State :=
  mkState (world s) d (placedTiles s) (isChecking s)
    (bottomBarState s) (score s) (reverseMode s).

Definition setPlacedTiles (l : list string) (s : State) : State :=
  mkState (world s) (wordData s) l (isChecking s)
    (bottomBarState s) (score s) (reverseMode s).

Definition setIsChecking (b : bool) (s : State) : State :=
  mkState (world s) (wordData s) (placedTiles s) b
    (bottomBarState s) (score s) (reverseMode s).

Definition setBottomBarState (b : BottomBarState) (s : State) : State :=
  mkState (world s) (wordData s) (placedTiles s) (isChecking s)
    b (score s) (reverseMode s).

Definition setScore (n : Z) (s : State) : State :=
  mkState (world s) (wordData s) (placedTiles s) (isChecking s)
    (bottomBarState s) n (reverseMode s).

Definition setReverseMode (r : SmartReverseMode.ReverseModeState)
  (s : State) : State :=
  mkState (world s) (wordData s) (placedTiles s) (isChecking s)
    (bottomBarState s) (score s) r.

Definition inWorld {A : Type} (m : M World A) : M State A :=
  zoom world setWorld m.

(** [isReverse = externalIsReverse ?? internalIsReverse] *)
Definition isReverse (props : Props) (s : State) : bool :=
  match externalIsReverse props with
  | Some b => b
  | None => SmartReverseMode.isReverse (reverseMode s)
  end.

(** [kanaToRomaji], filled by [k2r[k] = romajiChars[i]]. *)
Definition kanaToRomaji (env : Env) : Js.Obj (option string) :=
  Js.fromEntries
    (Js.mapi (fun k i => (k, selectedRomaji env !! i)) (selectedKana env)).

(** [romajiToKana], filled by [r2k[romajiChars[i]] = k]. *)
Definition romajiToKana (env : Env) : Js.Obj string :=
  Js.fromEntries
    (Js.mapi (fun k i => (Js.toKey (selectedRomaji env !! i), k))
             (selectedKana env)).

(** The first loop of [generateWord]: up to [n] more characters, each
    drawn by the selector among those not used yet. *)
Fixpoint selectWordChars (n : nat) (sourceChars : list string)
  (wordChars : list string) (usedChars : gset string)
  : M World (list string) :=
  match n with
  | O => mret wordChars
  | S n' =>
      match filter (fun c => c ∉ usedChars) sourceChars with
      | [] => mret wordChars
      | c :: rest =>
          selected ← AdaptiveSelection.selectWeightedCharacter
                       (c :: rest) None;
          AdaptiveSelection.markCharacterSeen selected;;
          selectWordChars n' sourceChars (wordChars ++ [selected])
            ({[selected]} ∪ usedChars)
      end
  end.

(** [arr[i]] for an integer [i]. *)
Definition at_index (l : list string) (i : Z) : option string :=
  if i <? 0 then None else l !! Z.to_nat i.

(** The second loop of [generateWord]: up to [n] more distractors, each
    picked uniformly among the values that are neither an answer nor
    already a distractor. *)
Fixpoint selectDistractors (n : nat) (distractorSource : list string)
  (usedAnswers : gset (option string)) (distractors : list (option string))
  : M World (list (option string)) :=
  match n with
  | O => mret distractors
  | S n' =>
      let available :=
        filter (fun c => (Some c ∉ usedAnswers)
                         ∧ (Js.includesStr distractors c = false))
               distractorSource in
      match available with
      | [] => mret distractors
      | _ :: _ =>
          i ← Random.integer 0 (Z.of_nat (length available) - 1);
          selectDistractors n' distractorSource usedAnswers
            (distractors ++ [at_index available i])
      end
  end.

(** [generateWord()] for the orientation of the current render. *)
Definition generateWord (env : Env) (props : Props) (reverse : bool)
  : M World WordData :=
  let sourceChars :=
    if reverse then selectedRomaji env else selectedKana env in
  if (length sourceChars <? wordLength props)%nat
  then mret (mkWordData [] [] [])
  else
    wordChars ← selectWordChars (wordLength props) sourceChars [] ∅;
    let answerChars : list (option string) :=
      if reverse
      then (fun r => Js.get (romajiToKana env) r) <$> wordChars
      else (fun k => Js.getStr (kanaToRomaji env) k) <$> wordChars in
    let distractorCount :=
      Z.min 3 (Z.of_nat (length sourceChars) - Z.of_nat (wordLength props))
    in
    let distractorSource :=
      if reverse then selectedKana env else selectedRomaji env in
    distractors ← selectDistractors (Z.to_nat distractorCount)
                    distractorSource (list_to_set answerChars) [];
    allTiles ← Js.sortRandom (answerChars ++ distractors);
    mret (mkWordData wordChars answerChars allTiles).

(** [resetGame()] *)
Definition resetGame (env : Env) (props : Props) : M State unit :=
  r ← gets (fun s => s);
  newWord ← inWorld (generateWord env props (isReverse props r));
  modify (setWordData newWord);;
  modify (setPlacedTiles []);;
  modify (setIsChecking false);;
  modify (setBottomBarState check).

(** The test of [handleCheck]: same length, and every placed tile equal
    to the answer at its index. *)
Definition isCorrect (placed : list string)
  (answer : list (option string)) : bool :=
  (length placed =? length answer)%nat
  && Js.every (fun tile i => Js.strictEq (Some tile)
                               (default None (answer !! i))) placed.

(** [wordChars.forEach(char => adaptiveSelector.updateCharacterWeight(
    char, wasCorrect))]; the statistics calls are outside the model. *)
Fixpoint updateWeights (tu : AdaptiveSelection.Tuning)
  (chars : list string) (wasCorrect : bool) : M World unit :=
  match chars with
  | [] => mret tt
  | c :: rest =>
      AdaptiveSelection.updateCharacterWeight tu c wasCorrect;;
      updateWeights tu rest wasCorrect
  end.

(** [handleCheck()]; [r] is the render the callback closed over. Sounds,
    statistics, the stopwatch and the parent's [onWrong] callback are
    outside the model. *)
Definition handleCheck (env : Env) (props : Props) : M State unit :=
  r ← gets (fun s => s);
  match placedTiles r with
  | [] => mret tt
  | _ :: _ =>
      modify (setIsChecking true);;
      if isCorrect (placedTiles r) (answerChars (wordData r)) then
        inWorld (updateWeights (tuning env) (wordChars (wordData r)) true);;
        modify (setScore
                  (score r + Z.of_nat (length (wordChars (wordData r)))));;
        modify (setBottomBarState correct);;
        match externalIsReverse props with
        | None =>
            mode ← gets reverseMode;
            mode' ← inWorld
                      (SmartReverseMode.decideNextMode (policy env) mode);
            modify (setReverseMode mode')
        | Some _ => mret tt
        end
      else
        inWorld (updateWeights (tuning env) (wordChars (wordData r))
                   false);;
        (if 0 <=? score r - 1
         then modify (setScore (score r - 1))
         else mret tt);;
        modify (setBottomBarState wrong);;
        match externalIsReverse props with
        | None =>
            modify (fun s => setReverseMode
              (SmartReverseMode.recordWrongAnswer (reverseMode s)) s)
        | Some _ => mret tt
        end
  end.

(** [handleContinue()]; the parent's [onCorrect] callback is outside the
    model. *)
Definition handleContinue (env : Env) (props : Props) : M State unit :=
  resetGame env props.

(** [handleTryAgain()] *)
Definition handleTryAgain : M State unit :=
  modify (setPlacedTiles []);;
  modify (setIsChecking false);;
  modify (setBottomBarState check).

(** [handleTileClick(char)] *)
Definition handleTileClick (char : string) : M State unit :=
  r ← gets (fun s => s);
  if isChecking r then mret tt
  else if Js.includes (placedTiles r) char
  then modify (fun s => setPlacedTiles
         (filter (fun c => c <> char) (placedTiles s)) s)
  else modify (fun s => setPlacedTiles (placedTiles s ++ [char]) s).

(** [handleClearPlaced()] *)
Definition handleClearPlaced : M State unit :=
  r ← gets (fun s => s);
  if isChecking r then mret tt else modify (setPlacedTiles []).

(** What the learner can do on the rendered component. *)
Inductive Event : Type :=
| ClickMainButton
| ClickClear
| ClickTile (char : string).

(** The handler the rendered buttons attach to each event: the main
    button continues, retries or checks according to the bottom bar;
    the clear button is only there while checking is possible. *)
Definition dispatch (env : Env) (props : Props) (e : Event)
  : M State unit :=
  r ← gets (fun s => s);
  match e with
  | ClickMainButton =>
      match bottomBarState r with
      | correct => handleContinue env props
      | wrong => handleTryAgain
      | check => handleCheck env props
      end
  | ClickClear =>
      match bottomBarState r with
      | check => handleClearPlaced
      | _ => mret tt
      end
  | ClickTile char => handleTileClick char
  end.

(** The effect [useEffect(() => resetGame(), [isReverse, wordLength,
    resetGame])] after a render: with the props and the pool fixed, its
    dependencies change exactly when the orientation does. *)
Definition commitEffects (env : Env) (props : Props) (before : bool)
  : M State unit :=
  r ← gets (fun s => s);
  if Bool.eqb (isReverse props r) before then mret tt
  else resetGame env props.

(** One event: its handler, then the effects of the render it causes. *)
Definition step (env : Env) (props : Props) (e : Event) : M State unit :=
  r ← gets (fun s => s);
  dispatch env props e;;
  commitEffects env props (isReverse props r).

(** The state left by a sequence of events. *)
Definition run (env : Env) (props : Props) (es : list Event) (s : State)
  : State :=
  fold_left (fun s e => snd (step env props e s)) es s.

(** Is this event a check that the game judges correct? *)
Definition isCorrectCheck (e : Event) (s : State) : bool :=
  match e, bottomBarState s, placedTiles s with
  | ClickMainButton, check, _ :: _ =>
      isCorrect (placedTiles s) (answerChars (wordData s))
  | _, _, _ => false
  end.

(** No event of the sequence, played from [s], is a check judged
    correct. *)
Fixpoint noCorrectCheck (env : Env) (props : Props) (es : list Event)
  (s : State) : bool :=
  match es with
  | [] => true
  | e :: rest =>
      negb (isCorrectCheck e s)
      && noCorrectCheck env props rest (snd (step env props e s))
  end.

End WordBuildingGame.

(** ** PickGame: the option buttons *)

Module PickGameView.

(** [shuffledVariants.slice(0, 3)]: the first row of buttons. *)
Definition topRow (variants : list (option string)) : list (option string) :=
  Js.slice0 3 variants.

(** [shuffledVariants.slice(3)]: the second row of buttons. *)
Definition bottomRow (variants : list (option string))
  : list (option string) :=
  drop 3 variants.

(** [isWrong] of an [OptionButton]:
    [wrongSelectedAnswers.includes(variantChar)]. *)
Definition isWrong (s : PickGame.State) (variantChar : string) : bool :=
  Js.includes (PickGame.wrongSelectedAnswers s) variantChar.

(** A press on the button showing [variantChar]. The button is rendered
    with [disabled={isWrong}], and a disabled button does not call
    [onClick]. *)
Definition pressOption (env : Env) (variantChar : string)
  : M PickGame.State unit :=
  r ← gets (fun s => s);
  if isWrong r variantChar then mret tt
  else PickGame.handleOptionClick env variantChar.

(** The state left by a sequence of presses. *)
Definition presses (env : Env) (cs : list string) (s : PickGame.State)
  : PickGame.State :=
  fold_left (fun s c => snd (pressOption env c s)) cs s.

(** The places of a value in a list that the dictionaries of the pick
    game end up reading: the first and the last place where it occurs. *)
Definition firstIndexOf (l : list string) (x : string) (i : nat) : Prop :=
  l !! i = Some x /\ forall j, (j < i)%nat -> l !! j <> Some x.

Definition lastIndexOf (l : list string) (x : string) (i : nat) : Prop :=
  l !! i = Some x /\ forall j, (i < j)%nat -> l !! j <> Some x.

(** A table of the reverse orientation: each entry pairs a romanization
    with the kana at one of its indices. *)
Definition fromPool (env : Env) (table : Js.Obj (option string)) : Prop :=
  forall r v, (r, v) ∈ table ->
    exists i k, selectedRomaji env !! i = Some r
                /\ selectedKana env !! i = Some k /\ v = Some k.

(** The wrong options recorded are distinct, and none of them is the
    right one. *)
Definition wrongsRecorded (env : Env) (s : PickGame.State) : Prop :=
  NoDup (PickGame.wrongSelectedAnswers s)
  /\ forall c, c ∈ PickGame.wrongSelectedAnswers s
       -> PickGame.isRightOption env s c = false.

End PickGameView.

(** ** KanaCards *)

Module KanaCards.

(** [toggleVisibility(name)], as the update it applies to
    [hiddenSubsets]. [lower] stands for [String.prototype.toLowerCase];
    the click sound and the copy written to session storage are outside
    the model. *)
Definition toggleVisibility (lower : string -> string) (name : string)
  (prev : list string) : list string :=
  let lowerName := lower name in
  if Js.includes prev lowerName
  then filter (fun item => item <> lowerName) prev
  else prev ++ [lowerName].

(** [isHidden(name)] *)
Definition isHidden (lower : string -> string) (hiddenSubsets : list string)
  (name : string) : bool :=
  Js.includes hiddenSubsets (lower name).

End KanaCards.

(** ** QuickSelectModal *)

Module QuickSelectModal.

(** One entry of the [sets] prop. *)
Record LevelSet : Type := mkLevelSet {
  name : string;
  start : Z;
  finish : Z;
  id : string;
  isMastered : bool
}.

(** [\d] of a regular expression: the ten ASCII digits. The names are
    held as UTF-8 bytes; no byte of a longer character is a digit, so
    what the two expressions below do to the bytes is what they do to
    the characters. *)
Definition isDigit (a : Ascii.ascii) : bool :=
  let n := Ascii.nat_of_ascii a in (48 <=? n)%nat && (n <=? 57)%nat.

(** [value.replace(/\D/g, '')], applied to what is typed in the search
    box. *)
Fixpoint stripNonDigits (value : string) : string :=
  match value with
  | EmptyString => EmptyString
  | String a rest =>
      if isDigit a then String a (stripNonDigits rest)
      else stripNonDigits rest
  end.

(** The digits at the head of a string. *)
Fixpoint leadingDigits (s : string) : string :=
  match s with
  | EmptyString => EmptyString
  | String a rest =>
      if isDigit a then String a (leadingDigits rest) else EmptyString
  end.

(** [name.match(/\d+/)?.[0] || '']: the first run of digits, or the empty
    string when there is none. *)
Fixpoint levelNumber (name : string) : string :=
  match name with
  | EmptyString => EmptyString
  | String a rest =>
      if isDigit a then leadingDigits name else levelNumber rest
  end.

(** [s.includes(t)] on strings. *)
Fixpoint includes (s t : string) : bool :=
  String.prefix t s
  || match s with
     | EmptyString => false
     | String _ rest => includes rest t
     end.

(** [filteredSets] *)
Definition filteredSets (sets : list LevelSet) (searchLevel : string)
  : list LevelSet :=
  if String.eqb searchLevel "" then sets
  else filter (fun set => includes (levelNumber (name set)) searchLevel
                          = true) sets.

(** Every character of the string is a digit. *)
Fixpoint allDigits (s : string) : bool :=
  match s with
  | EmptyString => true
  | String a rest => isDigit a && allDigits rest
  end.

End QuickSelectModal.

(** ** SubcategoryPageClient and the related resources of the modal *)

Module SubcategoryPage.

(** The fields of a [Resource] that the logic reads. The type is declared
    in [features/Resources/types], which is not among the sources; the
    difficulty, price type and platforms are string literals there. *)
Record Resource : Type := mkResource {
  id : string;
  tags : list string;
  difficulty : string;
  priceType : string;
  platforms : list string
}.

(** The state of the page that the modal depends on. *)
Record State : Type := mkState {
  selectedResource : option Resource;
  isModalOpen : bool
}.

(** The initial state: [useState(null)] and [useState(false)]. *)
Definition initial : State := mkState None false.

(** [handleResourceSelect(resource)] *)
Definition handleResourceSelect (resource : Resource) (s : State) : State :=
  mkState (Some resource) true.

(** [handleModalClose()] *)
Definition handleModalClose (s : State) : State :=
  mkState None false.

Inductive Event : Type :=
| Select (resource : Resource)
| Close.

Definition step (s : State) (e : Event) : State :=
  match e with
  | Select resource => handleResourceSelect resource s
  | Close => handleModalClose s
  end.

(** [r.tags.some(tag => selectedResource.tags.includes(tag))] *)
Definition sharesTag (selected r : Resource) : bool :=
  existsb (fun tag => Js.includes (tags selected) tag) (tags r).

(** [relatedResources] *)
Definition relatedResources (selected : option Resource)
  (initialResources : list Resource) : list Resource :=
  match selected with
  | None => []
  | Some sel =>
      Js.slice0 4
        (filter (fun r => negb (String.eqb (id r) (id sel))
                          && sharesTag sel r = true)
                initialResources)
  end.

(** What [ResourceDetailModal] lists under its related resources: nothing
    without a resource, else [relatedResources.slice(0, 3)]. *)
Definition shownRelated (resource : option Resource)
  (related : list Resource) : list Resource :=
  match resource with
  | None => []
  | Some _ => Js.slice0 3 related
  end.

(** One entry of [availableFilters]: a value and the number of resources
    that carry it. *)
Definition countWhere (p : Resource -> bool) (initialResources : list Resource)
  : nat :=
  length (filter (fun r => p r = true) initialResources).

(** [availableFilters.difficulties], for the list [DIFFICULTY_LEVELS],
    which is declared outside the sources. *)
Definition difficultyCounts (levels : list string)
  (initialResources : list Resource) : list (string * nat) :=
  (fun level =>
     (level, countWhere (fun r => String.eqb (difficulty r) level)
               initialResources)) <$> levels.

(** [availableFilters.platforms], for the list [PLATFORMS]. *)
Definition platformCounts (allPlatforms : list string)
  (initialResources : list Resource) : list (string * nat) :=
  (fun platform =>
     (platform, countWhere (fun r => Js.includes (platforms r) platform)
                  initialResources)) <$> allPlatforms.

End SubcategoryPage.

(** ** WordBuildingGame: what an event does to the answer row *)

Module WordBuildingView.
Import WordBuildingGame.

(** The answer row, the bottom bar and the word are as they were. *)
Definition unchanged (s s' : State) : Prop :=
  placedTiles s' = placedTiles s /\ isChecking s' = isChecking s
  /\ bottomBarState s' = bottomBarState s /\ wordData s' = wordData s.

(** The answer row is empty and open for a check. *)
Definition reopened (s' : State) : Prop :=
  placedTiles s' = [] /\ isChecking s' = false /\ bottomBarState s' = check.

(** The placed tiles were checked and the bottom bar shows the verdict. *)
Definition checked (s s' : State) : Prop :=
  bottomBarState s = check /\ placedTiles s <> []
  /\ placedTiles s' = placedTiles s /\ isChecking s' = true
  /\ bottomBarState s' <> check /\ wordData s' = wordData s.

(** The tile [char] went into the answer row, or out of it. *)
Definition toggled (char : string) (s s' : State) : Prop :=
  isChecking s = false
  /\ placedTiles s'
     = (if Js.includes (placedTiles s) char
        then filter (fun c => c <> char) (placedTiles s)
        else placedTiles s ++ [char])
  /\ isChecking s' = false /\ bottomBarState s' = bottomBarState s
  /\ wordData s' = wordData s.

(** Checking is in progress exactly while the bottom bar shows a
    verdict. *)
Definition barMatchesChecking (s : State) : Prop :=
  isChecking s = true <-> bottomBarState s <> check.

(** What the second loop of [generateWord] keeps true of the distractors
    gathered so far: they are distinct, none is an answer, and each is a
    value of the source they are drawn from. *)
Definition distractorsOk (src : list string)
  (usedAnswers : gset (option string)) (ds : list (option string)) : Prop :=
  NoDup ds
  /\ forall d, d ∈ ds -> (d ∉ usedAnswers) /\ exists c, d = Some c /\ c ∈ src.

End WordBuildingView.

(** ** A sample session *)

(** Constants within the ranges the spec allows; the policy flips the
    orientation at every third correct answer in a row. *)
Definition sampleTuning : AdaptiveSelection.Tuning :=
  AdaptiveSelection.mkTuning (1 # 10) 10 (4 # 5) (3 # 2).

Definition samplePolicy : SmartReverseMode.Policy :=
  fun streak reverse _ => if (streak mod 3 =? 0) then negb reverse else reverse.

Definition sampleEnv : Env :=
  mkEnv ["あ"; "い"; "う"; "え"; "お"; "か"] ["a"; "i"; "u"; "e"; "o"; "ka"]
    sampleTuning samplePolicy.

(** A pool where two kana share a romanization. *)
Definition mixedEnv : Env :=
  mkEnv ["あ"; "ア"; "い"] ["a"; "a"; "i"] sampleTuning samplePolicy.

Definition sampleWorld : World :=
  mkWorld [1 # 3; 2 # 3; 1 # 7; 5 # 7; 1 # 2; 9 # 10; 1 # 10; 3 # 4;
           1 # 5; 2 # 5; 4 # 5; 1 # 9; 8 # 9; 1 # 4; 5 # 6; 1 # 6] ∅.

Definition samplePick : PickGame.State :=
  PickGame.mkState sampleWorld "あ" "a" [] 0 SmartReverseMode.initial
    (ProgressiveDifficulty.initial PickGame.difficultyConfig).

Definition sampleProps : WordBuildingGame.Props :=
  WordBuildingGame.mkProps None 3.

Definition sampleWord : WordBuildingGame.State :=
  WordBuildingGame.mkState sampleWorld
    (WordBuildingGame.mkWordData ["い"; "え"; "あ"]
       [Some "i"; Some "e"; Some "a"]
       [Some "a"; Some "u"; Some "i"; Some "o"; Some "e"; Some "ka"])
    ["e"; "i"; "a"] false WordBuildingGame.check 0 SmartReverseMode.initial.

(** The sample pick game turned to reverse orientation, on the pool with
    a shared romanization. *)
Definition mixedPickReverse : PickGame.State :=
  PickGame.mkState sampleWorld "あ" "a" [] 0
    (SmartReverseMode.mkState true 0)
    (ProgressiveDifficulty.initial PickGame.difficultyConfig).

(** A pool of two kana. *)
Definition tinyEnv : Env :=
  mkEnv ["あ"; "い"] ["a"; "i"] sampleTuning samplePolicy.

(** A word of the pool with a shared romanization, whose answer asks for
    the tile "a" twice. *)
Definition mixedWord : WordBuildingGame.State :=
  WordBuildingGame.mkState sampleWorld
    (WordBuildingGame.mkWordData ["あ"; "ア"; "い"]
       [Some "a"; Some "a"; Some "i"] [Some "a"; Some "i"; Some "a"])
    [] false WordBuildingGame.check 0 SmartReverseMode.initial.

(** The sample word after a check that was judged wrong. *)
Definition sampleWordWrong : WordBuildingGame.State :=
  WordBuildingGame.mkState sampleWorld
    (WordBuildingGame.wordData sampleWord) ["e"; "i"; "a"] true
    WordBuildingGame.wrong 0 SmartReverseMode.initial.

(** The sample word with its answer placed in order. *)
Definition sampleWordSolved : WordBuildingGame.State :=
  WordBuildingGame.mkState sampleWorld
    (WordBuildingGame.wordData sampleWord) ["i"; "e"; "a"] false
    WordBuildingGame.check 0 SmartReverseMode.initial.

(** * Properties *)

(** ** The handler monad *)

Section MonadLaws.
Context {S : Type}.

Lemma bind_ok {A B : Type} (m : M S A) (f : A -> M S B) (s s' : S) (a : A) :
  m s = (Ok a, s') -> (m ≫= f) s = f a s'.
Proof. intros H. unfold mbind, M_bind. now rewrite H. Qed.

Lemma bind_err {A B : Type} (m : M S A) (f : A -> M S B) (s s' : S) e :
  m s = (Err e, s') -> (m ≫= f) s = (Err e, s').
Proof. intros H. unfold mbind, M_bind. now rewrite H. Qed.

Lemma bind_modify {B : Type} (g : S -> S) (f : unit -> M S B) (s : S) :
  (modify g ≫= f) s = f tt (g s).
Proof. reflexivity. Qed.

Lemma bind_gets {A B : Type} (g : S -> A) (f : A -> M S B) (s : S) :
  (gets g ≫= f) s = f (g s) s.
Proof. reflexivity. Qed.

End MonadLaws.

(** ** Progressive difficulty *)

Section Difficulty.
Import ProgressiveDifficulty.
Variable c : Config.
Hypothesis ordered : minOptions c <= maxOptions c.

Lemma initial_inBounds : inBounds c (initial c).
Proof. unfold inBounds, initial; simpl; lia. Qed.

Lemma recordCorrect_inBounds s :
  inBounds c s -> inBounds c (recordCorrect c s).
Proof.
  unfold inBounds, recordCorrect; simpl.
  destruct (_ =? 0); lia.
Qed.

Lemma recordWrong_inBounds s :
  inBounds c s -> inBounds c (recordWrong c s).
Proof.
  unfold inBounds, recordWrong.
  destruct (_ <=? _); simpl; lia.
Qed.

Lemma step_inBounds s k : inBounds c s -> inBounds c (step c s k).
Proof.
  destruct k; [apply recordCorrect_inBounds | apply recordWrong_inBounds].
Qed.

Lemma trace_inBounds calls : forall s,
  inBounds c s -> Forall (inBounds c) (trace c calls s).
Proof.
  induction calls as [|k calls IH]; intros s Hs; simpl.
  - constructor.
  - constructor; [|apply IH]; now apply step_inBounds.
Qed.

Lemma run_inBounds calls : forall s,
  inBounds c s -> inBounds c (run c calls s).
Proof.
  unfold run.
  induction calls as [|k calls IH]; intros s Hs; simpl; [done|].
  apply IH. now apply step_inBounds.
Qed.

End Difficulty.

(** C3. Starting from the initial state of a configuration with
    [minOptions <= maxOptions], the option count lies in
    [[minOptions, maxOptions]] initially, after every call of any finite
    sequence of [recordCorrect] and [recordWrong], and at its end. *)
Theorem optionCount_within_bounds
  (c : ProgressiveDifficulty.Config) (calls : list ProgressiveDifficulty.Call) :
  ProgressiveDifficulty.minOptions c <= ProgressiveDifficulty.maxOptions c ->
  Forall (ProgressiveDifficulty.inBounds c)
    (ProgressiveDifficulty.initial c
       :: ProgressiveDifficulty.trace c calls (ProgressiveDifficulty.initial c))
  /\ ProgressiveDifficulty.inBounds c
       (ProgressiveDifficulty.run c calls (ProgressiveDifficulty.initial c)).
Proof.
  intros Hord. split.
  - constructor.
    + now apply initial_inBounds.
    + apply trace_inBounds; [done|]. now apply initial_inBounds.
  - apply run_inBounds; [done|]. now apply initial_inBounds.
Qed.

(** Under the configuration of the pick game the bounds are 3 and 6, here
    on twelve correct answers followed by nine wrong ones. *)
Lemma optionCount_within_bounds_pick :
  3 <= 6
  /\ Forall (fun s => 3 <= ProgressiveDifficulty.optionCount s <= 6)
       (ProgressiveDifficulty.trace PickGame.difficultyConfig
          (replicate 12 ProgressiveDifficulty.CallCorrect
             ++ replicate 9 ProgressiveDifficulty.CallWrong)
          (ProgressiveDifficulty.initial PickGame.difficultyConfig)).
Proof.
  split; [lia|].
  destruct (optionCount_within_bounds PickGame.difficultyConfig
    (replicate 12 ProgressiveDifficulty.CallCorrect
       ++ replicate 9 ProgressiveDifficulty.CallWrong)) as [Hall _].
  - simpl. lia.
  - exact (Forall_inv_tail Hall).
Defined.

(** C7. With [minOptions = 3], [maxOptions = 6], [streakPerLevel = 5] and
    [wrongsToDecrease = 2], a fresh state has 3 options; four correct
    answers keep 3 and the fifth gives 4; one wrong answer then keeps 4 and
    the second gives 3 and leaves the wrong counter at 0. *)
Theorem scenario_five_correct_two_wrong :
  let c := ProgressiveDifficulty.mkConfig 3 6 5 2 in
  let fresh := ProgressiveDifficulty.initial c in
  let up := ProgressiveDifficulty.run c
              (replicate 5 ProgressiveDifficulty.CallCorrect) fresh in
  let down := ProgressiveDifficulty.run c
                (replicate 2 ProgressiveDifficulty.CallWrong) up in
  c = PickGame.difficultyConfig
  /\ ProgressiveDifficulty.optionCount fresh = 3
  /\ ProgressiveDifficulty.optionCount
       (ProgressiveDifficulty.run c
          (replicate 4 ProgressiveDifficulty.CallCorrect) fresh) = 3
  /\ ProgressiveDifficulty.optionCount up = 4
  /\ ProgressiveDifficulty.optionCount
       (ProgressiveDifficulty.recordWrong c up) = 4
  /\ ProgressiveDifficulty.optionCount down = 3
  /\ ProgressiveDifficulty.wrongCount down = 0.
Proof. vm_compute. repeat split. Qed.

(** ** The collaborators never throw on their own *)

Lemma draw_ok w :
  exists d w', Random.draw w = (Ok d, w') /\ weights w' = weights w.
Proof. unfold Random.draw. destruct (rng w); eauto. Qed.

Lemma bool_ok w :
  exists b w', Random.bool w = (Ok b, w') /\ weights w' = weights w.
Proof.
  unfold Random.bool.
  destruct (draw_ok w) as (d & w' & Hd & Hw).
  erewrite bind_ok by exact Hd. eauto.
Qed.

Lemma updateCharacterWeight_ok tu c b w :
  AdaptiveSelection.updateCharacterWeight tu c b w
  = (Ok tt,
     mkWorld (rng w)
       (<[c := mkCharacterWeight
                 (AdaptiveSelection.nextWeight tu
                    (AdaptiveSelection.weightOf (weights w) c) b)
                 (seen (AdaptiveSelection.entryOf (weights w) c))]>
          (weights w))).
Proof. reflexivity. Qed.

Lemma markCharacterSeen_ok c w :
  AdaptiveSelection.markCharacterSeen c w
  = (Ok tt,
     mkWorld (rng w)
       (<[c := mkCharacterWeight
                 (AdaptiveSelection.weightOf (weights w) c) true]>
          (weights w))).
Proof. reflexivity. Qed.

Lemma updateWeights_ok tu cs b : forall w,
  exists t, WordBuildingGame.updateWeights tu cs b w
            = (Ok tt, mkWorld (rng w) t).
Proof.
  induction cs as [|c cs IH]; intros w; simpl.
  - exists (weights w). now destruct w.
  - erewrite bind_ok by apply updateCharacterWeight_ok.
    destruct (IH (mkWorld (rng w)
      (<[c := mkCharacterWeight
                (AdaptiveSelection.nextWeight tu
                   (AdaptiveSelection.weightOf (weights w) c) b)
                (seen (AdaptiveSelection.entryOf (weights w) c))]>
         (weights w)))) as [t Ht].
    exists t. exact Ht.
Qed.

Lemma decideNextMode_ok pol m w :
  exists d w',
    SmartReverseMode.decideNextMode pol m w
    = (Ok (SmartReverseMode.mkState
             (pol (SmartReverseMode.consecutiveCorrect m + 1)
                  (SmartReverseMode.isReverse m) d)
             (SmartReverseMode.consecutiveCorrect m + 1)), w')
    /\ weights w' = weights w.
Proof.
  unfold SmartReverseMode.decideNextMode.
  destruct (draw_ok w) as (d & w' & Hd & Hw).
  exists d, w'. split; [|done]. erewrite bind_ok by exact Hd. reflexivity.
Qed.

(** ** WordBuildingGame: what the handlers leave behind *)

Section WordBuildingHandlers.
Import WordBuildingGame.
Variable env : Env.
Variable props : Props.

Lemma wb_inWorld_ok {A : Type} (m : M World A) (s : State) (a : A) w' :
  m (world s) = (Ok a, w') -> inWorld m s = (Ok a, setWorld w' s).
Proof. intros H. unfold inWorld, zoom. now rewrite H. Qed.

Lemma wb_inWorld_frame {A : Type} (m : M World A) (s : State) :
  exists w', snd (inWorld m s) = setWorld w' s.
Proof.
  unfold inWorld, zoom. destruct (m (world s)) as [r w']. now exists w'.
Qed.

Lemma handleCheck_empty s :
  placedTiles s = [] -> handleCheck env props s = (Ok tt, s).
Proof. intros H. unfold handleCheck. now rewrite bind_gets, H. Qed.

Lemma handleCheck_wrong s t ts :
  placedTiles s = t :: ts ->
  isCorrect (placedTiles s) (answerChars (wordData s)) = false ->
  exists w',
    handleCheck env props s
    = (Ok tt,
       mkState w' (wordData s) (placedTiles s) true wrong
         (if 0 <=? score s - 1 then score s - 1 else score s)
         (match externalIsReverse props with
          | None => SmartReverseMode.recordWrongAnswer (reverseMode s)
          | Some _ => reverseMode s
          end)).
Proof.
  intros Hp Hc. unfold handleCheck.
  rewrite bind_gets, Hp, bind_modify, <- Hp, Hc.
  destruct (updateWeights_ok (tuning env) (wordChars (wordData s)) false
              (world s)) as [t' Ht'].
  erewrite bind_ok by (apply wb_inWorld_ok; exact Ht').
  exists (mkWorld (rng (world s)) t').
  destruct (0 <=? score s - 1), (externalIsReverse props); reflexivity.
Qed.

Lemma handleCheck_correct s t ts :
  placedTiles s = t :: ts ->
  isCorrect (placedTiles s) (answerChars (wordData s)) = true ->
  exists w' mode',
    handleCheck env props s
    = (Ok tt,
       mkState w' (wordData s) (placedTiles s) true correct
         (score s + Z.of_nat (length (wordChars (wordData s)))) mode')
    /\ (forall b, externalIsReverse props = Some b -> mode' = reverseMode s).
Proof.
  intros Hp Hc. unfold handleCheck.
  rewrite bind_gets, Hp, bind_modify, <- Hp, Hc.
  destruct (updateWeights_ok (tuning env) (wordChars (wordData s)) true
              (world s)) as [t' Ht'].
  erewrite bind_ok by (apply wb_inWorld_ok; exact Ht').
  rewrite !bind_modify.
  destruct (externalIsReverse props) as [b|].
  - exists (mkWorld (rng (world s)) t'), (reverseMode s). split; [done|].
    reflexivity.
  - rewrite bind_gets.
    destruct (decideNextMode_ok (policy env) (reverseMode s)
                (mkWorld (rng (world s)) t')) as (d & w' & Hd & _).
    erewrite bind_ok by (apply wb_inWorld_ok; exact Hd).
    eexists w', _. split; [reflexivity|]. intros b Hb; discriminate.
Qed.

Lemma handleTryAgain_spec s :
  handleTryAgain s
  = (Ok tt,
     mkState (world s) (wordData s) [] false check (score s) (reverseMode s)).
Proof. reflexivity. Qed.

Lemma handleTileClick_frame char s :
  exists placed,
    handleTileClick char s
    = (Ok tt, mkState (world s) (wordData s) placed (isChecking s)
                (bottomBarState s) (score s) (reverseMode s)).
Proof.
  unfold handleTileClick. rewrite bind_gets.
  destruct (isChecking s) eqn:Hchk.
  - exists (placedTiles s). destruct s; simpl in *; now subst.
  - destruct (Js.includes (placedTiles s) char);
      eexists; unfold modify, setPlacedTiles; simpl; rewrite Hchk;
      reflexivity.
Qed.

Lemma handleClearPlaced_frame s :
  exists placed,
    handleClearPlaced s
    = (Ok tt, mkState (world s) (wordData s) placed (isChecking s)
                (bottomBarState s) (score s) (reverseMode s)).
Proof.
  unfold handleClearPlaced. rewrite bind_gets.
  destruct (isChecking s) eqn:Hchk.
  - exists (placedTiles s). destruct s; simpl in *; now subst.
  - eexists; unfold modify, setPlacedTiles; simpl; rewrite Hchk; reflexivity.
Qed.

End WordBuildingHandlers.

Section WordBuildingSteps.
Import WordBuildingGame.
Variable env : Env.
Variable props : Props.

Lemma resetGame_frame s :
  score (snd (resetGame env props s)) = score s
  /\ reverseMode (snd (resetGame env props s)) = reverseMode s.
Proof.
  unfold resetGame. rewrite bind_gets.
  destruct (wb_inWorld_frame (generateWord env props (isReverse props s)) s)
    as [w' Hw'].
  destruct (inWorld (generateWord env props (isReverse props s)) s)
    as [[d|e] s1] eqn:E; simpl in Hw'; subst s1.
  - erewrite bind_ok by exact E. now rewrite !bind_modify.
  - erewrite bind_err by exact E. done.
Qed.

Lemma commitEffects_frame before s :
  score (snd (commitEffects env props before s)) = score s
  /\ reverseMode (snd (commitEffects env props before s)) = reverseMode s.
Proof.
  unfold commitEffects. rewrite bind_gets.
  destruct (Bool.eqb _ _); [done|]. apply resetGame_frame.
Qed.

Lemma commitEffects_stable s :
  commitEffects env props (isReverse props s) s = (Ok tt, s).
Proof.
  unfold commitEffects. rewrite bind_gets.
  now rewrite Bool.eqb_reflx.
Qed.

(** A handler that leaves the orientation alone triggers no effect. *)
Lemma step_stable e s s1 :
  dispatch env props e s = (Ok tt, s1) ->
  isReverse props s1 = isReverse props s ->
  step env props e s = (Ok tt, s1).
Proof.
  intros Hd Hr. unfold step. rewrite bind_gets.
  erewrite bind_ok by exact Hd. rewrite <- Hr. apply commitEffects_stable.
Qed.

Lemma step_snd e s :
  snd (step env props e s) = snd (dispatch env props e s)
  \/ snd (step env props e s)
     = snd (commitEffects env props (isReverse props s)
              (snd (dispatch env props e s))).
Proof.
  unfold step. rewrite bind_gets.
  destruct (dispatch env props e s) as [[[]|err] s1] eqn:E.
  - erewrite bind_ok by exact E. now right.
  - erewrite bind_err by exact E. now left.
Qed.

(** Every handler keeps a score that is not negative that way. *)
Lemma dispatch_score e s :
  0 <= score s -> 0 <= score (snd (dispatch env props e s)).
Proof.
  intros Hs. unfold dispatch. rewrite bind_gets.
  destruct e as [| |char].
  - destruct (bottomBarState s).
    + destruct (placedTiles s) as [|t ts] eqn:Hp.
      * now rewrite handleCheck_empty.
      * destruct (isCorrect (placedTiles s) (answerChars (wordData s)))
          eqn:Hc.
        -- destruct (handleCheck_correct env props s t ts Hp Hc)
             as (w' & mode' & -> & _).
           simpl. lia.
        -- destruct (handleCheck_wrong env props s t ts Hp Hc) as [w' ->].
           simpl. destruct (0 <=? score s - 1) eqn:Hle; lia.
    + unfold handleContinue. now rewrite (proj1 (resetGame_frame s)).
    + now rewrite handleTryAgain_spec.
  - destruct (bottomBarState s); try done.
    destruct (handleClearPlaced_frame s) as [p ->]. done.
  - destruct (handleTileClick_frame char s) as [p ->]. done.
Qed.

Lemma step_score e s :
  0 <= score s -> 0 <= score (snd (step env props e s)).
Proof.
  intros Hs. destruct (step_snd e s) as [-> | ->].
  - now apply dispatch_score.
  - rewrite (proj1 (commitEffects_frame _ _)). now apply dispatch_score.
Qed.

Lemma run_score es : forall s,
  0 <= score s -> 0 <= score (run env props es s).
Proof.
  unfold run. induction es as [|e es IH]; intros s Hs; simpl; [done|].
  apply IH. now apply step_score.
Qed.

(** A check that is judged wrong, as one event. *)
Lemma step_wrong_check s t ts :
  bottomBarState s = check ->
  placedTiles s = t :: ts ->
  isCorrect (placedTiles s) (answerChars (wordData s)) = false ->
  exists w',
    step env props ClickMainButton s
    = (Ok tt,
       mkState w' (wordData s) (placedTiles s) true wrong
         (if 0 <=? score s - 1 then score s - 1 else score s)
         (match externalIsReverse props with
          | None => SmartReverseMode.recordWrongAnswer (reverseMode s)
          | Some _ => reverseMode s
          end)).
Proof.
  intros Hb Hp Hc.
  destruct (handleCheck_wrong env props s t ts Hp Hc) as [w' Hw'].
  exists w'. apply step_stable.
  - unfold dispatch. now rewrite bind_gets, Hb.
  - unfold isReverse. now destruct (externalIsReverse props).
Qed.

(** As long as no check is judged correct, an event keeps the word and
    never shows the continue button. *)
Lemma step_keeps_word e s :
  bottomBarState s <> correct ->
  isCorrectCheck e s = false ->
  exists s',
    step env props e s = (Ok tt, s')
    /\ wordData s' = wordData s
    /\ bottomBarState s' <> correct.
Proof.
  intros Hb Hc. destruct e as [| |char].
  - destruct (bottomBarState s) eqn:Hbs; [| done |].
    + destruct (placedTiles s) as [|t ts] eqn:Hp.
      * exists s. split; [|split; [done|congruence]].
        apply step_stable; [|done].
        unfold dispatch. rewrite bind_gets, Hbs. now apply handleCheck_empty.
      * unfold isCorrectCheck in Hc. rewrite Hbs, Hp, <- Hp in Hc.
        destruct (step_wrong_check s t ts Hbs Hp Hc) as [w' ->].
        eexists. split; [reflexivity|]. done.
    + eexists. split; [|split].
      * apply step_stable;
          [unfold dispatch; rewrite bind_gets, Hbs; apply handleTryAgain_spec
          |reflexivity].
      * done.
      * done.
  - destruct (handleClearPlaced_frame s) as [p Hp].
    destruct (bottomBarState s) eqn:Hbs; [| done |].
    + eexists. split; [|split].
      * apply step_stable;
          [unfold dispatch; rewrite bind_gets, Hbs; exact Hp|reflexivity].
      * done.
      * simpl. congruence.
    + exists s. split; [|split; [done|congruence]].
      apply step_stable; [|done].
      unfold dispatch. now rewrite bind_gets, Hbs.
  - destruct (handleTileClick_frame char s) as [p Hp].
    eexists. split; [|split].
    + apply step_stable;
        [unfold dispatch; rewrite bind_gets; exact Hp|reflexivity].
    + done.
    + done.
Qed.

Lemma run_keeps_word es : forall s,
  bottomBarState s <> correct ->
  noCorrectCheck env props es s = true ->
  wordData (run env props es s) = wordData s
  /\ bottomBarState (run env props es s) <> correct.
Proof.
  unfold run. induction es as [|e es IH]; intros s Hb Hn; simpl; [done|].
  simpl in Hn. apply andb_prop in Hn as [Hc Hn].
  apply negb_true_iff in Hc.
  destruct (step_keeps_word e s Hb Hc) as (s' & Hs' & Hw & Hb').
  rewrite Hs' in *. simpl in *.
  destruct (IH s' Hb' Hn) as [IH1 IH2]. split; [congruence|done].
Qed.

End WordBuildingSteps.

(** ** PickGame: what the handlers leave behind *)

Section PickHandlers.
Import PickGame.
Variable env : Env.

Lemma pick_inWorld_ok {A : Type} (m : M World A) (s : State) (a : A) w' :
  m (world s) = (Ok a, w') -> inWorld m s = (Ok a, setWorld w' s).
Proof. intros H. unfold inWorld, zoom. now rewrite H. Qed.

Lemma pick_inWorld_frame {A : Type} (m : M World A) (s : State) :
  exists w', snd (inWorld m s) = setWorld w' s.
Proof.
  unfold inWorld, zoom. destruct (m (world s)) as [r w']. now exists w'.
Qed.

Lemma handleWrongAnswer_spec r selectedChar s :
  exists w',
    handleWrongAnswer env r selectedChar s
    = (Ok tt,
       mkState w' (correctKanaChar s) (correctRomajiCharReverse s)
         (wrongSelectedAnswers r ++ [selectedChar])
         (if score r - 1 <? 0 then 0 else score r - 1)
         (SmartReverseMode.recordWrongAnswer (reverseMode s))
         (ProgressiveDifficulty.recordWrong difficultyConfig (difficulty s))).
Proof.
  unfold handleWrongAnswer. rewrite bind_modify.
  destruct (score r - 1 <? 0); rewrite bind_modify;
    (erewrite bind_ok
       by (apply pick_inWorld_ok; apply updateCharacterWeight_ok));
    eexists; reflexivity.
Qed.

Lemma handleCorrectAnswer_spec r correctChar s :
  exists w' mode',
    handleCorrectAnswer env r correctChar s
    = (Ok tt,
       mkState w' (correctKanaChar s) (correctRomajiCharReverse s) []
         (score r + 1) mode'
         (ProgressiveDifficulty.recordCorrect difficultyConfig
            (difficulty s))).
Proof.
  unfold handleCorrectAnswer. rewrite !bind_modify.
  erewrite bind_ok by (apply pick_inWorld_ok; apply updateCharacterWeight_ok).
  rewrite bind_gets.
  match goal with
  | |- exists _ _,
         (inWorld (SmartReverseMode.decideNextMode ?p ?m) ≫= _) ?st = _ =>
      destruct (decideNextMode_ok p m (world st)) as (d & w' & Hd & _)
  end.
  erewrite bind_ok by (apply pick_inWorld_ok; exact Hd).
  rewrite bind_modify. eexists _, _. reflexivity.
Qed.

Lemma handleOptionClick_wrong selectedChar s :
  isRightOption env s selectedChar = false ->
  handleOptionClick env selectedChar s
  = handleWrongAnswer env s selectedChar s.
Proof.
  intros H. unfold handleOptionClick. rewrite bind_gets, H.
  now destruct (negb _).
Qed.

Lemma handleOptionClick_right selectedChar s :
  isRightOption env s selectedChar = true ->
  score (snd (handleOptionClick env selectedChar s)) = score s + 1.
Proof.
  intros H. unfold handleOptionClick. rewrite bind_gets, H.
  destruct (negb _).
  - destruct (handleCorrectAnswer_spec s (correctKanaChar s) s)
      as (w1 & mode1 & H1).
    erewrite bind_ok by exact H1.
    match goal with
    | |- context [(inWorld ?m ≫= _) ?st] =>
        destruct (pick_inWorld_frame m st) as [w2 H2];
        destruct (inWorld m st) as [[c|e] s2] eqn:E; simpl in H2; subst s2
    end.
    + erewrite bind_ok by exact E.
      erewrite bind_ok
        by (apply pick_inWorld_ok; apply markCharacterSeen_ok).
      reflexivity.
    + erewrite bind_err by exact E. reflexivity.
  - destruct (handleCorrectAnswer_spec s (correctRomajiCharReverse s) s)
      as (w1 & mode1 & H1).
    erewrite bind_ok by exact H1.
    match goal with
    | |- context [(inWorld ?m ≫= _) ?st] =>
        destruct (pick_inWorld_frame m st) as [w2 H2];
        destruct (inWorld m st) as [[c|e] s2] eqn:E; simpl in H2; subst s2
    end.
    + erewrite bind_ok by exact E.
      erewrite bind_ok
        by (apply pick_inWorld_ok; apply markCharacterSeen_ok).
      reflexivity.
    + erewrite bind_err by exact E. reflexivity.
Qed.

Lemma handleOptionClick_score selectedChar s :
  0 <= score s -> 0 <= score (snd (handleOptionClick env selectedChar s)).
Proof.
  intros Hs. destruct (isRightOption env s selectedChar) eqn:H.
  - rewrite handleOptionClick_right by done. lia.
  - rewrite handleOptionClick_wrong by done.
    destruct (handleWrongAnswer_spec s selectedChar s) as [w' ->].
    simpl. destruct (score s - 1 <? 0) eqn:Hlt; lia.
Qed.

Lemma clicks_score cs : forall s,
  0 <= score s -> 0 <= score (clicks env cs s).
Proof.
  unfold clicks. induction cs as [|c cs IH]; intros s Hs; simpl; [done|].
  apply IH. now apply handleOptionClick_score.
Qed.

End PickHandlers.

(** ** The verdict of the word-building game *)

Lemma strictEq_Some_true x (v : option string) :
  Js.strictEq (Some x) v = true <-> v = Some x.
Proof.
  destruct v as [y|]; simpl.
  - rewrite String.eqb_eq. split; congruence.
  - split; discriminate.
Qed.

Lemma every_from_spec (answer : list (option string)) placed : forall i,
  forallb (fun b : bool => b)
    (Js.mapi_from i
       (fun tile k => Js.strictEq (Some tile) (default None (answer !! k)))
       placed) = true
  <-> forall j tile, placed !! j = Some tile ->
        default None (answer !! (i + j)%nat) = Some tile.
Proof.
  induction placed as [|x placed IH]; intros i; cbn [forallb Js.mapi_from].
  - split; [intros _ j tile H; now rewrite lookup_nil in H|done].
  - rewrite andb_true_iff, strictEq_Some_true, IH. split.
    + intros [H0 H] [|j] tile Hj; simpl in Hj.
      * injection Hj as <-. now rewrite Nat.add_0_r.
      * rewrite Nat.add_succ_r. now apply H.
    + intros H. split.
      * specialize (H 0%nat x eq_refl). now rewrite Nat.add_0_r in H.
      * intros j tile Hj. specialize (H (S j) tile Hj).
        now rewrite Nat.add_succ_r in H.
Qed.

Lemma isCorrect_spec placed answer :
  WordBuildingGame.isCorrect placed answer = true <-> answer = Some <$> placed.
Proof.
  unfold WordBuildingGame.isCorrect, Js.every, Js.mapi.
  rewrite andb_true_iff, Nat.eqb_eq, every_from_spec. split.
  - intros [Hlen H]. apply list_eq. intros j.
    rewrite list_lookup_fmap.
    destruct (placed !! j) as [tile|] eqn:Hj; simpl.
    + specialize (H j tile Hj). simpl in H.
      destruct (answer !! j) as [v|] eqn:Ha; simpl in H; [congruence|].
      apply lookup_lt_Some in Hj. apply lookup_ge_None in Ha. lia.
    + apply lookup_ge_None. apply lookup_ge_None in Hj. lia.
  - intros ->. split; [now rewrite length_fmap|].
    intros j tile Hj. simpl. now rewrite list_lookup_fmap, Hj.
Qed.

Lemma isCorrect_false placed answer :
  answer <> Some <$> placed -> WordBuildingGame.isCorrect placed answer = false.
Proof.
  intros H. apply not_true_is_false. now rewrite isCorrect_spec.
Qed.

(** C10. The test of [handleCheck] holds exactly when the placed tiles
    have the length of [answerChars] and agree with it index by index,
    that is, when the two sequences are equal. So a reordering of the
    answer that differs from it, a strict prefix of it and an extension of
    it all fail the test; and a check with tiles placed shows the correct
    bar in the first case and the wrong bar otherwise. *)
Theorem check_judges_exact_sequence
  (env : Env) (props : WordBuildingGame.Props)
  (placed : list string) (answer : list (option string)) :
  (WordBuildingGame.isCorrect placed answer = true
   <-> length placed = length answer
       /\ forall i tile, placed !! i = Some tile ->
            answer !! i = Some (Some tile))
  /\ (WordBuildingGame.isCorrect placed answer = true
      <-> answer = Some <$> placed)
  /\ (Some <$> placed ≡ₚ answer -> Some <$> placed <> answer ->
      WordBuildingGame.isCorrect placed answer = false)
  /\ (forall rest, rest <> [] -> answer = (Some <$> placed) ++ rest ->
      WordBuildingGame.isCorrect placed answer = false)
  /\ (forall extra, extra <> [] -> Some <$> placed = answer ++ extra ->
      WordBuildingGame.isCorrect placed answer = false)
  /\ (forall s : WordBuildingGame.State,
        WordBuildingGame.placedTiles s = placed ->
        WordBuildingGame.answerChars (WordBuildingGame.wordData s) = answer ->
        placed <> [] ->
        WordBuildingGame.bottomBarState
          (snd (WordBuildingGame.handleCheck env props s))
        = if WordBuildingGame.isCorrect placed answer
          then WordBuildingGame.correct else WordBuildingGame.wrong).
Proof.
  split; [|split; [|split; [|split; [|split]]]].
  - rewrite isCorrect_spec. split.
    + intros ->. split; [now rewrite length_fmap|].
      intros i tile Hi. now rewrite list_lookup_fmap, Hi.
    + intros [Hlen H]. apply list_eq. intros i. rewrite list_lookup_fmap.
      destruct (placed !! i) as [tile|] eqn:Hi; simpl.
      * now apply H.
      * apply lookup_ge_None. apply lookup_ge_None in Hi. lia.
  - apply isCorrect_spec.
  - intros _ Hne. apply isCorrect_false. congruence.
  - intros rest Hrest ->. apply isCorrect_false. intros Heq.
    apply Hrest. apply (f_equal length) in Heq.
    rewrite length_app in Heq. destruct rest; [done|simpl in Heq; lia].
  - intros extra Hextra Heq. apply isCorrect_false. intros ->.
    apply Hextra. apply (f_equal length) in Heq.
    rewrite length_app in Heq. destruct extra; [done|simpl in Heq; lia].
  - intros s Hp Ha Hne. subst placed answer.
    destruct (WordBuildingGame.placedTiles s) as [|t ts] eqn:Hp; [done|].
    rewrite <- Hp.
    destruct (WordBuildingGame.isCorrect _ _) eqn:Hc.
    + destruct (handleCheck_correct env props s t ts Hp Hc)
        as (w' & mode' & -> & _).
      reflexivity.
    + destruct (handleCheck_wrong env props s t ts Hp Hc) as [w' ->].
      reflexivity.
Qed.

(** The sample word is "i e a"; the tiles placed are "e i a", a reordering,
    and the check shows the wrong bar. *)
Lemma check_judges_exact_sequence_sample :
  (Some <$> ["e"; "i"; "a"] ≡ₚ [Some "i"; Some "e"; Some "a"])
  /\ (Some <$> ["e"; "i"; "a"] <> [Some "i"; Some "e"; Some "a"])
  /\ ["e"; "i"; "a"] <> []
  /\ WordBuildingGame.isCorrect ["e"; "i"; "a"]
       [Some "i"; Some "e"; Some "a"] = false
  /\ WordBuildingGame.bottomBarState
       (snd (WordBuildingGame.handleCheck sampleEnv sampleProps sampleWord))
     = WordBuildingGame.wrong.
Proof.
  pose proof (check_judges_exact_sequence sampleEnv sampleProps
                ["e"; "i"; "a"] [Some "i"; Some "e"; Some "a"])
    as (_ & _ & Hperm & _ & _ & Hbar).
  assert (Hp : Some <$> ["e"; "i"; "a"] ≡ₚ [Some "i"; Some "e"; Some "a"])
    by apply perm_swap.
  assert (Hne : Some <$> ["e"; "i"; "a"] <> [Some "i"; Some "e"; Some "a"])
    by discriminate.
  assert (Hnil : ["e"; "i"; "a"] <> []) by discriminate.
  split; [exact Hp|]. split; [exact Hne|]. split; [exact Hnil|].
  split; [exact (Hperm Hp Hne)|].
  rewrite (Hbar sampleWord eq_refl eq_refl Hnil).
  now rewrite (Hperm Hp Hne).
Defined.

(** ** Wrong answers *)

(** C8. In the word-building game a check that is judged wrong leaves
    [wordData] (the word, its answer and the tiles) and the placed tiles as
    they were and shows the wrong bar; the try-again button then only
    empties the placed tiles and reopens checking; and over any sequence
    of events that holds no check judged correct, the word stays the
    same. *)
Theorem wrong_check_keeps_word
  (env : Env) (props : WordBuildingGame.Props) (s : WordBuildingGame.State)
  (es : list WordBuildingGame.Event) :
  WordBuildingGame.bottomBarState s = WordBuildingGame.check ->
  (WordBuildingGame.placedTiles s <> [] ->
   WordBuildingGame.isCorrect (WordBuildingGame.placedTiles s)
     (WordBuildingGame.answerChars (WordBuildingGame.wordData s)) = false ->
   exists s',
     WordBuildingGame.step env props WordBuildingGame.ClickMainButton s
     = (Ok tt, s')
     /\ WordBuildingGame.wordData s' = WordBuildingGame.wordData s
     /\ WordBuildingGame.placedTiles s' = WordBuildingGame.placedTiles s
     /\ WordBuildingGame.bottomBarState s' = WordBuildingGame.wrong
     /\ WordBuildingGame.step env props WordBuildingGame.ClickMainButton s'
        = (Ok tt,
           WordBuildingGame.mkState (WordBuildingGame.world s')
             (WordBuildingGame.wordData s) [] false WordBuildingGame.check
             (WordBuildingGame.score s') (WordBuildingGame.reverseMode s')))
  /\ (WordBuildingGame.noCorrectCheck env props es s = true ->
      WordBuildingGame.wordData (WordBuildingGame.run env props es s)
      = WordBuildingGame.wordData s).
Proof.
  intros Hb. split.
  - intros Hne Hc.
    destruct (WordBuildingGame.placedTiles s) as [|t ts] eqn:Hp; [done|].
    rewrite <- Hp in *.
    destruct (step_wrong_check env props s t ts Hb Hp Hc) as [w' Hs'].
    eexists. split; [exact Hs'|]. repeat split.
    apply step_stable; [|reflexivity].
    unfold WordBuildingGame.dispatch. rewrite bind_gets. reflexivity.
  - intros Hn. apply run_keeps_word; [|done]. now rewrite Hb.
Qed.

(** On the sample word with the tiles "e i a" placed: the check is wrong,
    then come try again, two tiles and another wrong check. *)
Lemma wrong_check_keeps_word_sample :
  WordBuildingGame.bottomBarState sampleWord = WordBuildingGame.check
  /\ WordBuildingGame.placedTiles sampleWord <> []
  /\ WordBuildingGame.isCorrect (WordBuildingGame.placedTiles sampleWord)
       (WordBuildingGame.answerChars (WordBuildingGame.wordData sampleWord))
     = false
  /\ WordBuildingGame.wordData
       (WordBuildingGame.run sampleEnv sampleProps
          [WordBuildingGame.ClickMainButton;
           WordBuildingGame.ClickMainButton;
           WordBuildingGame.ClickTile "i";
           WordBuildingGame.ClickTile "a";
           WordBuildingGame.ClickMainButton]
          sampleWord)
     = WordBuildingGame.wordData sampleWord.
Proof.
  split; [reflexivity|]. split; [discriminate|]. split; [reflexivity|].
  apply (wrong_check_keeps_word sampleEnv sampleProps sampleWord).
  - reflexivity.
  - vm_compute. reflexivity.
Defined.

(** C9. Neither game lets the score go below zero. From a score that is
    not negative, a wrong pick and a wrong check both leave the score
    minus one when that is not negative and 0 otherwise; and after any
    sequence of clicks in the pick game, and any sequence of events in the
    word-building game, the score is still not negative. *)
Theorem score_never_negative
  (env : Env) (props : WordBuildingGame.Props)
  (pick : PickGame.State) (word : WordBuildingGame.State)
  (clicks : list string) (events : list WordBuildingGame.Event) :
  0 <= PickGame.score pick ->
  0 <= WordBuildingGame.score word ->
  (forall selectedChar,
     PickGame.isRightOption env pick selectedChar = false ->
     PickGame.score (snd (PickGame.handleOptionClick env selectedChar pick))
     = if 0 <=? PickGame.score pick - 1 then PickGame.score pick - 1 else 0)
  /\ (WordBuildingGame.bottomBarState word = WordBuildingGame.check ->
      WordBuildingGame.placedTiles word <> [] ->
      WordBuildingGame.isCorrect (WordBuildingGame.placedTiles word)
        (WordBuildingGame.answerChars (WordBuildingGame.wordData word))
      = false ->
      WordBuildingGame.score
        (snd (WordBuildingGame.step env props
                WordBuildingGame.ClickMainButton word))
      = if 0 <=? WordBuildingGame.score word - 1
        then WordBuildingGame.score word - 1 else 0)
  /\ 0 <= PickGame.score (PickGame.clicks env clicks pick)
  /\ 0 <= WordBuildingGame.score (WordBuildingGame.run env props events word).
Proof.
  intros Hpick Hword. split; [|split; [|split]].
  - intros selectedChar Hwrong.
    rewrite handleOptionClick_wrong by done.
    destruct (handleWrongAnswer_spec env pick selectedChar pick) as [w' ->].
    simpl. destruct (PickGame.score pick - 1 <? 0) eqn:Hlt,
      (0 <=? PickGame.score pick - 1) eqn:Hle; lia.
  - intros Hb Hne Hc.
    destruct (WordBuildingGame.placedTiles word) as [|t ts] eqn:Hp; [done|].
    rewrite <- Hp in *.
    destruct (step_wrong_check env props word t ts Hb Hp Hc) as [w' ->].
    simpl. destruct (0 <=? WordBuildingGame.score word - 1) eqn:Hle; lia.
  - now apply clicks_score.
  - now apply run_score.
Qed.

(** From score 0: a wrong click in the pick game and a wrong check in the
    word-building game leave 0. *)
Lemma score_never_negative_sample :
  0 <= PickGame.score samplePick
  /\ 0 <= WordBuildingGame.score sampleWord
  /\ PickGame.score (snd (PickGame.handleOptionClick sampleEnv "i" samplePick))
     = 0
  /\ WordBuildingGame.score
       (snd (WordBuildingGame.step sampleEnv sampleProps
               WordBuildingGame.ClickMainButton sampleWord)) = 0
  /\ 0 <= PickGame.score (PickGame.clicks sampleEnv ["i"; "a"; "u"] samplePick).
Proof.
  assert (H0 : 0 <= 0) by lia.
  destruct (score_never_negative sampleEnv sampleProps samplePick sampleWord
              ["i"; "a"; "u"] [] H0 H0) as (Hp & Hw & Hc & _).
  split; [exact H0|]. split; [exact H0|].
  split; [exact (Hp "i" eq_refl)|].
  split; [|exact Hc].
  apply Hw; [reflexivity|discriminate|reflexivity].
Defined.

(** C4. [recordWrongAnswer] keeps [isReverse] and sets
    [consecutiveCorrect] to 0. So does a wrong click in the pick game,
    which also keeps the characters of the question in flight; and a wrong
    check in the word-building game keeps its orientation. *)
Theorem wrong_answer_keeps_orientation
  (env : Env) (props : WordBuildingGame.Props)
  (mode : SmartReverseMode.ReverseModeState)
  (pick : PickGame.State) (word : WordBuildingGame.State) :
  (SmartReverseMode.isReverse (SmartReverseMode.recordWrongAnswer mode)
   = SmartReverseMode.isReverse mode
   /\ SmartReverseMode.consecutiveCorrect
        (SmartReverseMode.recordWrongAnswer mode) = 0)
  /\ (forall selectedChar,
        PickGame.isRightOption env pick selectedChar = false ->
        exists pick',
          PickGame.handleOptionClick env selectedChar pick = (Ok tt, pick')
          /\ PickGame.reverseMode pick'
             = SmartReverseMode.recordWrongAnswer (PickGame.reverseMode pick)
          /\ SmartReverseMode.isReverse (PickGame.reverseMode pick')
             = SmartReverseMode.isReverse (PickGame.reverseMode pick)
          /\ SmartReverseMode.consecutiveCorrect (PickGame.reverseMode pick')
             = 0
          /\ PickGame.correctKanaChar pick' = PickGame.correctKanaChar pick
          /\ PickGame.correctRomajiCharReverse pick'
             = PickGame.correctRomajiCharReverse pick)
  /\ (WordBuildingGame.bottomBarState word = WordBuildingGame.check ->
      WordBuildingGame.placedTiles word <> [] ->
      WordBuildingGame.isCorrect (WordBuildingGame.placedTiles word)
        (WordBuildingGame.answerChars (WordBuildingGame.wordData word))
      = false ->
      exists word',
        WordBuildingGame.step env props WordBuildingGame.ClickMainButton word
        = (Ok tt, word')
        /\ WordBuildingGame.isReverse props word'
           = WordBuildingGame.isReverse props word
        /\ (WordBuildingGame.externalIsReverse props = None ->
            WordBuildingGame.reverseMode word'
            = SmartReverseMode.recordWrongAnswer
                (WordBuildingGame.reverseMode word))).
Proof.
  split; [|split].
  - done.
  - intros selectedChar Hwrong.
    rewrite handleOptionClick_wrong by done.
    destruct (handleWrongAnswer_spec env pick selectedChar pick) as [w' ->].
    eexists. split; [reflexivity|]. done.
  - intros Hb Hne Hc.
    destruct (WordBuildingGame.placedTiles word) as [|t ts] eqn:Hp; [done|].
    rewrite <- Hp in *.
    destruct (step_wrong_check env props word t ts Hb Hp Hc) as [w' ->].
    eexists. split; [reflexivity|]. split.
    + unfold WordBuildingGame.isReverse. simpl.
      now destruct (WordBuildingGame.externalIsReverse props).
    + intros ->. reflexivity.
Qed.

(** A wrong click on "i" while "あ" is asked in forward orientation. *)
Lemma wrong_answer_keeps_orientation_sample :
  PickGame.isRightOption sampleEnv samplePick "i" = false
  /\ SmartReverseMode.isReverse
       (PickGame.reverseMode
          (snd (PickGame.handleOptionClick sampleEnv "i" samplePick)))
     = false
  /\ PickGame.correctKanaChar
       (snd (PickGame.handleOptionClick sampleEnv "i" samplePick)) = "あ".
Proof.
  destruct (wrong_answer_keeps_orientation sampleEnv sampleProps
              SmartReverseMode.initial samplePick sampleWord)
    as (_ & Hpick & _).
  destruct (Hpick "i" eq_refl) as (pick' & -> & _ & Hr & _ & Hk & _).
  split; [reflexivity|]. split; [exact Hr|exact Hk].
Defined.

(** ** The weight table *)

Section Weights.
Import AdaptiveSelection.
Variable tu : Tuning.
Hypothesis tuned : wellTuned tu.

Lemma decay_shrinks w : (0 < w)%Q -> (w * decay tu < w)%Q.
Proof. destruct tuned as (? & ? & ? & ? & ? & ?). intros. nra. Qed.

Lemma growth_grows w : (0 < w)%Q -> (w < w * growth tu)%Q.
Proof. destruct tuned as (? & ? & ? & ? & ? & ?). intros. nra. Qed.

Lemma nextWeight_correct w :
  (floor tu <= w <= ceiling tu)%Q ->
  (floor tu <= nextWeight tu w true <= ceiling tu)%Q
  /\ ((floor tu < w)%Q -> (nextWeight tu w true < w)%Q)
  /\ ((w == floor tu)%Q -> (nextWeight tu w true == floor tu)%Q).
Proof.
  intros [Hlo Hhi]. pose proof tuned as (Hf & Hf1 & Hc1 & Hd0 & Hd1 & Hg).
  assert (Hw : (0 < w)%Q) by lra.
  pose proof (decay_shrinks w Hw) as Hs.
  unfold nextWeight.
  destruct (Q.max_spec (floor tu) (w * decay tu)) as [[H1 H2]|[H1 H2]];
    rewrite H2; repeat split; intros; lra.
Qed.

Lemma nextWeight_wrong w :
  (floor tu <= w <= ceiling tu)%Q ->
  (floor tu <= nextWeight tu w false <= ceiling tu)%Q
  /\ ((w < ceiling tu)%Q -> (w < nextWeight tu w false)%Q)
  /\ ((w == ceiling tu)%Q -> (nextWeight tu w false == ceiling tu)%Q).
Proof.
  intros [Hlo Hhi]. pose proof tuned as (Hf & Hf1 & Hc1 & Hd0 & Hd1 & Hg).
  assert (Hw : (0 < w)%Q) by lra.
  pose proof (growth_grows w Hw) as Hs.
  unfold nextWeight.
  destruct (Q.min_spec (ceiling tu) (w * growth tu)) as [[H1 H2]|[H1 H2]];
    rewrite H2; repeat split; intros; lra.
Qed.

Lemma weightOf_updated c b w :
  weightOf (weights (snd (updateCharacterWeight tu c b w))) c
  = nextWeight tu (weightOf (weights w) c) b.
Proof.
  rewrite updateCharacterWeight_ok. simpl.
  unfold weightOf at 1, entryOf. now rewrite lookup_insert_eq.
Qed.

Lemma weightOf_other c c' b w :
  c <> c' ->
  weightOf (weights (snd (updateCharacterWeight tu c b w))) c'
  = weightOf (weights w) c'.
Proof.
  intros Hne. rewrite updateCharacterWeight_ok. simpl.
  unfold weightOf, entryOf. now rewrite lookup_insert_ne.
Qed.

Lemma weightOf_fresh c : (floor tu <= weightOf ∅ c <= ceiling tu)%Q.
Proof.
  destruct tuned as (? & ? & ? & ? & ? & ?).
  unfold weightOf, entryOf. rewrite lookup_empty. simpl. lra.
Qed.

End Weights.

(** C5. For well-tuned constants, a character [c] and a table in which the
    weight of [c] lies between the floor and the ceiling (as the default
    weight 1 of a character never met does): the floor is positive; after
    [updateCharacterWeight(c, true)] the weight of [c] is still within the
    bounds, strictly smaller if it was above the floor, and still the
    floor if it was the floor; after [updateCharacterWeight(c, false)] it
    is within the bounds, strictly larger if it was below the ceiling, and
    still the ceiling if it was the ceiling. The weights of the other
    characters are not touched. *)
Theorem weight_update_monotone_and_bounded
  (tu : AdaptiveSelection.Tuning) (c : string) (w : World) :
  AdaptiveSelection.wellTuned tu ->
  (AdaptiveSelection.floor tu <= AdaptiveSelection.weightOf (weights w) c
   <= AdaptiveSelection.ceiling tu)%Q ->
  let before := AdaptiveSelection.weightOf (weights w) c in
  let after wasCorrect :=
    AdaptiveSelection.weightOf
      (weights (snd (AdaptiveSelection.updateCharacterWeight tu c
                       wasCorrect w))) c in
  (0 < AdaptiveSelection.floor tu)%Q
  /\ (AdaptiveSelection.floor tu <= AdaptiveSelection.weightOf ∅ c
      <= AdaptiveSelection.ceiling tu)%Q
  /\ (AdaptiveSelection.floor tu <= after true
      <= AdaptiveSelection.ceiling tu)%Q
  /\ ((AdaptiveSelection.floor tu < before)%Q -> (after true < before)%Q)
  /\ ((before == AdaptiveSelection.floor tu)%Q ->
      (after true == AdaptiveSelection.floor tu)%Q)
  /\ (AdaptiveSelection.floor tu <= after false
      <= AdaptiveSelection.ceiling tu)%Q
  /\ ((before < AdaptiveSelection.ceiling tu)%Q -> (before < after false)%Q)
  /\ ((before == AdaptiveSelection.ceiling tu)%Q ->
      (after false == AdaptiveSelection.ceiling tu)%Q)
  /\ (forall wasCorrect c', c <> c' ->
        AdaptiveSelection.weightOf
          (weights (snd (AdaptiveSelection.updateCharacterWeight tu c
                           wasCorrect w))) c'
        = AdaptiveSelection.weightOf (weights w) c').
Proof.
  intros Htuned Hin before after. subst after. cbv beta.
  rewrite !weightOf_updated.
  destruct (nextWeight_correct tu Htuned _ Hin) as (Hc1 & Hc2 & Hc3).
  destruct (nextWeight_wrong tu Htuned _ Hin) as (Hw1 & Hw2 & Hw3).
  split; [apply Htuned|]. split; [now apply weightOf_fresh|].
  repeat split; try tauto.
  intros wasCorrect c' Hne. now apply weightOf_other.
Qed.

(** With the sample constants (floor 1/10, ceiling 10) a character never
    met has weight 1, which a correct answer lowers and a wrong one
    raises. *)
Lemma weight_update_monotone_and_bounded_sample :
  AdaptiveSelection.wellTuned sampleTuning
  /\ (AdaptiveSelection.floor sampleTuning
      <= AdaptiveSelection.weightOf (weights sampleWorld) "あ"
      <= AdaptiveSelection.ceiling sampleTuning)%Q
  /\ (AdaptiveSelection.weightOf
        (weights (snd (AdaptiveSelection.updateCharacterWeight sampleTuning
                         "あ" true sampleWorld))) "あ"
      < AdaptiveSelection.weightOf (weights sampleWorld) "あ")%Q
  /\ (AdaptiveSelection.weightOf (weights sampleWorld) "あ"
      < AdaptiveSelection.weightOf
          (weights (snd (AdaptiveSelection.updateCharacterWeight sampleTuning
                           "あ" false sampleWorld))) "あ")%Q.
Proof.
  assert (Ht : AdaptiveSelection.wellTuned sampleTuning)
    by (unfold AdaptiveSelection.wellTuned; simpl; lra).
  assert (Hin : (AdaptiveSelection.floor sampleTuning
                 <= AdaptiveSelection.weightOf (weights sampleWorld) "あ"
                 <= AdaptiveSelection.ceiling sampleTuning)%Q)
    by (vm_compute; split; discriminate).
  destruct (weight_update_monotone_and_bounded sampleTuning "あ" sampleWorld
              Ht Hin) as (_ & _ & _ & Hdown & _ & _ & Hup & _ & _).
  split; [exact Ht|]. split; [exact Hin|]. split.
  - apply Hdown. vm_compute. reflexivity.
  - apply Hup. vm_compute. reflexivity.
Defined.

(** ** Weighted selection *)

Section Selection.
Import AdaptiveSelection.

Lemma candidates_nil pool exclude : candidates pool exclude = [] <-> pool = [].
Proof.
  unfold candidates. destruct exclude as [x|]; [|done].
  destruct (filter _ pool) eqn:Hf; [done|]. split; [done|].
  intros ->. discriminate.
Qed.

Lemma candidates_elem pool exclude c :
  c ∈ candidates pool exclude -> c ∈ pool.
Proof.
  unfold candidates. destruct exclude as [x|]; [|done].
  destruct (filter _ pool) eqn:Hf; [done|].
  rewrite <- Hf. rewrite list_elem_of_filter. tauto.
Qed.

Lemma candidates_avoid pool x c :
  (exists y, y ∈ pool /\ y <> x) -> c ∈ candidates pool (Some x) -> c <> x.
Proof.
  intros (y & Hy & Hne). unfold candidates.
  destruct (filter _ pool) eqn:Hf.
  - assert (Hin : y ∈ filter (fun c => c <> x) pool)
      by (apply list_elem_of_filter; done).
    rewrite Hf in Hin. now apply not_elem_of_nil in Hin.
  - rewrite <- Hf. rewrite list_elem_of_filter. tauto.
Qed.

Lemma walk_elem t cs : forall target last,
  walk t target last cs = last \/ walk t target last cs ∈ cs.
Proof.
  induction cs as [|c cs IH]; intros target last; simpl; [now left|].
  destruct (Qlt_le_dec _ _).
  - right. apply list_elem_of_here.
  - destruct (IH (target - weightOf t c)%Q c) as [-> | H].
    + right. apply list_elem_of_here.
    + right. now apply list_elem_of_further.
Qed.

Lemma selectWeightedCharacter_empty exclude w :
  selectWeightedCharacter [] exclude w = (Err InvalidArgument, w).
Proof.
  unfold selectWeightedCharacter.
  now rewrite (proj2 (candidates_nil [] exclude) eq_refl).
Qed.

Lemma selectWeightedCharacter_ok pool exclude w :
  pool <> [] ->
  exists c w',
    selectWeightedCharacter pool exclude w = (Ok c, w')
    /\ c ∈ candidates pool exclude
    /\ weights w' = weights w.
Proof.
  intros Hne. unfold selectWeightedCharacter.
  destruct (candidates pool exclude) as [|c rest] eqn:Hc.
  - now apply candidates_nil in Hc.
  - destruct (draw_ok w) as (u & w' & Hu & Hw).
    unfold getWeights. rewrite bind_gets. erewrite bind_ok by exact Hu.
    eexists _, w'. split; [reflexivity|]. split; [|done].
    destruct (walk_elem (weights w) (c :: rest)
                (u * totalWeight (weights w) (c :: rest))%Q c) as [-> | H].
    + apply list_elem_of_here.
    + exact H.
Qed.

End Selection.

Lemma initialKanaChar_ok env w :
  exists c w', PickGame.initialKanaChar env w = (Ok c, w').
Proof.
  unfold PickGame.initialKanaChar.
  destruct (selectedKana env) as [|k ks] eqn:Hk; [by eexists _, _|].
  destruct (selectWeightedCharacter_ok (k :: ks) None w)
    as (c & w' & Hc & _); [done|].
  erewrite bind_ok by exact Hc.
  erewrite bind_ok by apply markCharacterSeen_ok.
  by eexists _, _.
Qed.

Lemma initialRomajiChar_ok env w :
  exists c w', PickGame.initialRomajiChar env w = (Ok c, w').
Proof.
  unfold PickGame.initialRomajiChar.
  destruct (selectedRomaji env) as [|k ks] eqn:Hk; [by eexists _, _|].
  destruct (selectWeightedCharacter_ok (k :: ks) None w)
    as (c & w' & Hc & _); [done|].
  erewrite bind_ok by exact Hc.
  erewrite bind_ok by apply markCharacterSeen_ok.
  by eexists _, _.
Qed.

(** C6. [selectWeightedCharacter] throws exactly on the empty pool, and
    what it throws is [InvalidArgument]. On a pool that is not empty it
    returns one character of the pool, other than the excluded one when
    the pool holds another, and leaves the weight table as it was. The
    initial selections of the pick game, which test for the empty pool
    first, never throw. *)
Theorem selectWeightedCharacter_fails_only_on_empty
  (pool : list string) (exclude : option string) (w : World) (env : Env) :
  ((exists e w',
      AdaptiveSelection.selectWeightedCharacter pool exclude w = (Err e, w'))
   <-> pool = [])
  /\ match AdaptiveSelection.selectWeightedCharacter pool exclude w with
     | (Err e, w') => e = InvalidArgument /\ pool = [] /\ w' = w
     | (Ok c, w') =>
         c ∈ pool
         /\ weights w' = weights w
         /\ (forall x, exclude = Some x ->
               (exists y, y ∈ pool /\ y <> x) -> c <> x)
     end
  /\ (exists c w', PickGame.initialKanaChar env w = (Ok c, w'))
  /\ (exists c w', PickGame.initialRomajiChar env w = (Ok c, w')).
Proof.
  assert (Hcases :
    match AdaptiveSelection.selectWeightedCharacter pool exclude w with
    | (Err e, w') => e = InvalidArgument /\ pool = [] /\ w' = w
    | (Ok c, w') =>
        c ∈ pool
        /\ weights w' = weights w
        /\ (forall x, exclude = Some x ->
              (exists y, y ∈ pool /\ y <> x) -> c <> x)
    end).
  { destruct pool as [|p pool].
    - now rewrite selectWeightedCharacter_empty.
    - destruct (selectWeightedCharacter_ok (p :: pool) exclude w)
        as (c & w' & -> & Hc & Hw); [done|].
      split; [now apply candidates_elem in Hc|]. split; [done|].
      intros x -> Hy. now apply (candidates_avoid (p :: pool) x c). }
  split; [|split; [exact Hcases|split]].
  - split.
    + intros (e & w' & He). rewrite He in Hcases. tauto.
    + intros ->. exists InvalidArgument, w.
      apply selectWeightedCharacter_empty.
  - apply initialKanaChar_ok.
  - apply initialRomajiChar_ok.
Qed.

(** Selecting among the six sample kana with "あ" excluded gives one of
    the other five. *)
Lemma selectWeightedCharacter_sample :
  (exists y, y ∈ selectedKana sampleEnv /\ y <> "あ")
  /\ match AdaptiveSelection.selectWeightedCharacter (selectedKana sampleEnv)
             (Some "あ") sampleWorld with
     | (Ok c, w') =>
         c ∈ selectedKana sampleEnv /\ c <> "あ"
         /\ weights w' = weights sampleWorld
     | (Err _, _) => False
     end.
Proof.
  assert (Hy : exists y, y ∈ selectedKana sampleEnv /\ y <> "あ").
  { exists "い". split; [|discriminate]. simpl. set_solver. }
  split; [exact Hy|].
  pose proof (selectWeightedCharacter_fails_only_on_empty
                (selectedKana sampleEnv) (Some "あ") sampleWorld sampleEnv)
    as (_ & H & _).
  destruct (AdaptiveSelection.selectWeightedCharacter _ _ _) as [[c|e] w'].
  - destruct H as (Hc & Hw & Hx). split; [exact Hc|].
    split; [exact (Hx "あ" eq_refl Hy)|exact Hw].
  - destruct H as (_ & Hnil & _). discriminate Hnil.
Defined.

(** ** Arrays and dictionaries *)

Section JsFacts.
Context {V : Type}.
Implicit Types (o : Js.Obj V) (k : string) (v : V).

Lemma insertRandom_perm {A : Type} (x : A) (sorted : list A) : forall w,
  exists l' w',
    Js.insertRandom x sorted w = (Ok l', w')
    /\ l' ≡ₚ x :: sorted /\ weights w' = weights w.
Proof.
  induction sorted as [|y rest IH]; intros w; simpl.
  - by eexists _, _.
  - destruct (draw_ok w) as (d & w1 & Hd & Hw1). unfold Random.real01.
    erewrite bind_ok by exact Hd.
    destruct (Qlt_le_dec _ _).
    + by eexists _, _.
    + destruct (IH w1) as (r & w2 & Hr & Hp & Hw2).
      erewrite bind_ok by exact Hr.
      eexists _, _. split; [reflexivity|]. split; [|congruence].
      rewrite Hp. apply perm_swap.
Qed.

Lemma sortRandom_perm {A : Type} (l : list A) : forall w,
  exists l' w',
    Js.sortRandom l w = (Ok l', w') /\ l' ≡ₚ l /\ weights w' = weights w.
Proof.
  induction l as [|x rest IH]; intros w; simpl.
  - by eexists _, _.
  - destruct (IH w) as (s & w1 & Hs & Hp & Hw1).
    erewrite bind_ok by exact Hs.
    destruct (insertRandom_perm x s w1) as (l' & w2 & Hl & Hp' & Hw2).
    eexists _, _. split; [exact Hl|]. split; [|congruence].
    now rewrite Hp', Hp.
Qed.

Lemma set_fresh o k v : k ∉ o.*1 -> Js.set o k v = o ++ [(k, v)].
Proof.
  induction o as [|[k' v'] o IH]; simpl; intros Hk; [done|].
  apply not_elem_of_cons in Hk as [Hne Hk].
  destruct (String.eqb_spec k' k) as [->|_]; [done|].
  now rewrite IH.
Qed.

Lemma fromEntries_from (es : list (string * V)) : forall acc,
  NoDup ((acc ++ es).*1) ->
  fold_left (fun o kv => Js.set o kv.1 kv.2) es acc = acc ++ es.
Proof.
  induction es as [|[k v] es IH]; intros acc Hnd; simpl.
  - now rewrite app_nil_r.
  - rewrite set_fresh.
    + rewrite IH; rewrite <- app_assoc; [done|exact Hnd].
    + rewrite fmap_app in Hnd. apply NoDup_app in Hnd as (_ & Hd & _).
      intros Hin. apply (Hd k Hin). simpl. apply list_elem_of_here.
Qed.

Lemma fromEntries_nodup (es : list (string * V)) :
  NoDup (es.*1) -> Js.fromEntries es = es.
Proof. intros H. unfold Js.fromEntries. now rewrite fromEntries_from. Qed.

Lemma get_elem o k v : NoDup (o.*1) -> (k, v) ∈ o -> Js.get o k = Some v.
Proof.
  induction o as [|[k' v'] o IH]; simpl; intros Hnd Hin.
  - now apply not_elem_of_nil in Hin.
  - apply NoDup_cons in Hnd as [Hk' Hnd].
    destruct (String.eqb_spec k' k) as [->|Hne].
    + apply elem_of_cons in Hin as [Heq|Hin]; [congruence|].
      exfalso. apply Hk'. apply list_elem_of_fmap. now exists (k, v).
    + apply elem_of_cons in Hin as [Heq|Hin]; [congruence|]. now apply IH.
Qed.

Lemma omit_fresh o k : k ∉ o.*1 -> Js.omit o k = o.
Proof.
  unfold Js.omit. induction o as [|[k' v'] o IH]; intros Hk; [done|].
  simpl in Hk. apply not_elem_of_cons in Hk as [Hne Hk].
  rewrite filter_cons, decide_True.
  - now rewrite IH.
  - simpl. destruct (String.eqb_spec k' k); [congruence|done].
Qed.

Lemma omit_perm o k v :
  NoDup (o.*1) -> (k, v) ∈ o -> o ≡ₚ (k, v) :: Js.omit o k.
Proof.
  induction o as [|[k' v'] o IH]; intros Hnd Hin.
  - now apply not_elem_of_nil in Hin.
  - simpl in Hnd. apply NoDup_cons in Hnd as [Hk' Hnd].
    unfold Js.omit. rewrite filter_cons. fold (Js.omit o k).
    apply elem_of_cons in Hin as [Heq|Hin].
    + injection Heq as <- <-. rewrite decide_False.
      * now rewrite omit_fresh.
      * simpl. rewrite String.eqb_refl. done.
    + assert (Hne : k' <> k).
      { intros ->. apply Hk'. apply list_elem_of_fmap. now exists (k, v). }
      rewrite decide_True.
      * rewrite (IH Hnd Hin) at 1. apply perm_swap.
      * simpl. destruct (String.eqb_spec k' k); [congruence|done].
Qed.

Lemma omit_values o k v :
  NoDup (o.*1) -> (k, v) ∈ o -> Js.values o ≡ₚ v :: Js.values (Js.omit o k).
Proof.
  intros Hnd Hin. unfold Js.values.
  now rewrite (omit_perm o k v Hnd Hin) at 1.
Qed.

End JsFacts.

Lemma mapi_from_fst {A : Type} (g : nat -> A) (l : list string) : forall i,
  (Js.mapi_from i (fun key j => (key, g j)) l).*1 = l.
Proof. induction l as [|x l IH]; intros i; simpl; [done|]. now rewrite IH. Qed.

Lemma mapi_from_lookup {A B : Type} (f : A -> nat -> B) (l : list A) :
  forall i j,
    Js.mapi_from i f l !! j = (fun x => f x (i + j)%nat) <$> l !! j.
Proof.
  induction l as [|x l IH]; intros i j; simpl; [done|].
  destruct j as [|j]; simpl.
  - now rewrite Nat.add_0_r.
  - rewrite IH. now rewrite Nat.add_succ_r.
Qed.

Lemma mapi_from_length {A B : Type} (f : A -> nat -> B) (l : list A) : forall i,
  length (Js.mapi_from i f l) = length l.
Proof. induction l as [|x l IH]; intros i; simpl; [done|]. now rewrite IH. Qed.

(** ** PickGame: the options of a round *)

Section PickTables.
Import PickGame.
Variable env : Env.

Lemma entries_lookup (qs ans : list string) i q :
  qs !! i = Some q ->
  Js.mapi (fun key j => (key, ans !! j)) qs !! i = Some (q, ans !! i).
Proof.
  intros H. unfold Js.mapi. rewrite mapi_from_lookup, H. reflexivity.
Qed.

Lemma entries_values_same_length (qs ans : list string) :
  length qs = length ans ->
  Js.values (Js.mapi (fun key j => (key, ans !! j)) qs) = Some <$> ans.
Proof.
  intros Hlen. apply list_eq. intros j. unfold Js.values, Js.mapi.
  rewrite !list_lookup_fmap, mapi_from_lookup. simpl.
  destruct (qs !! j) as [q|] eqn:Hq; simpl.
  - destruct (ans !! j) as [a|] eqn:Ha; [done|].
    apply lookup_lt_Some in Hq. apply lookup_ge_None in Ha. lia.
  - apply lookup_ge_None in Hq.
    rewrite (proj2 (lookup_ge_None ans j)); [done|lia].
Qed.

Lemma table_facts isReverse table i q :
  NoDup (questions env isReverse) ->
  tableFor env isReverse table ->
  questions env isReverse !! i = Some q ->
  NoDup (table.*1)
  /\ (q, answers env isReverse !! i) ∈ table
  /\ Js.values table ≡ₚ answerValues env isReverse.
Proof.
  intros Hnd Ht Hq.
  set (es := Js.mapi (fun key j => (key, answers env isReverse !! j))
                     (questions env isReverse)).
  assert (Hfst : es.*1 = questions env isReverse)
    by apply mapi_from_fst.
  assert (Hin : (q, answers env isReverse !! i) ∈ es).
  { apply list_elem_of_lookup. exists i. now apply entries_lookup. }
  assert (Hes : table = es \/ table = reverse es).
  { unfold tableFor in Ht. destruct isReverse.
    - destruct Ht as [-> | ->]; [left|right].
      + unfold selectedPairs1. apply fromEntries_nodup.
        fold (answers env true). fold (questions env true).
        fold es. now rewrite Hfst.
      + unfold selectedPairs2. apply fromEntries_nodup.
        fold (answers env true). fold (questions env true).
        fold es. now rewrite fmap_reverse, reverse_Permutation, Hfst.
    - subst table. left. unfold selectedPairs. apply fromEntries_nodup.
      fold (answers env false). fold (questions env false).
      fold es. now rewrite Hfst. }
  destruct Hes as [-> | ->].
  - split; [now rewrite Hfst|]. split; [done|]. reflexivity.
  - split; [now rewrite fmap_reverse, reverse_Permutation, Hfst|].
    split; [now apply elem_of_reverse|].
    unfold answerValues, Js.values. fold es.
      now rewrite reverse_Permutation.
Qed.

Lemma answerValues_lookup isReverse i q :
  questions env isReverse !! i = Some q ->
  answerValues env isReverse !! i = Some (answers env isReverse !! i).
Proof.
  intros Hq. unfold answerValues, Js.values.
  rewrite list_lookup_fmap, (entries_lookup _ _ i q Hq). reflexivity.
Qed.

Lemma answerValues_length isReverse :
  length (answerValues env isReverse) = length (questions env isReverse).
Proof.
  unfold answerValues, Js.values, Js.mapi.
  now rewrite length_fmap, mapi_from_length.
Qed.

Lemma table_correct isReverse table i q :
  NoDup (questions env isReverse) ->
  tableFor env isReverse table ->
  questions env isReverse !! i = Some q ->
  Js.getStr table q = answers env isReverse !! i.
Proof.
  intros Hnd Ht Hq.
  destruct (table_facts isReverse table i q Hnd Ht Hq) as (Hk & Hin & _).
  unfold Js.getStr. now rewrite (get_elem table q _ Hk Hin).
Qed.

Lemma table_others isReverse table i q :
  NoDup (questions env isReverse) ->
  tableFor env isReverse table ->
  questions env isReverse !! i = Some q ->
  Js.values (Js.omit table q) ≡ₚ delete i (answerValues env isReverse).
Proof.
  intros Hnd Ht Hq.
  destruct (table_facts isReverse table i q Hnd Ht Hq) as (Hk & Hin & Hv).
  apply (Permutation_cons_inv (a := answers env isReverse !! i)).
  rewrite <- (omit_values table q _ Hk Hin), Hv.
  apply delete_Permutation. now apply (answerValues_lookup isReverse i q).
Qed.

Lemma correctKanaCharReverse_ok romajiChar w :
  exists table w',
    correctKanaCharReverse env romajiChar w
    = (Ok (Js.getStr table romajiChar), w')
    /\ tableFor env true table /\ weights w' = weights w.
Proof.
  unfold correctKanaCharReverse.
  destruct (bool_ok w) as (b & w' & Hb & Hw).
  erewrite bind_ok by exact Hb.
  destruct b; eexists _, w'; (split; [reflexivity|]); split; try done;
    [now left|now right].
Qed.

Lemma getIncorrectOptions_ok isReverse kanaChar romajiChar count w :
  exists table shuffled w',
    getIncorrectOptions env isReverse kanaChar romajiChar count w
    = (Ok (Js.slice0 (count - 1) shuffled), w')
    /\ tableFor env isReverse table
    /\ shuffled
       ≡ₚ Js.values (Js.omit table (displayChar isReverse kanaChar romajiChar))
    /\ weights w' = weights w.
Proof.
  unfold getIncorrectOptions. destruct isReverse; simpl.
  - destruct (bool_ok w) as (b & w1 & Hb & Hw1).
    erewrite bind_ok by exact Hb.
    match goal with
    | |- context [Js.sortRandom ?l] =>
        destruct (sortRandom_perm l w1) as (p & w2 & Hp & Hperm & Hw2)
    end.
    erewrite bind_ok by exact Hp.
    exists (if b then selectedPairs1 env else selectedPairs2 env), p, w2.
    split; [reflexivity|]. split; [destruct b; [now left|now right]|].
    split; [done|congruence].
  - match goal with
    | |- context [Js.sortRandom ?l] =>
        destruct (sortRandom_perm l w) as (p & w2 & Hp & Hperm & Hw2)
    end.
    erewrite bind_ok by exact Hp.
    exists (selectedPairs env), p, w2. done.
Qed.

Lemma shuffledVariants_spec isReverse kanaChar romajiChar count w i :
  NoDup (questions env isReverse) ->
  questions env isReverse !! i
  = Some (displayChar isReverse kanaChar romajiChar) ->
  exists opts shuffled w',
    shuffledVariants env isReverse kanaChar romajiChar count w = (Ok opts, w')
    /\ opts ≡ₚ answers env isReverse !! i :: Js.slice0 (count - 1) shuffled
    /\ shuffled ≡ₚ delete i (answerValues env isReverse)
    /\ weights w' = weights w
    /\ exists w2,
         Js.sortRandom
           (answers env isReverse !! i :: Js.slice0 (count - 1) shuffled) w2
         = (Ok opts, w').
Proof.
  intros Hnd Hq. unfold shuffledVariants.
  destruct (correctKanaCharReverse_ok romajiChar w)
    as (t1 & w1 & H1 & Ht1 & Hw1).
  erewrite bind_ok by exact H1.
  destruct (getIncorrectOptions_ok isReverse kanaChar romajiChar count w1)
    as (t2 & p & w2 & H2 & Ht2 & Hp & Hw2).
  erewrite bind_ok by exact H2.
  match goal with
  | |- context [if isReverse then Js.sortRandom ?a else Js.sortRandom ?b] =>
      replace (if isReverse then Js.sortRandom a else Js.sortRandom b)
        with (Js.sortRandom
                (answers env isReverse !! i :: Js.slice0 (count - 1) p))
  end.
  - destruct (sortRandom_perm
                (answers env isReverse !! i :: Js.slice0 (count - 1) p) w2)
      as (opts & w3 & H3 & Hperm & Hw3).
    exists opts, p, w3. split; [exact H3|]. split; [exact Hperm|].
    split; [|split; [congruence|now exists w2]].
    rewrite Hp. now apply table_others.
  - destruct isReverse.
    + now rewrite (table_correct true t1 i romajiChar Hnd Ht1 Hq).
    + unfold correctRomajiChar.
      now rewrite (table_correct false (selectedPairs env) i kanaChar Hnd
                     eq_refl Hq).
Qed.

End PickTables.

(** ** The random engine stays in range *)

Lemma unit_part_range d : (0 <= Random.unit_part d < 1)%Q.
Proof.
  unfold Random.unit_part.
  pose proof (Qfloor_le d) as Hlo. pose proof (Qlt_floor d) as Hhi.
  rewrite inject_Z_plus in Hhi. change (inject_Z 1) with 1%Q in Hhi.
  split; lra.
Qed.

Lemma draw_range w :
  exists d w',
    Random.draw w = (Ok d, w') /\ (0 <= d < 1)%Q /\ weights w' = weights w.
Proof.
  unfold Random.draw. destruct (rng w) as [|d ds].
  - exists 0%Q, w. split; [done|]. split; [lra|done].
  - eexists _, _. split; [reflexivity|]. split; [apply unit_part_range|done].
Qed.

Lemma integer_range lo hi w :
  lo <= hi ->
  exists n w',
    Random.integer lo hi w = (Ok n, w') /\ lo <= n <= hi
    /\ weights w' = weights w.
Proof.
  intros Hle. unfold Random.integer.
  destruct (draw_range w) as (d & w' & Hd & [Hd0 Hd1] & Hw).
  erewrite bind_ok by exact Hd.
  eexists _, w'. split; [reflexivity|]. split; [|done].
  set (m := hi - lo + 1).
  assert (Hm : (1 <= inject_Z m)%Q).
  { change 1%Q with (inject_Z 1). rewrite <- Zle_Qle. lia. }
  assert (H0 : 0 <= Qfloor (d * inject_Z m)).
  { change 0 with (Qfloor (inject_Z 0)). apply Qfloor_resp_le.
    change (inject_Z 0) with 0%Q. nra. }
  assert (H1 : Qfloor (d * inject_Z m) < m).
  { rewrite Zlt_Qlt. eapply Qle_lt_trans; [apply Qfloor_le|]. nra. }
  lia.
Qed.

(** ** WordBuildingGame: the tiles of a round *)

Section WordGeneration.
Import WordBuildingGame.

Lemma selectWordChars_spec (source : list string) :
  NoDup source ->
  forall n wordChars (usedChars : gset string) w,
    (forall x, x ∈ usedChars <-> x ∈ wordChars) ->
    NoDup wordChars ->
    (forall x, x ∈ wordChars -> x ∈ source) ->
    (length wordChars + n <= length source)%nat ->
    exists r w',
      selectWordChars n source wordChars usedChars w = (Ok r, w')
      /\ length r = (length wordChars + n)%nat
      /\ NoDup r
      /\ (forall x, x ∈ r -> x ∈ source).
Proof.
  intros Hsrc. induction n as [|n IH]; intros wc used w Hused Hwc Hin Hlen.
  - simpl. exists wc, w. split; [done|]. split; [lia|done].
  - cbn [selectWordChars].
    destruct (filter (fun c => c ∉ used) source) as [|c rest] eqn:Hf.
    + exfalso.
      assert (Hall : forall x, x ∈ source -> x ∈ wc).
      { intros x Hx. apply Hused. destruct (decide (x ∈ used)); [done|].
        assert (Hxf : x ∈ filter (fun c => c ∉ used) source)
          by (apply list_elem_of_filter; done).
        rewrite Hf in Hxf. now apply not_elem_of_nil in Hxf. }
      pose proof (submseteq_length _ _ (NoDup_submseteq _ _ Hsrc Hall)).
      lia.
    + destruct (selectWeightedCharacter_ok (c :: rest) None w)
        as (sel & w1 & Hsel & Hcand & _); [done|].
      erewrite bind_ok by exact Hsel.
      erewrite bind_ok by apply markCharacterSeen_ok.
      simpl in Hcand. rewrite <- Hf in Hcand.
      apply list_elem_of_filter in Hcand as [Hnew Hsrc'].
      destruct (IH (wc ++ [sel]) ({[sel]} ∪ used)
                  (mkWorld (rng w1)
                     (<[sel := mkCharacterWeight
                                 (AdaptiveSelection.weightOf (weights w1) sel)
                                 true]> (weights w1))))
        as (r & w' & Hr & Hrl & Hrn & Hrs).
      * intros x. rewrite elem_of_union, elem_of_singleton, elem_of_app,
          list_elem_of_singleton, Hused. tauto.
      * apply NoDup_app. split; [done|]. split; [|apply NoDup_singleton].
        intros x Hx Hx'. apply list_elem_of_singleton in Hx'. subst x.
        apply Hnew. now apply Hused.
      * intros x Hx. apply elem_of_app in Hx as [Hx|Hx]; [now apply Hin|].
        apply list_elem_of_singleton in Hx. now subst x.
      * rewrite length_app. simpl. lia.
      * exists r, w'. split; [exact Hr|]. split; [|done].
        rewrite Hrl, length_app. simpl. lia.
Qed.

(** Answers looked up through a one-to-one pairing are again distinct. *)
Lemma paired_answers (qs ans : list string) (f : string -> option string) :
  NoDup ans ->
  (forall i q, qs !! i = Some q -> f q = ans !! i) ->
  length qs = length ans ->
  forall wc, NoDup wc -> (forall x, x ∈ wc -> x ∈ qs) ->
  exists vs,
    f <$> wc = Some <$> vs
    /\ NoDup vs
    /\ (forall v, v ∈ vs -> v ∈ ans)
    /\ length vs = length wc
    /\ (forall v, v ∈ vs -> exists k, k ∈ wc /\ f k = Some v).
Proof.
  intros Hans Hf Hlen.
  induction wc as [|k wc IH]; intros Hwc Hin.
  - exists []. split; [done|]. split; [constructor|].
    split; [intros v Hv; now apply not_elem_of_nil in Hv|]. split; [done|].
    intros v Hv. now apply not_elem_of_nil in Hv.
  - apply NoDup_cons in Hwc as [Hk Hwc].
    destruct IH as (vs & Hvs & Hnd & Hsub & Hl & Hback);
      [done|intros x Hx; apply Hin; now apply list_elem_of_further|].
    assert (Hkq : k ∈ qs) by (apply Hin; apply list_elem_of_here).
    apply list_elem_of_lookup in Hkq as [i Hi].
    pose proof (lookup_lt_Some _ _ _ Hi) as Hilt.
    destruct (ans !! i) as [a|] eqn:Ha;
      [|apply lookup_ge_None in Ha; lia].
    exists (a :: vs). split; [|split; [|split; [|split]]].
    + now rewrite !fmap_cons, (Hf i k Hi), Ha, Hvs.
    + apply NoDup_cons. split; [|done]. intros Hav.
      destruct (Hback a Hav) as (k' & Hk' & Hfk').
      assert (Hk'q : k' ∈ qs) by (apply Hin; now apply list_elem_of_further).
      apply list_elem_of_lookup in Hk'q as [i' Hi'].
      rewrite (Hf i' k' Hi') in Hfk'.
      assert (i = i') by exact (NoDup_lookup ans i i' a Hans Ha Hfk').
      subst i'.
      assert (k = k') by congruence. subst k'. done.
    + intros v Hv. apply elem_of_cons in Hv as [->|Hv]; [|now apply Hsub].
      apply list_elem_of_lookup. eauto.
    + simpl. now rewrite Hl.
    + intros v Hv. apply elem_of_cons in Hv as [->|Hv].
      * exists k. split; [apply list_elem_of_here|]. now rewrite (Hf i k Hi).
      * destruct (Hback v Hv) as (k' & Hk' & Hfk').
        exists k'. split; [now apply list_elem_of_further|done].
Qed.

Variable env : Env.
Hypothesis kana_nodup : NoDup (selectedKana env).
Hypothesis romaji_nodup : NoDup (selectedRomaji env).
Hypothesis same_length :
  length (selectedKana env) = length (selectedRomaji env).

Lemma kanaToRomaji_get i k :
  selectedKana env !! i = Some k ->
  Js.getStr (kanaToRomaji env) k = selectedRomaji env !! i.
Proof.
  intros Hk.
  exact (table_correct env false (PickGame.selectedPairs env) i k
           kana_nodup eq_refl Hk).
Qed.

Lemma romajiToKana_get i r :
  selectedRomaji env !! i = Some r ->
  Js.get (romajiToKana env) r = selectedKana env !! i.
Proof.
  intros Hr. unfold romajiToKana.
  set (es := Js.mapi (fun k j => (Js.toKey (selectedRomaji env !! j), k))
                     (selectedKana env)).
  assert (Hlook : forall j,
    es !! j = (fun k => (Js.toKey (selectedRomaji env !! j), k))
              <$> selectedKana env !! j).
  { intros j. unfold es, Js.mapi. now rewrite mapi_from_lookup. }
  assert (Hfst : es.*1 = selectedRomaji env).
  { apply list_eq. intros j. rewrite list_lookup_fmap, Hlook.
    destruct (selectedKana env !! j) as [k|] eqn:Hk; simpl.
    - destruct (selectedRomaji env !! j) as [r'|] eqn:Hr'; [done|].
      apply lookup_lt_Some in Hk. apply lookup_ge_None in Hr'. lia.
    - apply lookup_ge_None in Hk. symmetry. apply lookup_ge_None. lia. }
  rewrite fromEntries_nodup by now rewrite Hfst.
  pose proof (lookup_lt_Some _ _ _ Hr) as Hi.
  destruct (selectedKana env !! i) as [k|] eqn:Hk;
    [|apply lookup_ge_None in Hk; lia].
  apply get_elem; [now rewrite Hfst|].
  apply list_elem_of_lookup. exists i. now rewrite Hlook, Hk, Hr.
Qed.

Lemma includesStr_fmap (dl : list string) c :
  Js.includesStr (Some <$> dl) c = false <-> c ∉ dl.
Proof.
  induction dl as [|d dl IH]; simpl.
  - split; [intros _; apply not_elem_of_nil|done].
  - rewrite orb_false_iff, IH, not_elem_of_cons.
    destruct (String.eqb_spec c d); split; intros []; try done.
Qed.

Lemma at_index_elem (l : list string) i :
  0 <= i <= Z.of_nat (length l) - 1 ->
  exists c, at_index l i = Some c /\ c ∈ l.
Proof.
  intros Hi. unfold at_index. destruct (i <? 0) eqn:E; [lia|].
  destruct (l !! Z.to_nat i) as [c|] eqn:Hc.
  - exists c. split; [done|]. apply list_elem_of_lookup. eauto.
  - apply lookup_ge_None in Hc. lia.
Qed.

Lemma selectDistractors_spec (src vs : list string)
  (usedAnswers : gset (option string)) :
  NoDup src ->
  (forall c, Some c ∈ usedAnswers <-> c ∈ vs) ->
  forall n dl w,
    NoDup (vs ++ dl) ->
    (forall x, x ∈ vs ++ dl -> x ∈ src) ->
    (length vs + length dl + n <= length src)%nat ->
    exists dl' w',
      selectDistractors n src usedAnswers (Some <$> dl) w
      = (Ok (Some <$> dl'), w')
      /\ length dl' = (length dl + n)%nat
      /\ NoDup (vs ++ dl')
      /\ (forall x, x ∈ dl' -> x ∈ src).
Proof.
  intros Hsrc Hused. induction n as [|n IH]; intros dl w Hnd Hin Hlen.
  - simpl. exists dl, w. split; [done|]. split; [lia|]. split; [done|].
    intros x Hx. apply Hin, elem_of_app. now right.
  - cbn [selectDistractors].
    set (available :=
           filter (fun c => (Some c ∉ usedAnswers)
                            /\ (Js.includesStr (Some <$> dl) c = false)) src).
    assert (Hav : forall c, c ∈ available <-> c ∈ src /\ c ∉ vs ++ dl).
    { intros c. unfold available.
      rewrite list_elem_of_filter, Hused, includesStr_fmap, elem_of_app.
      tauto. }
    destruct available as [|a rest] eqn:Havail.
    + exfalso.
      assert (Hall : forall x, x ∈ src -> x ∈ vs ++ dl).
      { intros x Hx. destruct (decide (x ∈ vs ++ dl)); [done|].
        assert (Hxa : x ∈ ([] : list string)) by now apply Hav.
        now apply not_elem_of_nil in Hxa. }
      pose proof (submseteq_length _ _ (NoDup_submseteq _ _ Hsrc Hall)) as H.
      rewrite length_app in H. lia.
    + destruct (integer_range 0 (Z.of_nat (length (a :: rest)) - 1) w)
        as (i & w1 & Hi & Hrange & _); [simpl; lia|].
      erewrite bind_ok by exact Hi.
      destruct (at_index_elem (a :: rest) i Hrange) as (c & Hc & Hcin).
      rewrite Hc. apply Hav in Hcin as [Hcsrc Hcnew].
      replace ((Some <$> dl) ++ [Some c]) with (Some <$> (dl ++ [c]))
        by now rewrite fmap_app.
      destruct (IH (dl ++ [c]) w1) as (dl' & w' & Hr & Hl & Hn & Hs).
      * rewrite app_assoc. apply NoDup_app. split; [done|].
        split; [|apply NoDup_singleton].
        intros x Hx Hx'. apply list_elem_of_singleton in Hx'. now subst x.
      * intros x. rewrite app_assoc, elem_of_app, list_elem_of_singleton.
        intros [Hx| ->]; [now apply Hin|done].
      * rewrite length_app. simpl. lia.
      * exists dl', w'. split; [exact Hr|]. split; [|done].
        rewrite Hl, length_app. simpl. lia.
Qed.

Lemma generateWord_spec props reverse w :
  (wordLength props <= length (selectedKana env))%nat ->
  exists wd w',
    generateWord env props reverse w = (Ok wd, w')
    /\ length (wordChars wd) = wordLength props
    /\ length (answerChars wd) = wordLength props
    /\ Z.of_nat (length (allTiles wd))
       = Z.of_nat (wordLength props)
         + Z.min 3 (Z.of_nat (length (selectedKana env))
                    - Z.of_nat (wordLength props))
    /\ NoDup (allTiles wd)
    /\ (forall t, t ∈ answerChars wd -> t ∈ allTiles wd).
Proof.
  intros Hwl. unfold generateWord.
  set (qs := if reverse then selectedRomaji env else selectedKana env).
  set (ans := if reverse then selectedKana env else selectedRomaji env).
  assert (Hqs : NoDup qs) by (unfold qs; now destruct reverse).
  assert (Hans : NoDup ans) by (unfold ans; now destruct reverse).
  assert (Hlen : length qs = length ans)
    by (unfold qs, ans; now destruct reverse).
  assert (Hn : length qs = length (selectedKana env))
    by (unfold qs; now destruct reverse).
  destruct (Nat.ltb_spec (length qs) (wordLength props)) as [|_]; [lia|].
  destruct (selectWordChars_spec qs Hqs (wordLength props) [] ∅ w)
    as (wc & w1 & Hwc & Hwcl & Hwcn & Hwcs).
  { intros x. rewrite elem_of_empty. split; [done|].
    intros Hx. now apply not_elem_of_nil in Hx. }
  { constructor. }
  { intros x Hx. now apply not_elem_of_nil in Hx. }
  { simpl. lia. }
  erewrite bind_ok by exact Hwc. simpl in Hwcl.
  set (f := fun q : string =>
              if reverse then Js.get (romajiToKana env) q
              else Js.getStr (kanaToRomaji env) q).
  assert (Hf : forall i q, qs !! i = Some q -> f q = ans !! i).
  { intros i q Hq. unfold f, qs, ans in *. destruct reverse.
    - now apply romajiToKana_get.
    - now apply kanaToRomaji_get. }
  destruct (paired_answers qs ans f Hans Hf Hlen wc Hwcn Hwcs)
    as (vs & Hvs & Hvn & Hvsub & Hvl & _).
  match goal with
  | |- context [list_to_set ?a] =>
      replace a with (Some <$> vs)
        by (rewrite <- Hvs; unfold f; now destruct reverse)
  end.
  set (dc := Z.min 3 (Z.of_nat (length qs) - Z.of_nat (wordLength props))).
  destruct (selectDistractors_spec ans vs (list_to_set (Some <$> vs)) Hans)
    with (n := Z.to_nat dc) (dl := @nil string) (w := w1)
    as (dl & w2 & Hdl & Hdll & Hdn & Hds).
  { intros c. rewrite elem_of_list_to_set, list_elem_of_fmap. split.
    - intros (y & Hy & Hin). now injection Hy as ->.
    - intros Hc. now exists c. }
  { now rewrite app_nil_r. }
  { intros x. rewrite app_nil_r. apply Hvsub. }
  { simpl. lia. }
  change (@nil (option string)) with (Some <$> @nil string).
  erewrite bind_ok by exact Hdl.
  destruct (sortRandom_perm ((Some <$> vs) ++ (Some <$> dl)) w2)
    as (tiles & w3 & Hs & Hp & _).
  erewrite bind_ok by exact Hs.
  eexists _, w3. split; [reflexivity|]. simpl.
  split; [lia|]. split; [rewrite length_fmap; lia|].
  split.
  { rewrite Hp, length_app, !length_fmap, Hdll, Hvl, Hwcl. unfold dc.
    simpl length. lia. }
  split.
  - rewrite Hp, <- fmap_app. now apply (NoDup_fmap_2 _).
  - intros t Ht. rewrite Hp. apply elem_of_app. now left.
Qed.

End WordGeneration.

(** ** The claims on the options of a round *)

Lemma filter_none {A : Type} (P : A -> Prop) `{forall x, Decision (P x)}
  (l : list A) : (forall x, x ∈ l -> ~ P x) -> filter P l = [].
Proof.
  induction l as [|x l IH]; intros Hl; [done|].
  rewrite filter_cons, decide_False.
  - apply IH. intros y Hy. apply Hl. now apply list_elem_of_further.
  - apply Hl. apply list_elem_of_here.
Qed.

Lemma slice0_nonneg {A : Type} (n : Z) (l : list A) :
  0 <= n -> Js.slice0 n l = take (Z.to_nat n) l.
Proof.
  intros Hn. unfold Js.slice0. destruct (0 <=? n) eqn:E; [done|lia].
Qed.

Lemma delete_not_elem {A : Type} (l : list A) i x :
  NoDup l -> l !! i = Some x -> x ∉ delete i l.
Proof.
  intros Hnd Hi. rewrite (delete_Permutation l i x Hi) in Hnd.
  now apply NoDup_cons in Hnd as [Hx _].
Qed.

(** C2, for pools without shared characters. In a round of the pick game
    on a pool whose kana are pairwise distinct, whose romanizations are
    pairwise distinct, with as many of the one as of the other, and which
    holds at least [optionCount] entries ([optionCount >= 1]): the options
    are presented without a throw; there are exactly [optionCount] of
    them; the correct answer is among them exactly once; the other
    [optionCount - 1] are pairwise distinct answers of the pool, taken
    from the pool with the entry asked removed; and the list presented is
    the random sort of the correct answer followed by these distractors. *)
Theorem pick_round_options
  (env : Env) (s : PickGame.State) (w : World) (i : nat) :
  let isReverse := SmartReverseMode.isReverse (PickGame.reverseMode s) in
  let optionCount :=
    ProgressiveDifficulty.optionCount (PickGame.difficulty s) in
  NoDup (selectedKana env) ->
  NoDup (selectedRomaji env) ->
  length (selectedKana env) = length (selectedRomaji env) ->
  PickGame.questions env isReverse !! i
  = Some (PickGame.displayChar isReverse (PickGame.correctKanaChar s)
            (PickGame.correctRomajiCharReverse s)) ->
  1 <= optionCount <= Z.of_nat (length (selectedKana env)) ->
  exists opts distractors answer w',
    PickGame.presentedOptions env s w = (Ok opts, w')
    /\ PickGame.answers env isReverse !! i = Some answer
    /\ Z.of_nat (length opts) = optionCount
    /\ length (filter (fun o => o = Some answer) opts) = 1%nat
    /\ Z.of_nat (length distractors) = optionCount - 1
    /\ distractors ⊆+ Some <$> delete i (PickGame.answers env isReverse)
    /\ (Some answer ∉ distractors)
    /\ NoDup distractors
    /\ opts ≡ₚ Some answer :: distractors
    /\ exists w1, Js.sortRandom (Some answer :: distractors) w1 = (Ok opts, w').
Proof.
  intros isReverse optionCount Hkana Hromaji Hlen Hq Hcount.
  assert (Hqs : NoDup (PickGame.questions env isReverse))
    by (unfold PickGame.questions; now destruct isReverse).
  assert (Has : NoDup (PickGame.answers env isReverse))
    by (unfold PickGame.answers; now destruct isReverse).
  assert (Hlen' : length (PickGame.questions env isReverse)
                  = length (PickGame.answers env isReverse))
    by (unfold PickGame.questions, PickGame.answers; now destruct isReverse).
  assert (Hn : length (PickGame.questions env isReverse)
               = length (selectedKana env))
    by (unfold PickGame.questions; now destruct isReverse).
  destruct (shuffledVariants_spec env isReverse (PickGame.correctKanaChar s)
              (PickGame.correctRomajiCharReverse s) optionCount w i Hqs Hq)
    as (opts & p & w' & Hrun & Hperm & Hp & _ & Hsort).
  pose proof (lookup_lt_Some _ _ _ Hq) as Hi.
  destruct (PickGame.answers env isReverse !! i) as [answer|] eqn:Ha;
    [|apply lookup_ge_None in Ha; lia].
  rewrite slice0_nonneg in Hperm, Hsort by lia.
  assert (Hvals : PickGame.answerValues env isReverse
                  = Some <$> PickGame.answers env isReverse)
    by now apply entries_values_same_length.
  rewrite Hvals, <- list_fmap_delete in Hp.
  set (distractors := take (Z.to_nat (optionCount - 1)) p) in *.
  assert (Hsub : distractors
                 ⊆+ Some <$> delete i (PickGame.answers env isReverse)).
  { rewrite <- Hp. apply sublist_submseteq, sublist_take. }
  assert (Hnot : Some answer
                 ∉ Some <$> delete i (PickGame.answers env isReverse)).
  { intros Hin. apply list_elem_of_fmap in Hin as (a & Heq & Hin).
    injection Heq as <-. now apply (delete_not_elem _ i answer Has Ha). }
  assert (Hnot' : Some answer ∉ distractors).
  { intros Hin. apply Hnot. now apply (elem_of_submseteq distractors). }
  assert (Hplen : length p = (length (selectedKana env) - 1)%nat).
  { rewrite Hp, length_fmap, length_delete, <- Hlen', Hn; [done|].
    rewrite Ha. eauto. }
  assert (Hdlen : Z.of_nat (length distractors) = optionCount - 1).
  { unfold distractors. rewrite length_take, Hplen. lia. }
  exists opts, distractors, answer, w'.
  split; [exact Hrun|]. split; [done|].
  split; [rewrite Hperm; simpl length; lia|].
  split.
  { rewrite Hperm, filter_cons, decide_True by done.
    rewrite filter_none; [done|]. intros x Hx ->. done. }
  split; [done|]. split; [done|]. split; [done|].
  split.
  { apply (sublist_NoDup distractors p); [|apply sublist_take].
    rewrite Hp. apply (NoDup_fmap_2 _).
    apply (sublist_NoDup _ _ Has), sublist_delete. }
  split; [done|]. exact Hsort.
Qed.

(** The first round of the sample session: "あ" is asked among six kana
    with three options. *)
Lemma pick_round_options_sample :
  NoDup (selectedKana sampleEnv)
  /\ NoDup (selectedRomaji sampleEnv)
  /\ length (selectedKana sampleEnv) = length (selectedRomaji sampleEnv)
  /\ 1 <= ProgressiveDifficulty.optionCount (PickGame.difficulty samplePick)
     <= Z.of_nat (length (selectedKana sampleEnv))
  /\ exists opts w',
       PickGame.presentedOptions sampleEnv samplePick sampleWorld
       = (Ok opts, w')
       /\ Z.of_nat (length opts) = 3
       /\ length (filter (fun o => o = Some "a") opts) = 1%nat.
Proof.
  assert (Hk : NoDup (selectedKana sampleEnv)) by compute_done.
  assert (Hr : NoDup (selectedRomaji sampleEnv)) by compute_done.
  assert (Hl : length (selectedKana sampleEnv)
               = length (selectedRomaji sampleEnv)) by reflexivity.
  assert (Hc : 1 <= ProgressiveDifficulty.optionCount
                      (PickGame.difficulty samplePick)
               <= Z.of_nat (length (selectedKana sampleEnv)))
    by (simpl; lia).
  split; [exact Hk|]. split; [exact Hr|]. split; [exact Hl|].
  split; [exact Hc|].
  destruct (pick_round_options sampleEnv samplePick sampleWorld 0 Hk Hr Hl
              eq_refl Hc)
    as (opts & distractors & answer & w' & Hrun & Ha & Hn & Honce & _).
  injection Ha as <-.
  exists opts, w'. split; [exact Hrun|]. split; [exact Hn|exact Honce].
Defined.

(** C2 does not hold for every pool. With a romanization shared by two
    kana, at the initial option count 3 and on a pool of three entries: in
    reverse orientation only two options are presented, and in forward
    orientation the correct answer "a" is presented twice. *)
Lemma shared_romanization_breaks_pick_round :
  ProgressiveDifficulty.optionCount (PickGame.difficulty mixedPickReverse)
  <= Z.of_nat (length (selectedKana mixedEnv))
  /\ (exists opts,
        fst (PickGame.presentedOptions mixedEnv mixedPickReverse sampleWorld)
        = Ok opts
        /\ Z.of_nat (length opts)
           <> ProgressiveDifficulty.optionCount
                (PickGame.difficulty mixedPickReverse))
  /\ (exists opts,
        fst (PickGame.presentedOptions mixedEnv samplePick sampleWorld)
        = Ok opts
        /\ PickGame.correctRomajiChar mixedEnv
             (PickGame.correctKanaChar samplePick) = Some "a"
        /\ length (filter (fun o => o = Some "a") opts) <> 1%nat).
Proof.
  split; [simpl; lia|]. split.
  - exists [Some "あ"; Some "い"]. split; [vm_compute; reflexivity|].
    simpl. lia.
  - exists [Some "i"; Some "a"; Some "a"].
    split; [vm_compute; reflexivity|]. split; [reflexivity|].
    vm_compute. lia.
Qed.

(** C1, for pools without shared characters. On a pool of pairwise
    distinct kana with pairwise distinct romanizations, one for each kana:
    a round of the pick game presents as many options as the current
    option count of the progressive difficulty, or as the pool has entries
    if that is fewer; a round of the word-building game, which does not
    consult the progressive difficulty, presents [wordLength] answer tiles
    and up to three distractors, as many as the pool has entries left. *)
Theorem options_presented_per_round
  (env : Env) (props : WordBuildingGame.Props) (s : PickGame.State)
  (reverse : bool) (w : World) (i : nat) :
  let isReverse := SmartReverseMode.isReverse (PickGame.reverseMode s) in
  let optionCount :=
    ProgressiveDifficulty.optionCount (PickGame.difficulty s) in
  NoDup (selectedKana env) ->
  NoDup (selectedRomaji env) ->
  length (selectedKana env) = length (selectedRomaji env) ->
  (PickGame.questions env isReverse !! i
   = Some (PickGame.displayChar isReverse (PickGame.correctKanaChar s)
             (PickGame.correctRomajiCharReverse s)) ->
   1 <= optionCount ->
   exists opts w',
     PickGame.presentedOptions env s w = (Ok opts, w')
     /\ Z.of_nat (length opts)
        = Z.min optionCount (Z.of_nat (length (selectedKana env))))
  /\ ((WordBuildingGame.wordLength props <= length (selectedKana env))%nat ->
      exists wordData w',
        WordBuildingGame.generateWord env props reverse w
        = (Ok wordData, w')
        /\ Z.of_nat (length (WordBuildingGame.allTiles wordData))
           = Z.of_nat (WordBuildingGame.wordLength props)
             + Z.min 3 (Z.of_nat (length (selectedKana env))
                        - Z.of_nat (WordBuildingGame.wordLength props))).
Proof.
  intros isReverse optionCount Hkana Hromaji Hlen. split.
  - intros Hq Hcount.
    assert (Hqs : NoDup (PickGame.questions env isReverse))
      by (unfold PickGame.questions; now destruct isReverse).
    assert (Hn : length (PickGame.questions env isReverse)
                 = length (selectedKana env))
      by (unfold PickGame.questions; now destruct isReverse).
    destruct (shuffledVariants_spec env isReverse (PickGame.correctKanaChar s)
                (PickGame.correctRomajiCharReverse s) optionCount w i Hqs Hq)
      as (opts & p & w' & Hrun & Hperm & Hp & _).
    pose proof (lookup_lt_Some _ _ _ Hq) as Hi.
    exists opts, w'. split; [exact Hrun|].
    rewrite Hperm, slice0_nonneg by lia. simpl length.
    rewrite length_take, Hp, length_delete, answerValues_length, Hn.
    + lia.
    + rewrite (answerValues_lookup env isReverse i _ Hq). eauto.
  - intros Hwl.
    destruct (generateWord_spec env Hkana Hromaji Hlen props reverse w Hwl)
      as (wd & w' & Hrun & _ & _ & Htiles & _).
    now exists wd, w'.
Qed.

(** The first rounds of the sample session: the pick game shows 3
    options, the word-building game 6 tiles. *)
Lemma options_presented_per_round_sample :
  NoDup (selectedKana sampleEnv)
  /\ NoDup (selectedRomaji sampleEnv)
  /\ length (selectedKana sampleEnv) = length (selectedRomaji sampleEnv)
  /\ (exists opts w',
        PickGame.presentedOptions sampleEnv samplePick sampleWorld
        = (Ok opts, w')
        /\ Z.of_nat (length opts) = 3)
  /\ (exists wordData w',
        WordBuildingGame.generateWord sampleEnv sampleProps false sampleWorld
        = (Ok wordData, w')
        /\ Z.of_nat (length (WordBuildingGame.allTiles wordData)) = 6).
Proof.
  assert (Hk : NoDup (selectedKana sampleEnv)) by compute_done.
  assert (Hr : NoDup (selectedRomaji sampleEnv)) by compute_done.
  assert (Hl : length (selectedKana sampleEnv)
               = length (selectedRomaji sampleEnv)) by reflexivity.
  split; [exact Hk|]. split; [exact Hr|]. split; [exact Hl|].
  destruct (options_presented_per_round sampleEnv sampleProps samplePick
              false sampleWorld 0 Hk Hr Hl) as [Hpick Hword].
  split.
  - apply Hpick; [reflexivity|simpl; lia].
  - apply Hword. simpl. lia.
Defined.

(** C1 does not hold as it stands. At the start of a session the
    progressive difficulty stands at 3 options: the word-building game
    shows 6 tiles on the sample pool; and the pick game shows 2 options on
    a pool of two kana. *)
Lemma option_count_not_always_presented :
  ProgressiveDifficulty.optionCount
    (ProgressiveDifficulty.initial PickGame.difficultyConfig) = 3
  /\ (exists wordData,
        fst (WordBuildingGame.generateWord sampleEnv sampleProps false
               sampleWorld) = Ok wordData
        /\ Z.of_nat (length (WordBuildingGame.allTiles wordData))
           <> ProgressiveDifficulty.optionCount
                (ProgressiveDifficulty.initial PickGame.difficultyConfig))
  /\ (exists opts,
        fst (PickGame.presentedOptions tinyEnv samplePick sampleWorld)
        = Ok opts
        /\ Z.of_nat (length opts)
           <> ProgressiveDifficulty.optionCount
                (PickGame.difficulty samplePick)).
Proof.
  split; [reflexivity|]. split.
  - eexists. split; [vm_compute; reflexivity|]. simpl. lia.
  - eexists. split; [vm_compute; reflexivity|]. simpl. lia.
Qed.

(** * Further properties of the code *)

(** ** Membership tests *)

Lemma includes_elem (l : list string) (x : string) :
  Js.includes l x = true <-> x ∈ l.
Proof.
  unfold Js.includes. induction l as [|y l IH]; simpl.
  - split; [discriminate|]. intros H. now apply not_elem_of_nil in H.
  - rewrite orb_true_iff, IH, elem_of_cons, String.eqb_eq. tauto.
Qed.

Lemma includes_not_elem (l : list string) (x : string) :
  Js.includes l x = false <-> x ∉ l.
Proof.
  rewrite <- includes_elem. destruct (Js.includes l x); split; try done.
Qed.

(** ** WordBuildingGame: the answer row *)

Section WordBuildingViews.
Import WordBuildingGame WordBuildingView.
Variable env : Env.
Variable props : Props.

Lemma resetGame_view s :
  unchanged s (snd (resetGame env props s))
  \/ reopened (snd (resetGame env props s)).
Proof.
  unfold resetGame. rewrite bind_gets.
  destruct (wb_inWorld_frame (generateWord env props (isReverse props s)) s)
    as [w' Hw'].
  destruct (inWorld (generateWord env props (isReverse props s)) s)
    as [[d|e] s1] eqn:E; simpl in Hw'; subst s1.
  - erewrite bind_ok by exact E. rewrite !bind_modify. now right.
  - erewrite bind_err by exact E. now left.
Qed.

Lemma dispatch_view e s :
  let s' := snd (dispatch env props e s) in
  unchanged s s' \/ reopened s' \/ checked s s'
  \/ exists char, e = ClickTile char /\ toggled char s s'.
Proof.
  unfold dispatch. rewrite bind_gets. destruct e as [| |char].
  - destruct (bottomBarState s) eqn:Hb.
    + destruct (placedTiles s) as [|t ts] eqn:Hp.
      * rewrite handleCheck_empty by done. now left.
      * right. right. left.
        destruct (isCorrect (placedTiles s) (answerChars (wordData s)))
          eqn:Hc.
        -- destruct (handleCheck_correct env props s t ts Hp Hc)
             as (w' & mode' & -> & _).
           unfold checked. simpl. rewrite Hb, Hp. done.
        -- destruct (handleCheck_wrong env props s t ts Hp Hc) as [w' ->].
           unfold checked. simpl. rewrite Hb, Hp. done.
    + unfold handleContinue.
      destruct (resetGame_view s) as [H|H]; [now left|right; now left].
    + rewrite handleTryAgain_spec. right. now left.
  - destruct (bottomBarState s) eqn:Hb; try (now left).
    unfold handleClearPlaced. rewrite bind_gets.
    destruct (isChecking s) eqn:Hc; [now left|].
    right. left. unfold reopened. simpl. done.
  - unfold handleTileClick. rewrite bind_gets.
    destruct (isChecking s) eqn:Hc; [now left|].
    right. right. right. exists char. split; [done|].
    unfold toggled. rewrite Hc.
    destruct (Js.includes (placedTiles s) char); simpl; done.
Qed.

Lemma step_view e s :
  let s' := snd (step env props e s) in
  unchanged s s' \/ reopened s' \/ checked s s'
  \/ exists char, e = ClickTile char /\ toggled char s s'.
Proof.
  cbv zeta. pose proof (dispatch_view e s) as Hd. cbv zeta in Hd.
  destruct (step_snd env props e s) as [-> | ->]; [exact Hd|].
  set (s1 := snd (dispatch env props e s)) in *.
  unfold commitEffects. rewrite bind_gets.
  destruct (Bool.eqb _ _); [exact Hd|].
  destruct (resetGame_view s1) as [(H1 & H2 & H3 & H4)|H]; [|right; now left].
  unfold unchanged, reopened, checked, toggled in *.
  rewrite H1, H2, H3, H4. exact Hd.
Qed.

Lemma toggle_NoDup (placed : list string) char :
  NoDup placed ->
  NoDup (if Js.includes placed char
         then filter (fun c => c <> char) placed
         else placed ++ [char]).
Proof.
  intros Hnd. destruct (Js.includes placed char) eqn:Hi.
  - now apply NoDup_filter.
  - apply includes_not_elem in Hi. apply NoDup_app.
    split; [done|]. split; [|apply NoDup_singleton].
    intros x Hx Hx'. apply list_elem_of_singleton in Hx'. now subst x.
Qed.

Lemma step_NoDup e s :
  NoDup (placedTiles s) -> NoDup (placedTiles (snd (step env props e s))).
Proof.
  intros Hnd.
  destruct (step_view e s)
    as [(-> & _)|[(-> & _)|[(_ & _ & -> & _)|(c & _ & _ & -> & _)]]];
    try done; [constructor|now apply toggle_NoDup].
Qed.

Lemma run_NoDup es : forall s,
  NoDup (placedTiles s) -> NoDup (placedTiles (run env props es s)).
Proof.
  unfold run. induction es as [|e es IH]; intros s Hs; simpl; [done|].
  apply IH. now apply step_NoDup.
Qed.

Lemma step_barMatchesChecking e s :
  barMatchesChecking s -> barMatchesChecking (snd (step env props e s)).
Proof.
  unfold barMatchesChecking. intros Hs.
  destruct (step_view e s)
    as [(_ & -> & -> & _)
       |[(_ & -> & ->)
        |[(_ & _ & _ & -> & Hb & _)|(c & _ & Hc & _ & -> & -> & _)]]].
  - done.
  - split; [discriminate|]. intros H. now destruct H.
  - done.
  - split; [discriminate|]. intros Hb. rewrite <- Hc. now apply Hs.
Qed.

Lemma run_barMatchesChecking es : forall s,
  barMatchesChecking s -> barMatchesChecking (run env props es s).
Proof.
  unfold run. induction es as [|e es IH]; intros s Hs; simpl; [done|].
  apply IH. now apply step_barMatchesChecking.
Qed.

End WordBuildingViews.

(** X6. Whatever the learner does, the answer row never holds a tile
    twice. So a word whose answer repeats a value, as happens when two
    characters of the word share their answer, is never judged correct. *)
Theorem placed_tiles_never_repeat
  (env : Env) (props : WordBuildingGame.Props)
  (es : list WordBuildingGame.Event) (s : WordBuildingGame.State) :
  NoDup (WordBuildingGame.placedTiles s) ->
  let s' := WordBuildingGame.run env props es s in
  NoDup (WordBuildingGame.placedTiles s')
  /\ (~ NoDup (WordBuildingGame.answerChars (WordBuildingGame.wordData s')) ->
      WordBuildingGame.isCorrect (WordBuildingGame.placedTiles s')
        (WordBuildingGame.answerChars (WordBuildingGame.wordData s'))
      = false).
Proof.
  intros Hnd s'. assert (Hnd' : NoDup (WordBuildingGame.placedTiles s'))
    by now apply run_NoDup.
  split; [exact Hnd'|]. intros Hdup.
  apply isCorrect_false. intros Heq. apply Hdup. rewrite Heq.
  now apply (NoDup_fmap_2 _).
Qed.

(** The word "あアい" asks for "a" twice; the second click on "a" takes the
    tile out again. *)
Lemma placed_tiles_never_repeat_sample :
  NoDup (WordBuildingGame.placedTiles mixedWord)
  /\ ~ NoDup (WordBuildingGame.answerChars
                (WordBuildingGame.wordData mixedWord))
  /\ WordBuildingGame.isCorrect
       (WordBuildingGame.placedTiles
          (WordBuildingGame.run mixedEnv sampleProps
             [WordBuildingGame.ClickTile "a"; WordBuildingGame.ClickTile "a";
              WordBuildingGame.ClickTile "i"] mixedWord))
       [Some "a"; Some "a"; Some "i"] = false.
Proof.
  assert (Hnd : NoDup (WordBuildingGame.placedTiles mixedWord))
    by constructor.
  assert (Hdup : ~ NoDup [Some "a"; Some "a"; Some "i"]).
  { intros H. apply NoDup_cons in H as [H _]. apply H, list_elem_of_here. }
  split; [exact Hnd|]. split; [exact Hdup|].
  destruct (placed_tiles_never_repeat mixedEnv sampleProps
              [WordBuildingGame.ClickTile "a"; WordBuildingGame.ClickTile "a";
               WordBuildingGame.ClickTile "i"] mixedWord Hnd) as [_ H].
  apply H. exact Hdup.
Defined.

(** X7. Checking is in progress exactly while the bottom bar shows a
    verdict, and this is kept by every event. While a verdict is shown,
    clicking a tile or the clear button changes nothing: only the main
    button (try again, continue) reopens the answer row. *)
Theorem feedback_locks_answer_row
  (env : Env) (props : WordBuildingGame.Props)
  (es : list WordBuildingGame.Event) (s : WordBuildingGame.State)
  (char : string) :
  WordBuildingView.barMatchesChecking s ->
  let s' := WordBuildingGame.run env props es s in
  WordBuildingView.barMatchesChecking s'
  /\ (WordBuildingGame.bottomBarState s' <> WordBuildingGame.check ->
      WordBuildingGame.step env props (WordBuildingGame.ClickTile char) s'
      = (Ok tt, s')
      /\ WordBuildingGame.step env props WordBuildingGame.ClickClear s'
         = (Ok tt, s')).
Proof.
  intros Hs s'.
  assert (Hs' : WordBuildingView.barMatchesChecking s')
    by now apply run_barMatchesChecking.
  split; [exact Hs'|]. intros Hbar.
  assert (Hchk : WordBuildingGame.isChecking s' = true) by now apply Hs'.
  split; apply step_stable; try done.
  - unfold WordBuildingGame.dispatch, WordBuildingGame.handleTileClick.
    now rewrite !bind_gets, Hchk.
  - unfold WordBuildingGame.dispatch. rewrite bind_gets.
    now destruct (WordBuildingGame.bottomBarState s').
Qed.

(** After the wrong check of the sample word, a click on the tile "u" is
    ignored. *)
Lemma feedback_locks_answer_row_sample :
  WordBuildingView.barMatchesChecking sampleWord
  /\ WordBuildingGame.bottomBarState
       (WordBuildingGame.run sampleEnv sampleProps
          [WordBuildingGame.ClickMainButton] sampleWord)
     <> WordBuildingGame.check
  /\ WordBuildingGame.step sampleEnv sampleProps
       (WordBuildingGame.ClickTile "u")
       (WordBuildingGame.run sampleEnv sampleProps
          [WordBuildingGame.ClickMainButton] sampleWord)
     = (Ok tt,
        WordBuildingGame.run sampleEnv sampleProps
          [WordBuildingGame.ClickMainButton] sampleWord).
Proof.
  assert (Hs : WordBuildingView.barMatchesChecking sampleWord).
  { split; [discriminate|]. intros H. now destruct H. }
  assert (Hbar : WordBuildingGame.bottomBarState
            (WordBuildingGame.run sampleEnv sampleProps
               [WordBuildingGame.ClickMainButton] sampleWord)
          <> WordBuildingGame.check) by (vm_compute; discriminate).
  split; [exact Hs|]. split; [exact Hbar|].
  destruct (feedback_locks_answer_row sampleEnv sampleProps
              [WordBuildingGame.ClickMainButton] sampleWord "u" Hs)
    as [_ Hlock].
  exact (proj1 (Hlock Hbar)).
Defined.

(** ** WordBuildingGame: clicks on the tiles *)

Section TileClicks.
Import WordBuildingGame.
Variable env : Env.
Variable props : Props.

Lemma step_tile char s :
  isChecking s = false ->
  step env props (ClickTile char) s
  = (Ok tt,
     setPlacedTiles
       (if Js.includes (placedTiles s) char
        then filter (fun c => c <> char) (placedTiles s)
        else placedTiles s ++ [char]) s).
Proof.
  intros Hc. apply step_stable; [|now destruct (Js.includes _ _)].
  unfold dispatch, handleTileClick. rewrite !bind_gets, Hc.
  now destruct (Js.includes _ _).
Qed.

Lemma filter_out_appended (placed : list string) char :
  char ∉ placed -> filter (fun c => c <> char) (placed ++ [char]) = placed.
Proof.
  intros Hn. rewrite filter_app, filter_cons, decide_False by tauto.
  rewrite filter_nil, app_nil_r.
  induction placed as [|p placed IH]; [done|].
  apply not_elem_of_cons in Hn as [Hne Hn].
  rewrite filter_cons, decide_True by done. now rewrite IH.
Qed.

Lemma run_tiles (tiles : list string) : forall s,
  isChecking s = false ->
  NoDup (placedTiles s ++ tiles) ->
  run env props (ClickTile <$> tiles) s
  = setPlacedTiles (placedTiles s ++ tiles) s.
Proof.
  unfold run. induction tiles as [|t tiles IH]; intros s Hc Hnd.
  - simpl. rewrite app_nil_r. now destruct s.
  - rewrite fmap_cons. cbn [fold_left]. rewrite step_tile by done.
    assert (Ht : Js.includes (placedTiles s) t = false).
    { apply includes_not_elem. apply NoDup_app in Hnd as (_ & Hd & _).
      intros Hin. apply (Hd t Hin), list_elem_of_here. }
    rewrite Ht. cbn [snd]. rewrite IH.
    + simpl. now rewrite <- app_assoc.
    + done.
    + simpl. now rewrite <- app_assoc.
Qed.

End TileClicks.

(** X10. While no check is in progress, a click on a tile toggles it: the
    tile is in the answer row afterwards exactly when it was not before,
    no other tile enters or leaves, and the word and the score stay. A
    tile that was not placed goes to the end of the row, and a second
    click on it gives back the state before the first. *)
Theorem tile_click_toggles
  (env : Env) (props : WordBuildingGame.Props) (s : WordBuildingGame.State)
  (char : string) :
  WordBuildingGame.isChecking s = false ->
  exists s1,
    WordBuildingGame.step env props (WordBuildingGame.ClickTile char) s
    = (Ok tt, s1)
    /\ (char ∈ WordBuildingGame.placedTiles s1
        <-> char ∉ WordBuildingGame.placedTiles s)
    /\ (forall c, c <> char ->
          c ∈ WordBuildingGame.placedTiles s1
          <-> c ∈ WordBuildingGame.placedTiles s)
    /\ (char ∉ WordBuildingGame.placedTiles s ->
        WordBuildingGame.placedTiles s1
        = WordBuildingGame.placedTiles s ++ [char]
        /\ WordBuildingGame.step env props (WordBuildingGame.ClickTile char) s1
           = (Ok tt, s))
    /\ WordBuildingGame.wordData s1 = WordBuildingGame.wordData s
    /\ WordBuildingGame.score s1 = WordBuildingGame.score s.
Proof.
  intros Hc. eexists. split; [now apply step_tile|].
  destruct (Js.includes (WordBuildingGame.placedTiles s) char) eqn:Hi.
  - apply includes_elem in Hi. simpl. split; [|split; [|split]].
    + rewrite list_elem_of_filter. tauto.
    + intros c Hne. rewrite list_elem_of_filter. tauto.
    + tauto.
    + done.
  - apply includes_not_elem in Hi. simpl. split; [|split; [|split]].
    + rewrite elem_of_app, list_elem_of_singleton. tauto.
    + intros c Hne. rewrite elem_of_app, list_elem_of_singleton. tauto.
    + intros _. split; [done|]. rewrite step_tile by done. simpl.
      assert (Hi' : Js.includes (WordBuildingGame.placedTiles s ++ [char])
                      char = true).
      { apply includes_elem, elem_of_app. right. apply list_elem_of_here. }
      rewrite Hi', filter_out_appended by done. now destruct s.
    + done.
Qed.

Lemma tile_click_toggles_sample :
  WordBuildingGame.isChecking sampleWord = false
  /\ ("u" ∉ WordBuildingGame.placedTiles sampleWord)
  /\ WordBuildingGame.run sampleEnv sampleProps
       [WordBuildingGame.ClickTile "u"; WordBuildingGame.ClickTile "u"]
       sampleWord
     = sampleWord.
Proof.
  assert (Hu : "u" ∉ WordBuildingGame.placedTiles sampleWord).
  { simpl. rewrite !not_elem_of_cons. repeat split; try discriminate.
    apply not_elem_of_nil. }
  split; [reflexivity|]. split; [exact Hu|].
  destruct (tile_click_toggles sampleEnv sampleProps sampleWord "u" eq_refl)
    as (s1 & H1 & _ & _ & H2 & _).
  destruct (H2 Hu) as [_ Hback].
  unfold WordBuildingGame.run. cbn [fold_left]. rewrite H1. cbn [snd].
  now rewrite Hback.
Defined.

(** ** WordBuildingGame: the word of a round, whatever the pool *)

Section WordShape.
Import WordBuildingGame WordBuildingView.

Lemma includesStr_spec (ds : list (option string)) c :
  Js.includesStr ds c = false <-> Some c ∉ ds.
Proof.
  induction ds as [|d ds IH]; simpl.
  - split; [intros _; apply not_elem_of_nil|done].
  - rewrite orb_false_iff, IH, not_elem_of_cons.
    destruct d as [x|]; [destruct (String.eqb_spec c x)|];
      split; intros []; split; try done; congruence.
Qed.

Lemma selectWordChars_shape (source : list string) :
  forall n wordChars (usedChars : gset string) w,
    (forall x, x ∈ usedChars <-> x ∈ wordChars) ->
    NoDup wordChars ->
    (forall x, x ∈ wordChars -> x ∈ source) ->
    exists r w',
      selectWordChars n source wordChars usedChars w = (Ok r, w')
      /\ NoDup r
      /\ (forall x, x ∈ r -> x ∈ source)
      /\ (length r <= length wordChars + n)%nat.
Proof.
  induction n as [|n IH]; intros wc used w Hused Hwc Hin.
  - simpl. exists wc, w. split; [done|]. split; [done|]. split; [done|lia].
  - cbn [selectWordChars].
    destruct (filter (fun c => c ∉ used) source) as [|c rest] eqn:Hf.
    + exists wc, w. split; [done|]. split; [done|]. split; [done|lia].
    + destruct (selectWeightedCharacter_ok (c :: rest) None w)
        as (sel & w1 & Hsel & Hcand & _); [done|].
      erewrite bind_ok by exact Hsel.
      erewrite bind_ok by apply markCharacterSeen_ok.
      simpl in Hcand. rewrite <- Hf in Hcand.
      apply list_elem_of_filter in Hcand as [Hnew Hsrc'].
      destruct (IH (wc ++ [sel]) ({[sel]} ∪ used)
                  (mkWorld (rng w1)
                     (<[sel := mkCharacterWeight
                                 (AdaptiveSelection.weightOf (weights w1) sel)
                                 true]> (weights w1))))
        as (r & w' & Hr & Hrn & Hrs & Hrl).
      * intros x. rewrite elem_of_union, elem_of_singleton, elem_of_app,
          list_elem_of_singleton, Hused. tauto.
      * apply NoDup_app. split; [done|]. split; [|apply NoDup_singleton].
        intros x Hx Hx'. apply list_elem_of_singleton in Hx'. subst x.
        apply Hnew. now apply Hused.
      * intros x Hx. apply elem_of_app in Hx as [Hx|Hx]; [now apply Hin|].
        apply list_elem_of_singleton in Hx. now subst x.
      * exists r, w'. split; [exact Hr|]. split; [done|]. split; [done|].
        rewrite length_app in Hrl. simpl in Hrl. lia.
Qed.

Lemma at_index_in (l : list string) i :
  0 <= i <= Z.of_nat (length l) - 1 ->
  exists c, at_index l i = Some c /\ c ∈ l.
Proof.
  intros Hi. unfold at_index. destruct (i <? 0) eqn:E; [lia|].
  destruct (l !! Z.to_nat i) as [c|] eqn:Hc.
  - exists c. split; [done|]. apply list_elem_of_lookup. eauto.
  - apply lookup_ge_None in Hc. lia.
Qed.

Lemma selectDistractors_shape (src : list string)
  (usedAnswers : gset (option string)) :
  forall n ds w,
    distractorsOk src usedAnswers ds ->
    exists ds' w',
      selectDistractors n src usedAnswers ds w = (Ok ds', w')
      /\ distractorsOk src usedAnswers ds'
      /\ (length ds' <= length ds + n)%nat.
Proof.
  induction n as [|n IH]; intros ds w Hok.
  - simpl. exists ds, w. split; [done|]. split; [done|lia].
  - cbn [selectDistractors].
    set (available :=
           filter (fun c => (Some c ∉ usedAnswers)
                            /\ (Js.includesStr ds c = false)) src).
    assert (Hav : forall c, c ∈ available ->
              c ∈ src /\ (Some c ∉ usedAnswers) /\ (Some c ∉ ds)).
    { intros c. unfold available.
      rewrite list_elem_of_filter, includesStr_spec. tauto. }
    destruct available as [|a rest] eqn:Havail.
    + exists ds, w. split; [done|]. split; [done|lia].
    + destruct (integer_range 0 (Z.of_nat (length (a :: rest)) - 1) w)
        as (i & w1 & Hi & Hrange & _); [simpl; lia|].
      erewrite bind_ok by exact Hi.
      destruct (at_index_in (a :: rest) i Hrange) as (c & Hc & Hcin).
      rewrite Hc. apply Hav in Hcin as (Hcsrc & Hcused & Hcnew).
      destruct (IH (ds ++ [Some c]) w1) as (ds' & w' & Hr & Hok' & Hl).
      * destruct Hok as [Hnd Hall]. split.
        -- apply NoDup_app. split; [done|]. split; [|apply NoDup_singleton].
           intros x Hx Hx'. apply list_elem_of_singleton in Hx'. now subst x.
        -- intros d Hd. apply elem_of_app in Hd as [Hd|Hd]; [now apply Hall|].
           apply list_elem_of_singleton in Hd. subst d. split; [done|].
           now exists c.
      * exists ds', w'. split; [exact Hr|]. split; [done|].
        rewrite length_app in Hl. simpl in Hl. lia.
Qed.


Lemma generateWord_shape (env : Env) (props : Props) (reverse : bool)
  (w : World) :
  let source := if reverse then selectedRomaji env else selectedKana env in
  let answers := if reverse then selectedKana env else selectedRomaji env in
  exists wd w' ds,
    generateWord env props reverse w = (Ok wd, w')
    /\ NoDup (wordChars wd)
    /\ (forall c, c ∈ wordChars wd -> c ∈ source)
    /\ (length (wordChars wd) <= wordLength props)%nat
    /\ answerChars wd
       = (if reverse
          then (fun r => Js.get (romajiToKana env) r) <$> wordChars wd
          else (fun k => Js.getStr (kanaToRomaji env) k) <$> wordChars wd)
    /\ allTiles wd ≡ₚ answerChars wd ++ ds
    /\ distractorsOk answers (list_to_set (answerChars wd)) ds
    /\ (length ds <= 3)%nat
    /\ ((length source < wordLength props)%nat ->
        wd = mkWordData [] [] [] /\ w' = w).
Proof.
  intros source answers. unfold generateWord. fold source. fold answers.
  assert (Hnil : distractorsOk answers (list_to_set []) []).
  { split; [constructor|]. intros d Hd. now apply not_elem_of_nil in Hd. }
  destruct (Nat.ltb_spec (length source) (wordLength props)) as [Hlt|Hge].
  - exists (mkWordData [] [] []), w, []. simpl.
    split; [done|]. split; [constructor|].
    split; [intros c Hc; now apply not_elem_of_nil in Hc|].
    split; [lia|]. split; [now destruct reverse|].
    split; [done|]. split; [exact Hnil|]. split; [lia|done].
  - destruct (selectWordChars_shape source (wordLength props) [] ∅ w)
      as (wc & w1 & Hwc & Hwcn & Hwcs & Hwcl).
    { intros x. rewrite elem_of_empty. split; [done|].
      intros Hx. now apply not_elem_of_nil in Hx. }
    { constructor. }
    { intros x Hx. now apply not_elem_of_nil in Hx. }
    erewrite bind_ok by exact Hwc. simpl in Hwcl.
    set (ans := if reverse
                then (fun r => Js.get (romajiToKana env) r) <$> wc
                else (fun k => Js.getStr (kanaToRomaji env) k) <$> wc).
    set (dc := Z.min 3 (Z.of_nat (length source)
                        - Z.of_nat (wordLength props))).
    destruct (selectDistractors_shape answers (list_to_set ans)
                (Z.to_nat dc) [] w1)
      as (ds & w2 & Hds & Hdok & Hdl).
    { split; [constructor|]. intros d Hd. now apply not_elem_of_nil in Hd. }
    erewrite bind_ok by exact Hds.
    destruct (sortRandom_perm (ans ++ ds) w2) as (tiles & w3 & Hs & Hp & _).
    erewrite bind_ok by exact Hs.
    exists (mkWordData wc ans tiles), w3, ds. simpl.
    split; [done|]. split; [done|]. split; [done|]. split; [lia|].
    split; [done|]. split; [done|]. split; [done|].
    split; [simpl in Hdl; unfold dc in Hdl; lia|lia].
Qed.

End WordShape.

(** X8. Whatever the pool -- repeated kana, fewer romanizations than kana,
    a pool shorter than the word -- generateWord returns: the characters of
    the word are distinct members of the source and at most wordLength of
    them, the answers are their entries in the table of the orientation,
    the tiles are the answers and the distractors in some order, and the
    distractors are at most three distinct values of the answer side, none
    of them an answer. A pool shorter than the word gives the empty word
    and draws nothing. *)
Theorem generated_word_shape
  (env : Env) (props : WordBuildingGame.Props) (reverse : bool) (w : World) :
  let source := if reverse then selectedRomaji env else selectedKana env in
  let answers := if reverse then selectedKana env else selectedRomaji env in
  exists wd w' ds,
    WordBuildingGame.generateWord env props reverse w = (Ok wd, w')
    /\ NoDup (WordBuildingGame.wordChars wd)
    /\ (forall c, c ∈ WordBuildingGame.wordChars wd -> c ∈ source)
    /\ (length (WordBuildingGame.wordChars wd)
        <= WordBuildingGame.wordLength props)%nat
    /\ WordBuildingGame.answerChars wd
       = (if reverse
          then (fun r => Js.get (WordBuildingGame.romajiToKana env) r)
                 <$> WordBuildingGame.wordChars wd
          else (fun k => Js.getStr (WordBuildingGame.kanaToRomaji env) k)
                 <$> WordBuildingGame.wordChars wd)
    /\ WordBuildingGame.allTiles wd ≡ₚ WordBuildingGame.answerChars wd ++ ds
    /\ NoDup ds
    /\ (length ds <= 3)%nat
    /\ (forall d, d ∈ ds ->
          (d ∉ WordBuildingGame.answerChars wd)
          /\ exists c, d = Some c /\ c ∈ answers)
    /\ ((length source < WordBuildingGame.wordLength props)%nat ->
        wd = WordBuildingGame.mkWordData [] [] [] /\ w' = w).
Proof.
  intros source answers.
  destruct (generateWord_shape env props reverse w)
    as (wd & w' & ds & Hg & H1 & H2 & H3 & H4 & H5 & [H6 H7] & H8 & H9).
  exists wd, w', ds. repeat (split; [done|]).
  split; [|done]. intros d Hd. destruct (H7 d Hd) as [Hn Hc].
  split; [|exact Hc]. intros Hin. apply Hn. now apply elem_of_list_to_set.
Qed.

(** ** WordBuildingGame: a generated word can be solved *)

Section Solvable.
Import WordBuildingGame WordBuildingView.
Variable env : Env.
Variable props : Props.
Hypothesis kana_nodup : NoDup (selectedKana env).
Hypothesis romaji_nodup : NoDup (selectedRomaji env).
Hypothesis same_length :
  length (selectedKana env) = length (selectedRomaji env).

Lemma generateWord_answers reverse w :
  (wordLength props <= length (selectedKana env))%nat ->
  exists wd w' vs,
    generateWord env props reverse w = (Ok wd, w')
    /\ answerChars wd = Some <$> vs
    /\ NoDup vs
    /\ length vs = wordLength props
    /\ length (wordChars wd) = wordLength props
    /\ (forall v, Some v ∈ answerChars wd -> Some v ∈ allTiles wd).
Proof.
  intros Hwl.
  destruct (generateWord_shape env props reverse w)
    as (wd & w' & ds & Hg & Hwn & Hws & _ & Ha & Hp & _).
  destruct (generateWord_spec env kana_nodup romaji_nodup same_length
              props reverse w Hwl)
    as (wd' & w'' & Hg' & Hl1 & Hl2 & _ & Hnd & _).
  rewrite Hg in Hg'. injection Hg' as <- <-.
  set (qs := if reverse then selectedRomaji env else selectedKana env) in *.
  set (ans := if reverse then selectedKana env else selectedRomaji env).
  set (f := fun q : string =>
              if reverse then Js.get (romajiToKana env) q
              else Js.getStr (kanaToRomaji env) q).
  assert (Hf : forall i q, qs !! i = Some q -> f q = ans !! i).
  { intros i q Hq. unfold f, qs, ans in *. destruct reverse.
    - now apply romajiToKana_get.
    - now apply kanaToRomaji_get. }
  destruct (paired_answers qs ans f) with (wc := wordChars wd)
    as (vs & Hvs & Hvn & _ & Hvl & _).
  { unfold ans. now destruct reverse. }
  { exact Hf. }
  { unfold qs, ans. now destruct reverse. }
  { exact Hwn. }
  { exact Hws. }
  exists wd, w', vs. split; [done|].
  assert (Hans : answerChars wd = Some <$> vs).
  { rewrite Ha, <- Hvs. unfold f. now destruct reverse. }
  split; [exact Hans|]. split; [done|]. split; [lia|]. split; [done|].
  intros v Hv. rewrite Hp. apply elem_of_app. now left.
Qed.

Lemma resetGame_ok s wd w' :
  generateWord env props (isReverse props s) (world s) = (Ok wd, w') ->
  resetGame env props s
  = (Ok tt, mkState w' wd [] false check (score s) (reverseMode s)).
Proof.
  intros Hg. unfold resetGame. rewrite bind_gets.
  erewrite bind_ok by (apply wb_inWorld_ok; exact Hg).
  now rewrite !bind_modify.
Qed.

Lemma step_check_correct s t ts :
  bottomBarState s = check ->
  placedTiles s = t :: ts ->
  isCorrect (placedTiles s) (answerChars (wordData s)) = true ->
  score (snd (step env props ClickMainButton s))
  = score s + Z.of_nat (length (wordChars (wordData s))).
Proof.
  intros Hb Hp Hc.
  destruct (handleCheck_correct env props s t ts Hp Hc) as (w1 & m1 & Hh & _).
  unfold step. rewrite bind_gets.
  assert (Hd : dispatch env props ClickMainButton s = handleCheck env props s).
  { unfold dispatch. rewrite bind_gets. now rewrite Hb. }
  erewrite bind_ok by (rewrite Hd; exact Hh).
  now rewrite (proj1 (commitEffects_frame env props _ _)).
Qed.

End Solvable.

(** X9. On a pool of distinct kana with distinct romanizations, as many of
    the one as of the other, and a word length between one and the size of
    the pool, every word that resetGame generates can be solved from its
    own tiles: each answer is among the tiles, placing the answers in
    order on the fresh word makes the check a correct one, and that check
    adds the word length to the score. *)
Theorem generated_word_is_solvable
  (env : Env) (props : WordBuildingGame.Props) (s : WordBuildingGame.State) :
  NoDup (selectedKana env) ->
  NoDup (selectedRomaji env) ->
  length (selectedKana env) = length (selectedRomaji env) ->
  (1 <= WordBuildingGame.wordLength props <= length (selectedKana env))%nat ->
  exists s0 tiles,
    WordBuildingGame.resetGame env props s = (Ok tt, s0)
    /\ WordBuildingGame.answerChars (WordBuildingGame.wordData s0)
       = Some <$> tiles
    /\ (forall t, t ∈ tiles ->
          Some t ∈ WordBuildingGame.allTiles (WordBuildingGame.wordData s0))
    /\ let s1 := WordBuildingGame.run env props
                   (WordBuildingGame.ClickTile <$> tiles) s0 in
       WordBuildingGame.placedTiles s1 = tiles
       /\ WordBuildingGame.isCorrectCheck WordBuildingGame.ClickMainButton s1
          = true
       /\ WordBuildingGame.score
            (WordBuildingGame.run env props
               [WordBuildingGame.ClickMainButton] s1)
          = WordBuildingGame.score s
            + Z.of_nat (WordBuildingGame.wordLength props).
Proof.
  intros Hk Hr Hl [Hw1 Hw2].
  destruct (generateWord_answers env props Hk Hr Hl
              (WordBuildingGame.isReverse props s)
              (WordBuildingGame.world s) Hw2)
    as (wd & w' & vs & Hg & Ha & Hnd & Hvl & Hwl & Htiles).
  eexists _, vs. split; [apply resetGame_ok; exact Hg|]. cbn zeta.
  split; [exact Ha|].
  split.
  { intros t Ht. apply Htiles. rewrite Ha. apply list_elem_of_fmap.
    now exists t. }
  rewrite run_tiles by done. simpl.
  destruct vs as [|v vs']; [simpl in Hvl; lia|].
  split; [done|]. split.
  - apply isCorrect_spec. exact Ha.
  - rewrite (step_check_correct env props _ v vs'); simpl; try done.
    + now rewrite Hwl.
    + apply isCorrect_spec. exact Ha.
Qed.

Lemma generated_word_is_solvable_sample :
  NoDup (selectedKana sampleEnv)
  /\ exists s0 tiles,
       WordBuildingGame.resetGame sampleEnv sampleProps sampleWord = (Ok tt, s0)
       /\ WordBuildingGame.score
            (WordBuildingGame.run sampleEnv sampleProps
               ((WordBuildingGame.ClickTile <$> tiles)
                ++ [WordBuildingGame.ClickMainButton]) s0)
          = WordBuildingGame.score sampleWord + 3.
Proof.
  assert (Hk : NoDup (selectedKana sampleEnv)) by compute_done.
  assert (Hr : NoDup (selectedRomaji sampleEnv)) by compute_done.
  split; [exact Hk|].
  destruct (generated_word_is_solvable sampleEnv sampleProps sampleWord
              Hk Hr eq_refl)
    as (s0 & tiles & H0 & _ & _ & _ & _ & Hs).
  { simpl. lia. }
  exists s0, tiles. split; [exact H0|].
  unfold WordBuildingGame.run in *. rewrite fold_left_app. exact Hs.
Defined.

(** ** Dictionaries with repeated keys *)

Section Dictionaries.
Context {V : Type}.
Implicit Types (o : Js.Obj V) (k : string) (v : V).

Lemma get_set o k v k' :
  Js.get (Js.set o k v) k' = if String.eqb k k' then Some v else Js.get o k'.
Proof.
  induction o as [|[k0 v0] o IH]; simpl.
  - now destruct (String.eqb k k').
  - destruct (String.eqb_spec k0 k) as [->|Hne]; simpl.
    + now destruct (String.eqb k k').
    + rewrite IH. destruct (String.eqb_spec k0 k') as [->|Hne'].
      * destruct (String.eqb_spec k k'); [congruence|done].
      * done.
Qed.

Lemma get_app o1 o2 k :
  Js.get (o1 ++ o2) k
  = match Js.get o1 k with Some v => Some v | None => Js.get o2 k end.
Proof.
  induction o1 as [|[k0 v0] o1 IH]; simpl; [done|].
  now destruct (String.eqb k0 k).
Qed.

Lemma get_fold (es : list (string * V)) : forall acc k,
  Js.get (fold_left (fun o kv => Js.set o kv.1 kv.2) es acc) k
  = match Js.get (reverse es) k with
    | Some v => Some v
    | None => Js.get acc k
    end.
Proof.
  induction es as [|[k0 v0] es IH]; intros acc k; simpl; [done|].
  rewrite IH, reverse_cons, get_app, get_set. simpl.
  destruct (Js.get (reverse es) k); [done|].
  now destruct (String.eqb k0 k).
Qed.

Lemma get_fromEntries (es : list (string * V)) k :
  Js.get (Js.fromEntries es) k = Js.get (reverse es) k.
Proof.
  unfold Js.fromEntries. rewrite get_fold. simpl.
  now destruct (Js.get (reverse es) k).
Qed.

Lemma set_keys o k v x : x ∈ (Js.set o k v).*1 <-> x = k \/ x ∈ o.*1.
Proof.
  induction o as [|[k0 v0] o IH]; simpl.
  - rewrite list_elem_of_singleton, elem_of_nil. tauto.
  - destruct (String.eqb_spec k0 k) as [->|Hne]; simpl.
    + rewrite !elem_of_cons. tauto.
    + rewrite !elem_of_cons, IH. tauto.
Qed.

Lemma set_keys_nodup o k v : NoDup (o.*1) -> NoDup ((Js.set o k v).*1).
Proof.
  induction o as [|[k0 v0] o IH]; simpl; intros Hnd.
  - apply NoDup_singleton.
  - apply NoDup_cons in Hnd as [Hk0 Hnd].
    destruct (String.eqb_spec k0 k) as [->|Hne]; simpl.
    + now apply NoDup_cons.
    + apply NoDup_cons. split; [|now apply IH].
      rewrite set_keys. intros [?|?]; [congruence|done].
Qed.

Lemma fromEntries_keys_nodup (es : list (string * V)) :
  NoDup ((Js.fromEntries es).*1).
Proof.
  unfold Js.fromEntries.
  assert (H : forall acc, NoDup (acc.*1) ->
    NoDup ((fold_left (fun o kv => Js.set o kv.1 kv.2) es acc).*1)).
  { induction es as [|[k v] es IH]; intros acc Hacc; simpl; [done|].
    apply IH. now apply set_keys_nodup. }
  apply H. constructor.
Qed.

Lemma get_in o k v : Js.get o k = Some v -> (k, v) ∈ o.
Proof.
  induction o as [|[k0 v0] o IH]; simpl; [done|].
  destruct (String.eqb_spec k0 k) as [->|Hne].
  - intros [= ->]. apply list_elem_of_here.
  - intros H. apply list_elem_of_further. now apply IH.
Qed.

Lemma get_unique o k v :
  (k, v) ∈ o -> (forall v', (k, v') ∈ o -> v' = v) -> Js.get o k = Some v.
Proof.
  intros Hin Hu. destruct (Js.get o k) as [v'|] eqn:Hg.
  - f_equal. apply Hu. now apply get_in.
  - exfalso. induction o as [|[k0 v0] o IH]; simpl in *.
    + now apply not_elem_of_nil in Hin.
    + destruct (String.eqb_spec k0 k) as [->|Hne]; [done|].
      apply elem_of_cons in Hin as [Heq|Hin]; [congruence|].
      apply IH; [done| |done].
      intros v' Hv'. apply Hu. now apply list_elem_of_further.
Qed.

Lemma fromEntries_elem (es : list (string * V)) k v :
  (k, v) ∈ Js.fromEntries es <-> Js.get (reverse es) k = Some v.
Proof.
  rewrite <- get_fromEntries. split.
  - apply get_elem, fromEntries_keys_nodup.
  - apply get_in.
Qed.

End Dictionaries.

(** The first and the last entry of an indexed table. *)

Section IndexedTables.
Context {V : Type}.
Variable g : nat -> V.

Lemma mapi_from_app {A B : Type} (f : A -> nat -> B) (l1 l2 : list A) :
  forall i,
    Js.mapi_from i f (l1 ++ l2)
    = Js.mapi_from i f l1 ++ Js.mapi_from (i + length l1) f l2.
Proof.
  induction l1 as [|x l1 IH]; intros i; simpl.
  - now rewrite Nat.add_0_r.
  - rewrite IH. do 3 f_equal. lia.
Qed.

Lemma get_mapi_first (keys : list string) k v : forall i0,
  Js.get (Js.mapi_from i0 (fun key j => (key, g j)) keys) k = Some v
  <-> exists i, keys !! i = Some k /\ v = g (i0 + i)%nat
                /\ forall j, (j < i)%nat -> keys !! j <> Some k.
Proof.
  induction keys as [|x keys IH]; intros i0; simpl.
  - split; [done|]. now intros (i & Hi & _).
  - destruct (String.eqb_spec x k) as [->|Hne].
    + split.
      * intros [= <-]. exists 0%nat. rewrite Nat.add_0_r.
        split; [done|]. split; [done|]. intros j Hj. lia.
      * intros (i & Hi & -> & Hfirst). destruct i as [|i].
        -- now rewrite Nat.add_0_r.
        -- exfalso. apply (Hfirst 0%nat); [lia|done].
    + rewrite IH. split.
      * intros (i & Hi & -> & Hfirst). exists (S i).
        split; [done|]. split; [f_equal; lia|].
        intros [|j] Hj; simpl; [congruence|]. apply Hfirst. lia.
      * intros ([|i] & Hi & -> & Hfirst); simpl in Hi; [congruence|].
        exists i. split; [done|]. split; [f_equal; lia|].
        intros j Hj. apply (Hfirst (S j)). lia.
Qed.

Lemma get_mapi_none (keys : list string) k : forall i0,
  Js.get (reverse (Js.mapi_from i0 (fun key j => (key, g j)) keys)) k = None
  <-> k ∉ keys.
Proof.
  induction keys as [|x keys IH]; intros i0; simpl.
  - split; [intros _; apply not_elem_of_nil|done].
  - rewrite reverse_cons, get_app, not_elem_of_cons. simpl.
    destruct (Js.get (reverse _) k) eqn:Hg.
    + split; [done|]. intros [_ Hn]. apply (IH (S i0)) in Hn. congruence.
    + apply IH in Hg. destruct (String.eqb_spec x k) as [->|Hne].
      * split; [done|]. now intros [? _].
      * split; [intros _; split; [congruence|done]|done].
Qed.

Lemma get_mapi_last (keys : list string) k : forall i0 v,
  Js.get (reverse (Js.mapi_from i0 (fun key j => (key, g j)) keys)) k
  = Some v
  <-> exists i, keys !! i = Some k /\ v = g (i0 + i)%nat
                /\ forall j, (i < j)%nat -> keys !! j <> Some k.
Proof.
  induction keys as [|x keys IH]; intros i0 v; simpl.
  - split; [done|]. now intros (i & Hi & _).
  - rewrite reverse_cons, get_app. simpl.
    destruct (Js.get (reverse _) k) as [v'|] eqn:Hg.
    + apply IH in Hg as (i & Hi & -> & Hlast). split.
      * intros [= <-]. exists (S i). split; [done|].
        split; [f_equal; lia|].
        intros [|j] Hj; [lia|]. simpl. apply Hlast. lia.
      * intros ([|i'] & Hi' & -> & Hlast'); simpl in Hi'.
        -- exfalso. apply (Hlast' (S i)); [lia|done].
        -- destruct (Nat.lt_trichotomy i i') as [Hlt|[->|Hgt]].
           ++ exfalso. now apply (Hlast i').
           ++ do 2 f_equal. lia.
           ++ exfalso. apply (Hlast' (S i)); [lia|done].
    + apply get_mapi_none in Hg.
      destruct (String.eqb_spec x k) as [->|Hne].
      * split.
        -- intros [= <-]. exists 0%nat. rewrite Nat.add_0_r.
           split; [done|]. split; [done|].
           intros [|j] Hj; [lia|]. simpl. intros Hk. apply Hg.
           apply list_elem_of_lookup. eauto.
        -- intros ([|i] & Hi & -> & _); simpl in Hi.
           ++ now rewrite Nat.add_0_r.
           ++ exfalso. apply Hg. apply list_elem_of_lookup. eauto.
      * split; [done|].
        intros ([|i] & Hi & _); simpl in Hi; [congruence|].
        exfalso. apply Hg. apply list_elem_of_lookup. eauto.
Qed.

End IndexedTables.

Lemma strictEq_true_Some (a : option string) (y : string) :
  Js.strictEq a (Some y) = true <-> a = Some y.
Proof.
  destruct a as [x|]; simpl; [|done].
  destruct (String.eqb_spec x y); split; congruence.
Qed.

(** ** PickGame: which option is taken as right *)

Section PickVerdict.
Import PickGame PickGameView.
Variable env : Env.


Lemma selectedPairs1_elem r v :
  (r, v) ∈ selectedPairs1 env
  <-> exists i, lastIndexOf (selectedRomaji env) r i
                /\ v = selectedKana env !! i.
Proof.
  unfold selectedPairs1, Js.mapi, lastIndexOf.
  rewrite fromEntries_elem, get_mapi_last. simpl. split.
  - intros (i & Hi & -> & Hl). now exists i.
  - intros (i & [Hi Hl] & ->). now exists i.
Qed.

Lemma selectedPairs2_elem r v :
  (r, v) ∈ selectedPairs2 env
  <-> exists i, firstIndexOf (selectedRomaji env) r i
                /\ v = selectedKana env !! i.
Proof.
  unfold selectedPairs2, Js.mapi, firstIndexOf.
  rewrite fromEntries_elem, reverse_involutive, get_mapi_first. simpl. split.
  - intros (i & Hi & -> & Hl). now exists i.
  - intros (i & [Hi Hl] & ->). now exists i.
Qed.


Hypothesis kana_nodup : NoDup (selectedKana env).
Hypothesis same_length :
  length (selectedKana env) = length (selectedRomaji env).

Lemma fromPool_index r i :
  selectedRomaji env !! i = Some r ->
  exists k, selectedKana env !! i = Some k.
Proof.
  intros Hr. apply lookup_lt_Some in Hr.
  destruct (selectedKana env !! i) as [k|] eqn:Hk; [now exists k|].
  apply lookup_ge_None in Hk. lia.
Qed.

Lemma selectedPairs1_fromPool : fromPool env (selectedPairs1 env).
Proof.
  intros r v Hin. apply selectedPairs1_elem in Hin as (i & [Hi _] & ->).
  destruct (fromPool_index r i Hi) as [k Hk]. now exists i, k.
Qed.

Lemma selectedPairs2_fromPool : fromPool env (selectedPairs2 env).
Proof.
  intros r v Hin. apply selectedPairs2_elem in Hin as (i & [Hi _] & ->).
  destruct (fromPool_index r i Hi) as [k Hk]. now exists i, k.
Qed.

Lemma fromPool_inj table r r' k :
  fromPool env table -> (r, Some k) ∈ table -> (r', Some k) ∈ table -> r = r'.
Proof.
  intros Hp H1 H2.
  destruct (Hp _ _ H1) as (i & k1 & Hr1 & Hk1 & [= <-]).
  destruct (Hp _ _ H2) as (j & k2 & Hr2 & Hk2 & [= <-]).
  assert (i = j) by (eapply NoDup_lookup; eauto). subst j. congruence.
Qed.

Lemma reversed_get table sel r :
  fromPool env table ->
  Js.get (Js.fromEntries (swapEntry <$> Js.entries table)) sel = Some r
  <-> (r, Some sel) ∈ table.
Proof.
  intros Hp. rewrite get_fromEntries. unfold Js.entries. split.
  - intros Hg. apply get_in, elem_of_reverse, list_elem_of_fmap in Hg
      as ([r0 v] & Heq & Hin).
    destruct (Hp _ _ Hin) as (i & k & _ & _ & ->).
    unfold swapEntry in Heq. simpl in Heq. now injection Heq as -> ->.
  - intros Hin. apply get_unique.
    + apply elem_of_reverse, list_elem_of_fmap. now exists (r, Some sel).
    + intros r' Hr'. apply elem_of_reverse, list_elem_of_fmap in Hr'
        as ([r0 v] & Heq & Hin').
      destruct (Hp _ _ Hin') as (i & k & _ & _ & ->).
      unfold swapEntry in Heq. simpl in Heq. injection Heq as -> ->.
      eapply fromPool_inj; eauto.
Qed.

Lemma reverse_verdict_spec r sel :
  SmartReverseMode.isReverse (reverseMode r) = true ->
  isRightOption env r sel = true
  <-> exists i,
        selectedKana env !! i = Some sel
        /\ (firstIndexOf (selectedRomaji env) (correctRomajiCharReverse r) i
            \/ lastIndexOf (selectedRomaji env) (correctRomajiCharReverse r) i).
Proof.
  intros Hrev. unfold isRightOption. rewrite Hrev. simpl.
  rewrite orb_true_iff, !strictEq_true_Some.
  unfold reversedPairs1, reversedPairs2.
  rewrite (reversed_get _ _ _ selectedPairs1_fromPool),
    (reversed_get _ _ _ selectedPairs2_fromPool),
    selectedPairs1_elem, selectedPairs2_elem.
  split.
  - intros [(i & Hi & Hk)|(i & Hi & Hk)]; exists i; split; auto.
  - intros (i & Hk & [Hi|Hi]); [right|left]; exists i; split; auto.
Qed.


Lemma firstIndexOf_exists (l : list string) x :
  x ∈ l -> exists i, firstIndexOf l x i.
Proof.
  induction l as [|y l IH]; intros Hin; [now apply not_elem_of_nil in Hin|].
  destruct (decide (y = x)) as [->|Hne].
  - exists 0%nat. split; [done|]. intros j Hj. lia.
  - apply elem_of_cons in Hin as [?|Hin]; [congruence|].
    destruct (IH Hin) as (i & Hi & Hf). exists (S i). split; [done|].
    intros [|j] Hj; simpl; [congruence|]. apply Hf. lia.
Qed.

Lemma lastIndexOf_exists (l : list string) x :
  x ∈ l -> exists i, lastIndexOf l x i.
Proof.
  induction l as [|y l IH]; intros Hin; [now apply not_elem_of_nil in Hin|].
  destruct (decide (x ∈ l)) as [Hl|Hl].
  - destruct (IH Hl) as (i & Hi & Hf). exists (S i). split; [done|].
    intros [|j] Hj; [lia|]. simpl. apply Hf. lia.
  - apply elem_of_cons in Hin as [->|Hin]; [|done].
    exists 0%nat. split; [done|]. intros [|j] Hj; [lia|]. simpl.
    intros Hj'. apply Hl. apply list_elem_of_lookup. eauto.
Qed.

Lemma reverse_table_fromPool table :
  tableFor env true table -> fromPool env table.
Proof.
  intros [-> | ->];
    [apply selectedPairs1_fromPool|apply selectedPairs2_fromPool].
Qed.

Lemma reverse_table_keys table :
  tableFor env true table -> NoDup (table.*1).
Proof. intros [-> | ->]; apply fromEntries_keys_nodup. Qed.

Lemma reverse_table_get table asked :
  tableFor env true table ->
  asked ∈ selectedRomaji env ->
  exists i c,
    Js.getStr table asked = Some c
    /\ selectedKana env !! i = Some c
    /\ (firstIndexOf (selectedRomaji env) asked i
        \/ lastIndexOf (selectedRomaji env) asked i).
Proof.
  intros Ht Hin. destruct Ht as [-> | ->].
  - destruct (lastIndexOf_exists _ _ Hin) as [i Hi].
    destruct (fromPool_index asked i (proj1 Hi)) as [c Hc].
    exists i, c. split; [|split; [done|now right]].
    assert (He : (asked, Some c) ∈ selectedPairs1 env).
    { apply selectedPairs1_elem. now exists i. }
    pose proof (get_elem (selectedPairs1 env) asked (Some c)
                  (fromEntries_keys_nodup _) He) as Hg.
    unfold Js.getStr. now rewrite Hg.
  - destruct (firstIndexOf_exists _ _ Hin) as [i Hi].
    destruct (fromPool_index asked i (proj1 Hi)) as [c Hc].
    exists i, c. split; [|split; [done|now left]].
    assert (He : (asked, Some c) ∈ selectedPairs2 env).
    { apply selectedPairs2_elem. now exists i. }
    pose proof (get_elem (selectedPairs2 env) asked (Some c)
                  (fromEntries_keys_nodup _) He) as Hg.
    unfold Js.getStr. now rewrite Hg.
Qed.

Lemma omit_elem {V : Type} (o : Js.Obj V) k k' (v : V) :
  (k', v) ∈ Js.omit o k <-> (k', v) ∈ o /\ k' <> k.
Proof.
  unfold Js.omit. rewrite list_elem_of_filter. simpl.
  destruct (String.eqb_spec k' k); split; intros []; split; done.
Qed.

Lemma reverse_others table asked :
  tableFor env true table ->
  NoDup (Js.values (Js.omit table asked))
  /\ forall o, o ∈ Js.values (Js.omit table asked) ->
       exists j k r, o = Some k /\ selectedKana env !! j = Some k
                     /\ selectedRomaji env !! j = Some r /\ r <> asked.
Proof.
  intros Ht. pose proof (reverse_table_fromPool table Ht) as Hp.
  pose proof (reverse_table_keys table Ht) as Hk. split.
  - unfold Js.values. apply NoDup_fmap_2_strong.
    + intros [r1 v1] [r2 v2] H1 H2 Hv. simpl in Hv. subst v2.
      apply omit_elem in H1 as [H1 _]. apply omit_elem in H2 as [H2 _].
      destruct (Hp _ _ H1) as (i & k & _ & _ & ->).
      f_equal. eapply fromPool_inj; eauto.
    + unfold Js.omit. apply NoDup_filter. exact (NoDup_fmap_1 fst _ Hk).
  - intros o Ho. apply list_elem_of_fmap in Ho as ([r v] & -> & Hin).
    apply omit_elem in Hin as [Hin Hne].
    destruct (Hp _ _ Hin) as (j & k & Hr & Hkk & ->).
    exists j, k, r. done.
Qed.

Lemma slice0_sublist {A : Type} n (l : list A) : Js.slice0 n l `sublist_of` l.
Proof. unfold Js.slice0. destruct (0 <=? n); apply sublist_take. Qed.

Lemma reverse_round s w :
  SmartReverseMode.isReverse (reverseMode s) = true ->
  correctRomajiCharReverse s ∈ selectedRomaji env ->
  exists opts w' c,
    presentedOptions env s w = (Ok opts, w')
    /\ NoDup opts
    /\ Some c ∈ opts
    /\ forall o, o ∈ opts ->
         exists k, o = Some k /\ k ∈ selectedKana env
                   /\ (isRightOption env s k = true <-> k = c).
Proof.
  intros Hrev Hin. unfold presentedOptions, shuffledVariants. rewrite Hrev.
  set (asked := correctRomajiCharReverse s) in *.
  destruct (correctKanaCharReverse_ok env asked w)
    as (t1 & w1 & H1 & Ht1 & _).
  erewrite bind_ok by exact H1.
  destruct (getIncorrectOptions_ok env true (correctKanaChar s) asked
              (ProgressiveDifficulty.optionCount (difficulty s)) w1)
    as (t2 & p & w2 & H2 & Ht2 & Hp & _).
  erewrite bind_ok by exact H2. simpl in Hp.
  destruct (reverse_table_get t1 asked Ht1 Hin) as (i & c & Hc & Hkc & Hic).
  rewrite Hc.
  set (inc := Js.slice0 (ProgressiveDifficulty.optionCount (difficulty s) - 1)
                p).
  destruct (sortRandom_perm (Some c :: inc) w2) as (opts & w3 & H3 & Hperm & _).
  destruct (reverse_others t2 asked Ht2) as [Hnd Hoth].
  assert (Hinc : forall o, o ∈ inc ->
            exists j k r, o = Some k /\ selectedKana env !! j = Some k
                          /\ selectedRomaji env !! j = Some r /\ r <> asked).
  { intros o Ho. apply Hoth. rewrite <- Hp.
    eapply elem_of_sublist; [exact Ho|apply slice0_sublist]. }
  assert (Hright : isRightOption env s c = true).
  { apply reverse_verdict_spec; [done|]. now exists i. }
  assert (Hwrong : forall j k r,
            selectedKana env !! j = Some k ->
            selectedRomaji env !! j = Some r -> r <> asked ->
            isRightOption env s k = false).
  { intros j k r Hk Hr Hne. apply not_true_is_false. intros Hk'.
    apply reverse_verdict_spec in Hk' as (i' & Hki' & Hi'); [|done].
    assert (i' = j) by exact (NoDup_lookup _ _ _ _ kana_nodup Hki' Hk).
    subst i'.
    destruct Hi' as [[Hi' _]|[Hi' _]]; fold asked in Hi'; congruence. }
  exists opts, w3, c. split; [exact H3|]. split; [|split].
  - rewrite Hperm. apply NoDup_cons. split.
    + intros Hcin. destruct (Hinc _ Hcin) as (j & k & r & [= <-] & Hk & Hr & Hne).
      rewrite (Hwrong j c r Hk Hr Hne) in Hright. discriminate.
    + eapply sublist_NoDup; [|apply slice0_sublist]. now rewrite Hp.
  - rewrite Hperm. apply list_elem_of_here.
  - intros o Ho. rewrite Hperm in Ho. apply elem_of_cons in Ho as [->|Ho].
    + exists c. split; [done|]. split.
      * apply list_elem_of_lookup. eauto.
      * split; [done|]. now intros _.
    + destruct (Hinc _ Ho) as (j & k & r & -> & Hk & Hr & Hne).
      exists k. split; [done|]. split.
      * apply list_elem_of_lookup. eauto.
      * rewrite (Hwrong j k r Hk Hr Hne). split; [done|].
        intros ->. rewrite (Hwrong j c r Hk Hr Hne) in Hright. discriminate.
Qed.

End PickVerdict.



(** X2. In the romanization-to-kana orientation, on a pool of distinct
    kana with as many romanizations as kana, the clicked kana is taken as
    right exactly when it stands at the first or at the last place where
    the romanization asked occurs: romanizations may repeat, and of the
    kana that share one only the first and the last are accepted. *)
Theorem reverse_verdict (env : Env) (r : PickGame.State) (sel : string) :
  SmartReverseMode.isReverse (PickGame.reverseMode r) = true ->
  NoDup (selectedKana env) ->
  length (selectedKana env) = length (selectedRomaji env) ->
  PickGame.isRightOption env r sel = true
  <-> exists i,
        selectedKana env !! i = Some sel
        /\ (PickGameView.firstIndexOf (selectedRomaji env)
              (PickGame.correctRomajiCharReverse r) i
            \/ PickGameView.lastIndexOf (selectedRomaji env)
                 (PickGame.correctRomajiCharReverse r) i).
Proof.
  intros Hrev Hk Hl. now apply reverse_verdict_spec.
Qed.

Lemma reverse_verdict_sample :
  NoDup (selectedKana mixedEnv)
  /\ PickGame.isRightOption mixedEnv mixedPickReverse "ア" = true.
Proof.
  assert (Hk : NoDup (selectedKana mixedEnv)) by compute_done.
  split; [exact Hk|].
  apply (reverse_verdict mixedEnv mixedPickReverse "ア" eq_refl Hk eq_refl).
  exists 1%nat. split; [reflexivity|]. right. split; [reflexivity|].
  intros [|[|[|j]]] Hj; simpl; try lia; discriminate.
Defined.

(** X3. In the romanization-to-kana orientation, on a pool of distinct
    kana with as many romanizations as kana, the options of a round are
    distinct kana of the pool and exactly one of them is taken as right,
    also when romanizations repeat in the pool. *)
Theorem reverse_round_one_right_option
  (env : Env) (s : PickGame.State) (w : World) :
  SmartReverseMode.isReverse (PickGame.reverseMode s) = true ->
  NoDup (selectedKana env) ->
  length (selectedKana env) = length (selectedRomaji env) ->
  PickGame.correctRomajiCharReverse s ∈ selectedRomaji env ->
  exists opts w' c,
    PickGame.presentedOptions env s w = (Ok opts, w')
    /\ NoDup opts
    /\ Some c ∈ opts
    /\ forall o, o ∈ opts ->
         exists k, o = Some k /\ k ∈ selectedKana env
                   /\ (PickGame.isRightOption env s k = true <-> k = c).
Proof.
  intros Hrev Hk Hl Hin. now apply reverse_round.
Qed.

Lemma reverse_round_one_right_option_sample :
  NoDup (selectedKana mixedEnv)
  /\ exists opts w' c,
       PickGame.presentedOptions mixedEnv mixedPickReverse sampleWorld
       = (Ok opts, w')
       /\ NoDup opts /\ Some c ∈ opts.
Proof.
  assert (Hk : NoDup (selectedKana mixedEnv)) by compute_done.
  assert (Hin : PickGame.correctRomajiCharReverse mixedPickReverse
                ∈ selectedRomaji mixedEnv) by apply list_elem_of_here.
  split; [exact Hk|].
  destruct (reverse_round_one_right_option mixedEnv mixedPickReverse
              sampleWorld eq_refl Hk eq_refl Hin)
    as (opts & w' & c & H1 & H2 & H3 & _).
  now exists opts, w', c.
Defined.

(** ** PickGame: presses on the option buttons *)

Section PickPresses.
Import PickGame PickGameView.
Variable env : Env.

Lemma handleOptionClick_right_wrongs selectedChar s :
  isRightOption env s selectedChar = true ->
  wrongSelectedAnswers (snd (handleOptionClick env selectedChar s)) = [].
Proof.
  intros H. unfold handleOptionClick. rewrite bind_gets, H.
  destruct (negb _).
  - destruct (handleCorrectAnswer_spec env s (correctKanaChar s) s)
      as (w1 & mode1 & H1).
    erewrite bind_ok by exact H1.
    match goal with
    | |- context [(inWorld ?m ≫= _) ?st] =>
        destruct (pick_inWorld_frame m st) as [w2 H2];
        destruct (inWorld m st) as [[c|e] s2] eqn:E; simpl in H2; subst s2
    end.
    + erewrite bind_ok by exact E.
      erewrite bind_ok
        by (apply pick_inWorld_ok; apply markCharacterSeen_ok).
      reflexivity.
    + erewrite bind_err by exact E. reflexivity.
  - destruct (handleCorrectAnswer_spec env s (correctRomajiCharReverse s) s)
      as (w1 & mode1 & H1).
    erewrite bind_ok by exact H1.
    match goal with
    | |- context [(inWorld ?m ≫= _) ?st] =>
        destruct (pick_inWorld_frame m st) as [w2 H2];
        destruct (inWorld m st) as [[c|e] s2] eqn:E; simpl in H2; subst s2
    end.
    + erewrite bind_ok by exact E.
      erewrite bind_ok
        by (apply pick_inWorld_ok; apply markCharacterSeen_ok).
      reflexivity.
    + erewrite bind_err by exact E. reflexivity.
Qed.

Lemma isRightOption_ext s s' c :
  correctKanaChar s' = correctKanaChar s ->
  correctRomajiCharReverse s' = correctRomajiCharReverse s ->
  SmartReverseMode.isReverse (reverseMode s')
  = SmartReverseMode.isReverse (reverseMode s) ->
  isRightOption env s' c = isRightOption env s c.
Proof. intros H1 H2 H3. unfold isRightOption. now rewrite H1, H2, H3. Qed.

Lemma pressOption_wrongsRecorded c s :
  wrongsRecorded env s -> wrongsRecorded env (snd (pressOption env c s)).
Proof.
  intros [Hnd Hall]. unfold pressOption. rewrite bind_gets.
  destruct (isWrong s c) eqn:Hw; [done|].
  apply includes_not_elem in Hw.
  destruct (isRightOption env s c) eqn:Hr.
  - split.
    + rewrite handleOptionClick_right_wrongs by done. constructor.
    + intros x. rewrite handleOptionClick_right_wrongs by done.
      intros Hx. now apply not_elem_of_nil in Hx.
  - rewrite handleOptionClick_wrong by done.
    destruct (handleWrongAnswer_spec env s c s) as [w' ->]. cbn [snd].
    split; simpl.
    + apply NoDup_app. split; [done|]. split; [|apply NoDup_singleton].
      intros x Hx Hx'. apply list_elem_of_singleton in Hx'. now subst x.
    + intros x Hx.
      erewrite isRightOption_ext; [|reflexivity..].
      apply elem_of_app in Hx as [Hx|Hx]; [now apply Hall|].
      apply list_elem_of_singleton in Hx. now subst x.
Qed.

Lemma presses_wrongsRecorded cs : forall s,
  wrongsRecorded env s -> wrongsRecorded env (presses env cs s).
Proof.
  unfold presses. induction cs as [|c cs IH]; intros s Hs; simpl; [done|].
  apply IH. now apply pressOption_wrongsRecorded.
Qed.

End PickPresses.

(** X4. In the pick game the buttons of the options already answered
    wrongly are disabled. Over any sequence of presses, the wrong answers
    recorded stay pairwise distinct, and an option that the game would
    take as right is never among them: the right option can always be
    pressed. *)
Theorem right_option_never_disabled
  (env : Env) (cs : list string) (s : PickGame.State) :
  NoDup (PickGame.wrongSelectedAnswers s) ->
  (forall c, c ∈ PickGame.wrongSelectedAnswers s ->
     PickGame.isRightOption env s c = false) ->
  let s' := PickGameView.presses env cs s in
  NoDup (PickGame.wrongSelectedAnswers s')
  /\ forall c, PickGame.isRightOption env s' c = true ->
       PickGameView.isWrong s' c = false.
Proof.
  intros Hnd Hall s'.
  destruct (presses_wrongsRecorded env cs s (conj Hnd Hall)) as [Hnd' Hall'].
  split; [exact Hnd'|].
  intros c Hc. apply includes_not_elem. intros Hin.
  fold s' in Hall'. rewrite (Hall' c Hin) in Hc. discriminate.
Qed.

Lemma right_option_never_disabled_sample :
  NoDup (PickGame.wrongSelectedAnswers samplePick)
  /\ NoDup (PickGame.wrongSelectedAnswers
              (PickGameView.presses sampleEnv ["i"; "i"; "u"] samplePick)).
Proof.
  assert (Hnd : NoDup (PickGame.wrongSelectedAnswers samplePick))
    by constructor.
  split; [exact Hnd|].
  apply (right_option_never_disabled sampleEnv ["i"; "i"; "u"] samplePick Hnd).
  intros c Hc. now apply not_elem_of_nil in Hc.
Defined.

(** ** PickGame: the two rows of options *)

Lemma presented_length (env : Env) isReverse kanaChar romajiChar count w i :
  NoDup (PickGame.questions env isReverse) ->
  PickGame.questions env isReverse !! i
  = Some (PickGame.displayChar isReverse kanaChar romajiChar) ->
  1 <= count <= Z.of_nat (length (PickGame.questions env isReverse)) ->
  exists opts w',
    PickGame.shuffledVariants env isReverse kanaChar romajiChar count w
    = (Ok opts, w')
    /\ Z.of_nat (length opts) = count.
Proof.
  intros Hnd Hq Hcount.
  destruct (shuffledVariants_spec env isReverse kanaChar romajiChar count w i
              Hnd Hq)
    as (opts & p & w' & Hrun & Hperm & Hp & _).
  exists opts, w'. split; [exact Hrun|].
  pose proof (lookup_lt_Some _ _ _ Hq) as Hi.
  rewrite slice0_nonneg in Hperm by lia.
  rewrite Hperm. cbn [length]. rewrite length_take, Hp, length_delete.
  - rewrite answerValues_length. lia.
  - rewrite (answerValues_lookup env isReverse i _ Hq). eauto.
Qed.

(** X5. The options of a round are laid out in two rows. On a pool whose
    questions are pairwise distinct and which holds the question asked,
    with an option count of at least three, at most six and at most the
    size of the pool, the first row has three options, the second the
    others, at most three, and the two rows together are the options in
    the order presented. *)
Theorem option_rows (env : Env) (s : PickGame.State) (w : World) (i : nat) :
  let isReverse := SmartReverseMode.isReverse (PickGame.reverseMode s) in
  let optionCount :=
    ProgressiveDifficulty.optionCount (PickGame.difficulty s) in
  NoDup (PickGame.questions env isReverse) ->
  PickGame.questions env isReverse !! i
  = Some (PickGame.displayChar isReverse (PickGame.correctKanaChar s)
            (PickGame.correctRomajiCharReverse s)) ->
  3 <= optionCount <= 6 ->
  optionCount <= Z.of_nat (length (PickGame.questions env isReverse)) ->
  exists opts w',
    PickGame.presentedOptions env s w = (Ok opts, w')
    /\ PickGameView.topRow opts ++ PickGameView.bottomRow opts = opts
    /\ length (PickGameView.topRow opts) = 3%nat
    /\ Z.of_nat (length (PickGameView.bottomRow opts)) = optionCount - 3
    /\ (length (PickGameView.bottomRow opts) <= 3)%nat.
Proof.
  intros isReverse optionCount Hnd Hq Hb Hn.
  destruct (presented_length env isReverse (PickGame.correctKanaChar s)
              (PickGame.correctRomajiCharReverse s) optionCount w i Hnd Hq)
    as (opts & w' & Hrun & Hlen); [lia|].
  exists opts, w'. split; [exact Hrun|].
  unfold PickGameView.topRow, PickGameView.bottomRow.
  rewrite slice0_nonneg by lia. change (Z.to_nat 3) with 3%nat.
  split; [apply take_drop|].
  rewrite length_take, length_drop. lia.
Qed.

Lemma option_rows_sample :
  NoDup (selectedKana sampleEnv)
  /\ exists opts w',
       PickGame.presentedOptions sampleEnv samplePick sampleWorld
       = (Ok opts, w')
       /\ length (PickGameView.topRow opts) = 3%nat
       /\ PickGameView.bottomRow opts = [].
Proof.
  assert (Hk : NoDup (selectedKana sampleEnv)) by compute_done.
  split; [exact Hk|].
  destruct (option_rows sampleEnv samplePick sampleWorld 0 Hk eq_refl)
    as (opts & w' & Hrun & _ & Htop & Hbot & _).
  { simpl. lia. }
  { simpl. lia. }
  exists opts, w'. split; [exact Hrun|]. split; [exact Htop|].
  apply nil_length_inv. simpl in Hbot. lia.
Defined.

(** ** KanaCards: hiding and showing a group *)

Section Visibility.
Import KanaCards.
Variable lower : string -> string.

Lemma toggle_elem name prev x :
  x ∈ toggleVisibility lower name prev
  <-> (x = lower name /\ lower name ∉ prev) \/ (x <> lower name /\ x ∈ prev).
Proof.
  unfold toggleVisibility.
  destruct (Js.includes prev (lower name)) eqn:Hi.
  - apply includes_elem in Hi. rewrite list_elem_of_filter. split.
    + intros [Hne Hx]. now right.
    + intros [[_ Hn]|[Hne Hx]]; [done|done].
  - apply includes_not_elem in Hi.
    rewrite elem_of_app, list_elem_of_singleton. split.
    + intros [Hx| ->]; [right|left; done].
      split; [|done]. intros ->. done.
    + intros [[-> _]|[_ Hx]]; [now right|now left].
Qed.

Lemma isHidden_elem hidden name :
  isHidden lower hidden name = true <-> lower name ∈ hidden.
Proof. unfold isHidden. apply includes_elem. Qed.

Lemma isHidden_toggle name prev other :
  isHidden lower (toggleVisibility lower name prev) other
  = if String.eqb (lower other) (lower name)
    then negb (isHidden lower prev other)
    else isHidden lower prev other.
Proof.
  destruct (String.eqb_spec (lower other) (lower name)) as [Heq|Hne].
  - destruct (isHidden lower prev other) eqn:Hh; simpl.
    + apply not_true_is_false. rewrite isHidden_elem, toggle_elem.
      apply isHidden_elem in Hh. rewrite Heq in *.
      intros [[_ Hn]|[Hn _]]; done.
    + apply isHidden_elem, toggle_elem. left. split; [done|].
      rewrite <- Heq. intros Hin. apply isHidden_elem in Hin. congruence.
  - destruct (isHidden lower prev other) eqn:Hh.
    + apply isHidden_elem, toggle_elem. right. split; [done|].
      now apply isHidden_elem.
    + apply not_true_is_false. rewrite isHidden_elem, toggle_elem.
      intros [[He _]|[_ Hin]]; [done|].
      apply isHidden_elem in Hin. congruence.
Qed.

Lemma toggle_NoDup_hidden name prev :
  NoDup prev -> NoDup (toggleVisibility lower name prev).
Proof.
  intros Hnd. unfold toggleVisibility.
  destruct (Js.includes prev (lower name)) eqn:Hi.
  - now apply NoDup_filter.
  - apply includes_not_elem in Hi. apply NoDup_app. split; [done|].
    split; [|apply NoDup_singleton].
    intros x Hx Hx'. apply list_elem_of_singleton in Hx'. now subst x.
Qed.

End Visibility.

(** X11. A click on the header of a kana group, or of a subset, flips
    whether it is hidden; every other name is left as it was, unless it
    has the same lower-case form, in which case it flips too. A second
    click on the same header undoes the first, and a list of hidden names
    without repeats stays without repeats. *)
Theorem toggle_visibility_flips
  (lower : string -> string) (name other : string) (prev : list string) :
  let updated := KanaCards.toggleVisibility lower name prev in
  KanaCards.isHidden lower updated name
  = negb (KanaCards.isHidden lower prev name)
  /\ KanaCards.isHidden lower updated other
     = (if String.eqb (lower other) (lower name)
        then negb (KanaCards.isHidden lower prev other)
        else KanaCards.isHidden lower prev other)
  /\ KanaCards.isHidden lower
       (KanaCards.toggleVisibility lower name updated) other
     = KanaCards.isHidden lower prev other
  /\ (NoDup prev -> NoDup updated).
Proof.
  intros updated. unfold updated. split; [|split; [|split]].
  - now rewrite isHidden_toggle, String.eqb_refl.
  - apply isHidden_toggle.
  - rewrite !isHidden_toggle.
    destruct (String.eqb _ _); [apply negb_involutive|done].
  - apply toggle_NoDup_hidden.
Qed.

(** ** QuickSelectModal: the search by level *)

Section LevelSearch.
Import QuickSelectModal.

Lemma stripNonDigits_allDigits value : allDigits (stripNonDigits value) = true.
Proof.
  induction value as [|a rest IH]; simpl; [done|].
  destruct (isDigit a) eqn:Ha; simpl; [now rewrite Ha|done].
Qed.

Lemma stripNonDigits_id s : allDigits s = true -> stripNonDigits s = s.
Proof.
  induction s as [|a rest IH]; simpl; [done|].
  intros [Ha Hr]%andb_true_iff. rewrite Ha. now rewrite IH.
Qed.

Lemma leadingDigits_allDigits s : allDigits (leadingDigits s) = true.
Proof.
  induction s as [|a rest IH]; simpl; [done|].
  destruct (isDigit a) eqn:Ha; simpl; [now rewrite Ha|done].
Qed.

Lemma levelNumber_allDigits name : allDigits (levelNumber name) = true.
Proof.
  induction name as [|a rest IH]; [done|].
  cbn [levelNumber]. destruct (isDigit a); [|done].
  apply leadingDigits_allDigits.
Qed.

Lemma levelNumber_empty name :
  levelNumber name = "" <-> stripNonDigits name = "".
Proof.
  induction name as [|a rest IH]; [done|].
  cbn [levelNumber stripNonDigits]. destruct (isDigit a) eqn:Ha; [|done].
  simpl. rewrite Ha. done.
Qed.

Lemma prefix_refl s : String.prefix s s = true.
Proof.
  induction s as [|a s IH]; simpl; [done|].
  destruct (Ascii.ascii_dec a a); [exact IH|congruence].
Qed.

Lemma prefix_append t u : forall s,
  String.prefix (String.append t u) s = true -> String.prefix t s = true.
Proof.
  induction t as [|a t IH]; intros s; simpl; [intros _; now destruct s|].
  destruct s as [|b s]; simpl; [done|].
  destruct (Ascii.ascii_dec a b); [apply IH|done].
Qed.

Lemma includes_refl s : includes s s = true.
Proof. destruct s; cbn [includes]; now rewrite prefix_refl. Qed.

Lemma includes_append t u : forall s,
  includes s (String.append t u) = true -> includes s t = true.
Proof.
  induction s as [|a s IH]; cbn [includes]; rewrite !orb_true_iff.
  - intros [H|H]; [left; now apply (prefix_append t u)|done].
  - intros [H|H]; [left; now apply (prefix_append t u)|right; now apply IH].
Qed.

Lemma includes_empty t : includes "" t = true -> t = "".
Proof. destruct t; simpl; [done|discriminate]. Qed.

Lemma filteredSets_elem sets searchLevel set :
  set ∈ filteredSets sets searchLevel
  <-> set ∈ sets
      /\ (searchLevel = ""
          \/ includes (levelNumber (name set)) searchLevel = true).
Proof.
  unfold filteredSets. destruct (String.eqb_spec searchLevel "") as [->|Hne].
  - split; [intros H; split; [done|now left]|now intros [H _]].
  - rewrite list_elem_of_filter. split.
    + intros [Hi Hs]. split; [done|now right].
    + intros [Hs [?|Hi]]; [done|]. done.
Qed.

End LevelSearch.

(** X12. What the search box of the level picker keeps of the text typed
    is its digits, in order: the kept text is all digits, a text of
    digits is kept whole, and so filtering what was kept changes nothing.
    The level number read from the name of a set is all digits too, and
    it is empty exactly when the name has no digit. *)
Theorem search_box_keeps_digits (value : string) :
  QuickSelectModal.allDigits (QuickSelectModal.stripNonDigits value) = true
  /\ QuickSelectModal.stripNonDigits (QuickSelectModal.stripNonDigits value)
     = QuickSelectModal.stripNonDigits value
  /\ (QuickSelectModal.allDigits value = true -> QuickSelectModal.stripNonDigits value = value)
  /\ QuickSelectModal.allDigits (QuickSelectModal.levelNumber value) = true
  /\ (QuickSelectModal.levelNumber value = ""
      <-> QuickSelectModal.stripNonDigits value = "").
Proof.
  split; [apply stripNonDigits_allDigits|].
  split; [apply stripNonDigits_id, stripNonDigits_allDigits|].
  split; [apply stripNonDigits_id|].
  split; [apply levelNumber_allDigits|apply levelNumber_empty].
Qed.

(** X13. The sets listed by the level picker are a part of the sets given,
    in their order. With nothing typed all sets are listed. A set whose
    name has no digit is listed for no search but the empty one. A set is
    listed when its own level number is typed. Typing more never brings
    back a set that the text typed so far had left out. *)
Theorem level_search
  (sets : list QuickSelectModal.LevelSet) (set : QuickSelectModal.LevelSet)
  (typed more : string) :
  QuickSelectModal.filteredSets sets typed `sublist_of` sets
  /\ QuickSelectModal.filteredSets sets "" = sets
  /\ (QuickSelectModal.levelNumber (QuickSelectModal.name set) = "" ->
      typed <> "" ->
      set ∉ QuickSelectModal.filteredSets sets typed)
  /\ (set ∈ sets ->
      set ∈ QuickSelectModal.filteredSets sets
              (QuickSelectModal.stripNonDigits
                 (QuickSelectModal.levelNumber (QuickSelectModal.name set))))
  /\ (set ∈ QuickSelectModal.filteredSets sets (String.append typed more) ->
      set ∈ QuickSelectModal.filteredSets sets typed).
Proof.
  split; [|split; [|split; [|split]]].
  - unfold QuickSelectModal.filteredSets.
    destruct (String.eqb typed ""); [done|apply sublist_filter].
  - reflexivity.
  - intros Hno Hne Hin. apply filteredSets_elem in Hin as [_ [?|Hi]]; [done|].
    rewrite Hno in Hi. now apply includes_empty in Hi.
  - intros Hin. apply filteredSets_elem. split; [done|]. right.
    rewrite stripNonDigits_id by apply levelNumber_allDigits.
    apply includes_refl.
  - intros Hin. apply filteredSets_elem in Hin as [Hs Hi].
    apply filteredSets_elem. split; [done|].
    destruct Hi as [He|Hi].
    + left. destruct typed; [done|discriminate].
    + right. now apply (includes_append typed more).
Qed.

(** ** SubcategoryPageClient: the modal and the filter counts *)

Section Related.
Import SubcategoryPage.

Lemma slice0_take {A : Type} (n : nat) (l : list A) :
  Js.slice0 (Z.of_nat n) l = take n l.
Proof. rewrite slice0_nonneg by lia. now rewrite Nat2Z.id. Qed.

Lemma sharesTag_spec sel r :
  sharesTag sel r = true <-> exists tag, tag ∈ tags r /\ tag ∈ tags sel.
Proof.
  unfold sharesTag. rewrite existsb_exists. split.
  - intros (tag & Hin & Hi). exists tag.
    split; [now apply list_elem_of_In|now apply includes_elem].
  - intros (tag & Hin & Hi). exists tag.
    split; [now apply list_elem_of_In|now apply includes_elem].
Qed.

Lemma related_elem sel all r :
  r ∈ relatedResources (Some sel) all ->
  r ∈ all /\ id r <> id sel /\ exists tag, tag ∈ tags r /\ tag ∈ tags sel.
Proof.
  unfold relatedResources. change 4 with (Z.of_nat 4). rewrite slice0_take.
  intros Hin.
  pose proof (elem_of_sublist _ _ _ Hin (sublist_take _ _)) as Hf.
  apply list_elem_of_filter in Hf as [Hp Hall].
  apply andb_true_iff in Hp as [Hid Htag].
  split; [done|]. split.
  - intros Heq. rewrite Heq, String.eqb_refl in Hid. discriminate.
  - now apply sharesTag_spec.
Qed.

Lemma run_open_iff es : forall s,
  (isModalOpen s = true <-> selectedResource s <> None) ->
  isModalOpen (fold_left step es s) = true
  <-> selectedResource (fold_left step es s) <> None.
Proof.
  induction es as [|e es IH]; intros s Hs; simpl; [done|].
  apply IH. destruct e; simpl; split; done.
Qed.

Lemma filter_split_length {A : Type} (P Q R : A -> Prop)
  `{forall x, Decision (P x)} `{forall x, Decision (Q x)}
  `{forall x, Decision (R x)} (l : list A) :
  (forall x, R x <-> P x \/ Q x) -> (forall x, P x -> Q x -> False) ->
  length (filter R l) = (length (filter P l) + length (filter Q l))%nat.
Proof.
  intros HR Hd. induction l as [|x l IH]; [done|].
  rewrite !filter_cons.
  destruct (decide (P x)) as [HP|HP], (decide (Q x)) as [HQ|HQ].
  - exfalso. eauto.
  - rewrite decide_True by (apply HR; now left). simpl. lia.
  - rewrite decide_True by (apply HR; now right). simpl. lia.
  - rewrite decide_False by (rewrite HR; tauto). lia.
Qed.

Lemma difficultyCounts_sum levels all :
  NoDup levels ->
  sum_list ((difficultyCounts levels all).*2)
  = length (filter (fun r => difficulty r ∈ levels) all).
Proof.
  induction levels as [|l levels IH]; intros Hnd.
  - simpl. rewrite filter_none; [done|]. intros x _ Hx.
    now apply not_elem_of_nil in Hx.
  - apply NoDup_cons in Hnd as [Hl Hnd].
    unfold difficultyCounts in *. rewrite fmap_cons. cbn [fmap list_fmap sum_list snd].
    rewrite IH by done. unfold countWhere.
    symmetry. apply filter_split_length.
    + intros x. rewrite elem_of_cons.
      destruct (String.eqb_spec (difficulty x) l); split; intros [?|?];
        auto; done.
    + intros x Hx Hin. apply String.eqb_eq in Hx. now subst l.
Qed.

End Related.

(** X14. The related resources handed to the detail modal are resources
    of the page in their order, at most four, none with the id of the
    resource selected, each sharing a tag with it; with no resource
    selected there are none. The modal lists the first three of them, so
    a fourth is computed and never shown. *)
Theorem related_resources_shape
  (selected : option SubcategoryPage.Resource)
  (initialResources : list SubcategoryPage.Resource) :
  let related :=
    SubcategoryPage.relatedResources selected initialResources in
  let shown := SubcategoryPage.shownRelated selected related in
  related `sublist_of` initialResources
  /\ (length related <= 4)%nat
  /\ shown = take 3 related
  /\ (length shown <= 3)%nat
  /\ (forall r, r ∈ related ->
        exists sel,
          selected = Some sel
          /\ SubcategoryPage.id r <> SubcategoryPage.id sel
          /\ exists tag, tag ∈ SubcategoryPage.tags r
                         /\ tag ∈ SubcategoryPage.tags sel)
  /\ (selected = None -> related = []).
Proof.
  intros related shown. unfold shown, related.
  destruct selected as [sel|]; simpl.
  - change 4 with (Z.of_nat 4). change 3 with (Z.of_nat 3).
    rewrite !slice0_take.
    split; [etrans; [apply sublist_take|apply sublist_filter]|].
    split; [rewrite length_take; lia|].
    split; [done|].
    split; [rewrite length_take; lia|].
    split; [|done].
    intros r Hr. exists sel. split; [done|].
    apply (related_elem sel initialResources r).
    unfold SubcategoryPage.relatedResources.
    change 4 with (Z.of_nat 4). now rewrite slice0_take.
  - split; [apply sublist_nil_l|]. split; [lia|]. split; [done|].
    split; [lia|]. split; [|done].
    intros r Hr. now apply not_elem_of_nil in Hr.
Qed.

(** X15. From the initial state of the page, after any sequence of
    selections and closings, the modal is open exactly when a resource is
    selected; after a selection it is that resource, and after a closing
    nothing is listed as related. *)
Theorem modal_open_iff_selected
  (es : list SubcategoryPage.Event)
  (initialResources : list SubcategoryPage.Resource) :
  let s := fold_left SubcategoryPage.step es SubcategoryPage.initial in
  (SubcategoryPage.isModalOpen s = true
   <-> SubcategoryPage.selectedResource s <> None)
  /\ (forall r,
        SubcategoryPage.selectedResource
          (SubcategoryPage.step s (SubcategoryPage.Select r)) = Some r)
  /\ SubcategoryPage.relatedResources
       (SubcategoryPage.selectedResource
          (SubcategoryPage.step s SubcategoryPage.Close))
       initialResources = [].
Proof.
  intros s. split; [|split; done].
  apply run_open_iff. simpl. split; done.
Qed.

(** X16. The difficulty counts of the filter panel list the levels in
    their order. When no level is listed twice, the counts add up to the
    number of resources whose difficulty is one of the levels: no
    resource is counted twice, and the total is at most the number of
    resources. *)
Theorem difficulty_counts_add_up
  (levels : list string)
  (initialResources : list SubcategoryPage.Resource) :
  NoDup levels ->
  (SubcategoryPage.difficultyCounts levels initialResources).*1 = levels
  /\ sum_list ((SubcategoryPage.difficultyCounts levels initialResources).*2)
     = length (filter (fun r => SubcategoryPage.difficulty r ∈ levels)
                 initialResources)
  /\ (sum_list ((SubcategoryPage.difficultyCounts levels initialResources).*2)
      <= length initialResources)%nat.
Proof.
  intros Hnd. split; [|split].
  - unfold SubcategoryPage.difficultyCounts. rewrite <- list_fmap_compose.
    apply list_fmap_id.
  - now apply difficultyCounts_sum.
  - rewrite difficultyCounts_sum by done. apply length_filter.
Qed.

Lemma difficulty_counts_add_up_sample :
  NoDup ["beginner"; "intermediate"; "advanced"]
  /\ sum_list
       ((SubcategoryPage.difficultyCounts
           ["beginner"; "intermediate"; "advanced"]
           [SubcategoryPage.mkResource "a" ["anki"] "beginner" "free" ["web"];
            SubcategoryPage.mkResource "b" [] "all-levels" "paid" []]).*2)
     = 1%nat.
Proof.
  assert (Hnd : NoDup ["beginner"; "intermediate"; "advanced"])
    by compute_done.
  split; [exact Hnd|].
  destruct (difficulty_counts_add_up
              ["beginner"; "intermediate"; "advanced"]
              [SubcategoryPage.mkResource "a" ["anki"] "beginner" "free"
                 ["web"];
               SubcategoryPage.mkResource "b" [] "all-levels" "paid" []]
              Hnd) as (_ & Hsum & _).
  rewrite Hsum. reflexivity.
Defined.

(** ** WordBuildingGame: a correct check and the orientation *)

Section CorrectCheck.
Import WordBuildingGame.
Variable env : Env.
Variable props : Props.

Lemma resetGame_total s :
  exists wd w',
    resetGame env props s
    = (Ok tt, mkState w' wd [] false check (score s) (reverseMode s)).
Proof.
  destruct (generateWord_shape env props (isReverse props s) (world s))
    as (wd & w' & _ & Hg & _).
  exists wd, w'. now apply resetGame_ok.
Qed.

Lemma step_correct_check s t ts :
  bottomBarState s = check ->
  placedTiles s = t :: ts ->
  isCorrect (placedTiles s) (answerChars (wordData s)) = true ->
  exists s1 s',
    handleCheck env props s = (Ok tt, s1)
    /\ step env props ClickMainButton s = (Ok tt, s')
    /\ bottomBarState s1 = correct /\ isChecking s1 = true
    /\ wordData s1 = wordData s /\ placedTiles s1 = placedTiles s
    /\ score s1 = score s + Z.of_nat (length (wordChars (wordData s)))
    /\ score s' = score s1
    /\ isReverse props s' = isReverse props s1
    /\ (isReverse props s1 = isReverse props s -> s' = s1)
    /\ (isReverse props s1 <> isReverse props s ->
        bottomBarState s' = check /\ placedTiles s' = []
        /\ isChecking s' = false).
Proof.
  intros Hb Hp Hc.
  destruct (handleCheck_correct env props s t ts Hp Hc) as (w1 & m1 & Hh & _).
  assert (Hd : dispatch env props ClickMainButton s = handleCheck env props s).
  { unfold dispatch. rewrite bind_gets. now rewrite Hb. }
  unfold step. rewrite bind_gets.
  erewrite bind_ok by (rewrite Hd; exact Hh).
  unfold commitEffects. rewrite bind_gets.
  match goal with
  | |- context [Bool.eqb ?a ?b] => destruct (Bool.eqb a b) eqn:He
  end.
  - apply Bool.eqb_prop in He.
    eexists _, _. split; [exact Hh|]. split; [reflexivity|].
    do 7 (split; [done|]). split; [done|]. intros Hne. done.
  - apply Bool.eqb_false_iff in He.
    match goal with
    | |- context [resetGame env props ?st] =>
        destruct (resetGame_total st) as (wd & w' & Hr)
    end.
    rewrite Hr. eexists _, _. split; [exact Hh|]. split; [reflexivity|].
    do 7 (split; [done|]). split; [|done].
    intros Heq. done.
Qed.

End CorrectCheck.

(** X17. A check judged correct adds the length of the word to the score
    and may turn the orientation. If the orientation stays, the bar shows
    the verdict over the same word and tiles. If it turns, the effect on
    the orientation resets the round in the same step: the score is kept,
    but the row is empty and the bar asks for a check again. When the
    orientation is given by the parent, it never turns at a check. *)
Theorem correct_check_and_orientation
  (env : Env) (props : WordBuildingGame.Props) (s : WordBuildingGame.State) :
  WordBuildingGame.isCorrectCheck WordBuildingGame.ClickMainButton s = true ->
  let s' := snd (WordBuildingGame.step env props
                   WordBuildingGame.ClickMainButton s) in
  WordBuildingGame.score s'
  = WordBuildingGame.score s
    + Z.of_nat (length (WordBuildingGame.wordChars
                          (WordBuildingGame.wordData s)))
  /\ (WordBuildingGame.isReverse props s' = WordBuildingGame.isReverse props s
      -> WordBuildingGame.bottomBarState s' = WordBuildingGame.correct
         /\ WordBuildingGame.isChecking s' = true
         /\ WordBuildingGame.wordData s' = WordBuildingGame.wordData s
         /\ WordBuildingGame.placedTiles s' = WordBuildingGame.placedTiles s)
  /\ (WordBuildingGame.isReverse props s' <> WordBuildingGame.isReverse props s
      -> WordBuildingGame.bottomBarState s' = WordBuildingGame.check
         /\ WordBuildingGame.isChecking s' = false
         /\ WordBuildingGame.placedTiles s' = [])
  /\ (WordBuildingGame.externalIsReverse props <> None
      -> WordBuildingGame.isReverse props s'
         = WordBuildingGame.isReverse props s).
Proof.
  intros Hc s'. unfold WordBuildingGame.isCorrectCheck in Hc.
  destruct (WordBuildingGame.bottomBarState s) eqn:Hb; try discriminate.
  destruct (WordBuildingGame.placedTiles s) as [|t ts] eqn:Hp;
    [discriminate|].
  rewrite <- Hp in Hc.
  destruct (step_correct_check env props s t ts Hb Hp Hc)
    as (s1 & s2 & _ & Hs & Hbar & Hchk & Hwd & Hpl & Hsc & Hsc' & Hrev
        & Hsame & Hturn).
  unfold s'. rewrite Hs. cbn [snd]. rewrite Hrev.
  split; [congruence|]. split; [|split].
  - intros Heq. rewrite (Hsame Heq). rewrite Hp in Hpl. done.
  - intros Hne. destruct (Hturn Hne) as (H1 & H2 & H3). done.
  - intros Hext. unfold WordBuildingGame.isReverse.
    destruct (WordBuildingGame.externalIsReverse props); [done|].
    congruence.
Qed.

Lemma correct_check_and_orientation_sample :
  WordBuildingGame.isCorrectCheck WordBuildingGame.ClickMainButton
    sampleWordSolved = true
  /\ WordBuildingGame.score
       (snd (WordBuildingGame.step sampleEnv sampleProps
               WordBuildingGame.ClickMainButton sampleWordSolved)) = 3.
Proof.
  split; [reflexivity|].
  destruct (correct_check_and_orientation sampleEnv sampleProps
              sampleWordSolved eq_refl) as [Hs _].
  exact Hs.
Defined.
